(** * Memory ingestion and retrieval pipeline

    A shallow embedding of [src/chunking.ts] (text normaliser, sentence
    chunker, metadata extractor), of [memory-system.ts] (the pipeline
    orchestrator), of the part of [vector-store.ts] the orchestrator
    relies on and of the chat endpoint of [copilot-server.ts], together
    with the properties the specification states about them.

    JavaScript strings are sequences of UTF-16 code units; a string is
    modelled as [list N], one entry per code unit, so that [length] is the
    [.length] of the source and a regular expression without the [u] flag
    walks the list one element at a time.  Token counts and limits are
    integers; similarity scores and vector components are read as exact
    rationals.  The embedding model, the chat model, the clock, the
    identifier generator and the vector database are outside the
    repository: the first four are oracles of an environment, the last is
    modelled from the contract the specification gives for it.  The
    printing of a score as a percentage with one decimal, which the
    runtime computes on floating-point numbers, is an oracle as well. *)

From stdpp Require Import gmap strings list fin_maps sorting pretty.
From Stdlib Require Import ZArith QArith Qround Lia.

#[local] Open Scope Z_scope.

(** ** Strings, character classes and the regular expressions used *)

Module JS.

Abbreviation jsstring := (list N).

(** A literal of the source, as code units (the literals used are ASCII). *)
Definition lit (s : string) : jsstring :=
  map Ascii.N_of_ascii (String.list_ascii_of_string s).

Definition LF : N := 10%N.
Definition SPACE : N := 32%N.

(** [\s] of ECMAScript: WhiteSpace and LineTerminator code points, all in
    the basic plane.  [String.prototype.trim] strips the same set. *)
Definition is_ws (c : N) : bool :=
  ((9 <=? c) && (c <=? 13) || (c =? 32) || (c =? 160) || (c =? 5760)
   || (8192 <=? c) && (c <=? 8202) || (c =? 8232) || (c =? 8233)
   || (c =? 8239) || (c =? 8287) || (c =? 12288) || (c =? 65279))%N.

(** [\n] *)
Definition is_newline (c : N) : bool := (c =? 10)%N.

(** [[.!?]] *)
Definition is_terminal (c : N) : bool :=
  ((c =? 46) || (c =? 33) || (c =? 63))%N.

(** [s.replace(/C+/g, rep)] for a character class [C]: the text outside the
    maximal runs of [C] is copied, every maximal run becomes [rep].
    [in_run] tells that the previous code unit belonged to the run being
    replaced. *)
Fixpoint replace_runs (cls : N -> bool) (rep : jsstring) (in_run : bool)
    (s : jsstring) : jsstring :=
  match s with
  | [] => []
  | c :: r =>
      if cls c then
        if in_run then replace_runs cls rep true r
        else rep ++ replace_runs cls rep true r
      else c :: replace_runs cls rep false r
  end.

Definition replace_all (cls : N -> bool) (rep : jsstring) (s : jsstring) :=
  replace_runs cls rep false s.

(** [s.split(/C+/)]: [cur] is the piece being read (S[p..q) of the
    language definition), pushed when a run of [C] starts and once more at
    the end of the input, empty or not. *)
Fixpoint split_runs (cls : N -> bool) (cur : jsstring) (in_run : bool)
    (s : jsstring) : list jsstring :=
  match s with
  | [] => [cur]
  | c :: r =>
      if cls c then
        if in_run then split_runs cls [] true r
        else cur :: split_runs cls [] true r
      else split_runs cls (cur ++ [c]) false r
  end.

Definition split (cls : N -> bool) (s : jsstring) : list jsstring :=
  split_runs cls [] false s.

Fixpoint dropWhile {A} (p : A -> bool) (l : list A) : list A :=
  match l with
  | [] => []
  | x :: r => if p x then dropWhile p r else l
  end.

Definition trimStart (s : jsstring) : jsstring := dropWhile is_ws s.
Definition trimEnd (s : jsstring) : jsstring :=
  reverse (dropWhile is_ws (reverse s)).

(** [s.trim()] *)
Definition trim (s : jsstring) : jsstring := trimEnd (trimStart s).

(** [a.join(sep)] *)
Fixpoint join (sep : jsstring) (a : list jsstring) : jsstring :=
  match a with
  | [] => []
  | [x] => x
  | x :: r => x ++ sep ++ join sep r
  end.

(** [re.test(s)] for an unanchored pattern: some suffix of [s] starts with
    a match. *)
Fixpoint test_anywhere (at_start : jsstring -> bool) (s : jsstring) : bool :=
  at_start s ||
  match s with
  | [] => false
  | _ :: r => test_anywhere at_start r
  end.

Fixpoint starts_with (p s : jsstring) : option jsstring :=
  match p, s with
  | [], _ => Some s
  | a :: p', b :: s' => if (a =? b)%N then starts_with p' s' else None
  | _ :: _, [] => None
  end.

Definition next_is_nonspace (s : jsstring) : bool :=
  match s with
  | c :: _ => negb (is_ws c)
  | [] => false
  end.

(** [/https?:\/\/[^\s]+/] at the head of [s] *)
Definition url_here (s : jsstring) : bool :=
  match starts_with (lit "http://") s with
  | Some r => next_is_nonspace r
  | None =>
      match starts_with (lit "https://") s with
      | Some r => next_is_nonspace r
      | None => false
      end
  end.

(** [[^\s]+\.[^\s]+] somewhere in the run of non-blank code units that
    starts at the head of [s]; [seen] tells that at least one code unit of
    the run was read already. *)
Fixpoint dotted_run (seen : bool) (s : jsstring) : bool :=
  match s with
  | [] => false
  | c :: r =>
      if is_ws c then false
      else (seen && (c =? 46)%N && next_is_nonspace r) || dotted_run true r
  end.

(** [/[^\s]+@[^\s]+\.[^\s]+/]: an [@] preceded by a non-blank code unit and
    followed by a dotted run.  [prev] tells that the previous code unit
    was not blank. *)
Fixpoint email_scan (prev : bool) (s : jsstring) : bool :=
  match s with
  | [] => false
  | c :: r =>
      (prev && (c =? 64)%N && dotted_run false r)
      || email_scan (negb (is_ws c)) r
  end.

End JS.

Import JS.

(** ** [chunking.ts] *)

Module Chunking.

Record Chunk := mkChunk {
  text : jsstring;
  index : nat;
  tokenCount : Z
}.

(** [text.split(/[.!?]+/).map(s => s.trim()).filter(s => s.length > 0)] *)
Definition splitIntoSentences (text : jsstring) : list jsstring :=
  filter (fun s => (0 < length s)%nat) (map trim (split is_terminal text)).

(** [Math.ceil(text.length / 4)] *)
Definition estimateTokenCount (text : jsstring) : Z :=
  (Z.of_nat (length text) + 3) / 4.

(** The backward walk of lines 62-72: [rest] holds
    [currentChunk[i], currentChunk[i-1], ..., currentChunk[0]]. *)
Fixpoint overlapWalk (overlapTokens : Z) (rest : list jsstring)
    (overlapSentences : list jsstring) (overlapCount : Z)
    : list jsstring * Z :=
  match rest with
  | [] => (overlapSentences, overlapCount)
  | s :: rest' =>
      let tokens := estimateTokenCount s in
      if overlapCount + tokens <=? overlapTokens then
        overlapWalk overlapTokens rest' (s :: overlapSentences)
          (overlapCount + tokens)
      else (overlapSentences, overlapCount)
  end.

Definition overlapOf (overlapTokens : Z) (currentChunk : list jsstring)
    : list jsstring * Z :=
  overlapWalk overlapTokens (reverse currentChunk) [] 0.

(** The variables of [chunkText] that the loop updates. *)
Record Loop := mkLoop {
  chunks : list Chunk;
  currentChunk : list jsstring;
  currentTokenCount : Z;
  chunkIndex : nat
}.

(** [currentChunk.join('. ') + '.'] *)
Definition joinSentences (currentChunk : list jsstring) : jsstring :=
  join (lit ". ") currentChunk ++ lit ".".

Definition mustFlush (maxTokens : Z) (st : Loop) (sentenceTokens : Z) : bool :=
  (maxTokens <? currentTokenCount st + sentenceTokens)
  && (0 <? length (currentChunk st))%nat.

(** Lines 54-75: push the pending chunk and restart from its overlap. *)
Definition flush (overlapTokens : Z) (st : Loop) : Loop :=
  let chunkText := joinSentences (currentChunk st) in
  let '(overlapSentences, overlapCount) :=
    overlapOf overlapTokens (currentChunk st) in
  {| chunks := chunks st ++
       [ {| text := chunkText; index := chunkIndex st;
            tokenCount := currentTokenCount st |} ];
     currentChunk := overlapSentences;
     currentTokenCount := overlapCount;
     chunkIndex := S (chunkIndex st) |}.

(** One iteration of the [for (const sentence of sentences)] loop. *)
Definition loopBody (maxTokens overlapTokens : Z) (st : Loop)
    (sentence : jsstring) : Loop :=
  let sentenceTokens := estimateTokenCount sentence in
  let st' :=
    if mustFlush maxTokens st sentenceTokens then flush overlapTokens st
    else st in
  {| chunks := chunks st';
     currentChunk := currentChunk st' ++ [sentence];
     currentTokenCount := currentTokenCount st' + sentenceTokens;
     chunkIndex := chunkIndex st' |}.

Definition loopInit : Loop :=
  {| chunks := []; currentChunk := []; currentTokenCount := 0;
     chunkIndex := 0 |}.

(** Lines 82-92. *)
Definition lastChunk (st : Loop) : list Chunk :=
  if (0 <? length (currentChunk st))%nat then
    chunks st ++
      [ {| text := joinSentences (currentChunk st); index := chunkIndex st;
           tokenCount := currentTokenCount st |} ]
  else chunks st.

Definition chunkSentences (maxTokens overlapTokens : Z)
    (sentences : list jsstring) : list Chunk :=
  lastChunk (foldl (loopBody maxTokens overlapTokens) loopInit sentences).

(** [chunkText(text, maxTokens = 500, overlapTokens = 50)]; [None] is an
    argument left out. *)
Definition chunkText (text : jsstring) (maxTokens overlapTokens : option Z)
    : list Chunk :=
  chunkSentences (default 500 maxTokens) (default 50 overlapTokens)
    (splitIntoSentences text).

(** [normalizeText] *)
Definition normalizeText (text : jsstring) : jsstring :=
  trim (replace_all is_newline [LF] (replace_all is_ws [SPACE] text)).

Record Metadata := mkMetadata {
  wordCount : nat;
  charCount : nat;
  hasUrl : bool;
  hasEmail : bool;
  language : jsstring
}.

(** [extractMetadata] *)
Definition extractMetadata (text : jsstring) : Metadata :=
  {| wordCount := length (split is_ws text);
     charCount := length text;
     hasUrl := test_anywhere url_here text;
     hasEmail := email_scan false text;
     language := lit "en" |}.

End Chunking.

Import Chunking.

(** ** Values, thrown errors and the world the pipeline runs in *)

Module Runtime.

(** Values of a [Record<string, any>]. *)
#[warnings="-register-all"] Inductive jsval :=
| JNull
| JBool (b : bool)
| JNum (n : Z)
| JStr (s : jsstring)
| JArr (items : list jsval)
| JObj (fields : list (string * jsval)).

(** The payload [VectorStore.addMemory] stores with a vector. *)
Record Payload := mkPayload {
  payloadText : jsstring;
  payloadUserId : jsstring;
  payloadTimestamp : Z;
  payloadMetadata : gmap string jsval
}.

Record Point := mkPoint {
  vector : list Q;
  payload : Payload
}.

(** What [VectorStore.search] returns for a hit. *)
Record SearchResult := mkSearchResult {
  id : jsstring;
  score : Q;
  resultText : jsstring;
  timestamp : Z;
  metadata : gmap string jsval
}.

Record Message := mkMessage {
  role : jsstring;
  content : jsstring
}.

(** Thrown values: an [Error] made by the pipeline, or what a client
    library throws. *)
Inductive Exn :=
| Error (message : jsstring)
| OllamaFailure
| QdrantFailure.

Inductive Result (A : Type) :=
| Ok (a : A)
| Throw (e : Exn).
Arguments Ok {A} a.
Arguments Throw {A} e.

(** The collaborators.  Each answer may depend on how many calls were made
    before; [None] is a call that throws. *)
Record Env := mkEnv {
  ollama_embeddings : nat -> jsstring -> jsstring -> option (list Q);
  ollama_chat : nat -> jsstring -> list Message -> option jsstring;
  randomUUID : nat -> jsstring;
  dateNow : nat -> Z;
  (** the score Qdrant gives a stored vector against the query (cosine) *)
  similarity : list Q -> list Q -> Q;
  (** the text of [(score * 100).toFixed(1)]: the product and its rounding
      to one decimal are those of the floating-point numbers of the
      runtime *)
  percentToFixed1 : Q -> jsstring
}.

(** The ['memories'] collection and the number of calls made so far. *)
Record World := mkWorld {
  collection : gmap jsstring Point;
  embedCalls : nat;
  chatCalls : nat;
  uuidCalls : nat;
  clockReads : nat
}.

(** An [async] method: it reads and updates the world, and returns or
    throws. *)
Definition M (A : Type) : Type := World -> World * Result A.

Definition ret {A} (a : A) : M A := fun w => (w, Ok a).
Definition bind {A B} (m : M A) (k : A -> M B) : M B :=
  fun w =>
    match m w with
    | (w', Ok a) => k a w'
    | (w', Throw e) => (w', Throw e)
    end.

Notation "'let*' x ':=' m 'in' k" := (bind m (fun x => k))
  (at level 10, x name, m at level 100, k at level 200, only parsing).

End Runtime.

Import Runtime.

(** ** [vector-store.ts] *)

Module VectorStore.

Definition VECTOR_SIZE : nat := 768.

Section Client.

Variable env : Env.

(** Modelled from the spec: the upsert of the vector database engine, which
    is not part of the repository.  A vector whose dimension differs from
    the one of the collection fails the write; otherwise the point is
    stored under its id, replacing a point that has the same id. *)
Definition client_upsert (pointId : jsstring) (p : Point) : M unit :=
  fun w =>
    if (length (vector p) =? VECTOR_SIZE)%nat then
      ({| collection := <[pointId := p]> (collection w);
          embedCalls := embedCalls w; chatCalls := chatCalls w;
          uuidCalls := uuidCalls w; clockReads := clockReads w |}, Ok tt)
    else (w, Throw QdrantFailure).

(** Modelled from the spec: the search of the vector database engine.  Of
    the points whose payload matches the filter, those that score at least
    [score_threshold] against the query are ranked by descending score and
    the first [limit] of them are returned. *)
Definition client_search (query : list Q) (filterUserId : jsstring)
    (limit : nat) (score_threshold : Q) : M (list (jsstring * Q * Payload)) :=
  fun w =>
    if (length query =? VECTOR_SIZE)%nat then
      let matching :=
        filter (fun kp => payloadUserId (payload kp.2) = filterUserId)
          (map_to_list (collection w)) in
      let scored :=
        map (fun kp => (kp.1, similarity env query (vector kp.2), payload kp.2))
          matching in
      let passing :=
        filter (fun r => Is_true (Qle_bool score_threshold r.1.2)) scored in
      let ranked :=
        merge_sort (fun a b => Is_true (Qle_bool b.1.2 a.1.2)) passing in
      (w, Ok (take limit ranked))
    else (w, Throw QdrantFailure).

(** [addMemory(id, embedding, payload)] *)
Definition addMemory (pointId : jsstring) (embedding : list Q)
    (p : Payload) : M unit :=
  client_upsert pointId {| vector := embedding; payload := p |}.

(** [search(embedding, userId, limit = 5, scoreThreshold = 0.5)] *)
Definition search (embedding : list Q) (userId : jsstring)
    (limit : option nat) (scoreThreshold : option Q) : M (list SearchResult) :=
  let* results :=
    client_search embedding userId (default 5%nat limit)
      (default (1 # 2)%Q scoreThreshold) in
  ret (map (fun r : jsstring * Q * Payload =>
              {| id := r.1.1; score := r.1.2;
                 resultText := payloadText r.2;
                 timestamp := payloadTimestamp r.2;
                 metadata := payloadMetadata r.2 |}) results).

End Client.

(** Modelled from the spec: the deletion of the points of the given ids by
    the vector database engine; an id that names no point is passed over. *)
Definition client_delete_points (ids : list jsstring) : M unit :=
  fun w =>
    ({| collection := foldr delete (collection w) ids;
        embedCalls := embedCalls w; chatCalls := chatCalls w;
        uuidCalls := uuidCalls w; clockReads := clockReads w |}, Ok tt).

(** Modelled from the spec: the deletion, by the vector database engine, of
    every point whose payload matches the filter. *)
Definition client_delete_filter (filterUserId : jsstring) : M unit :=
  fun w =>
    ({| collection :=
          filter (fun kp => payloadUserId (payload kp.2) <> filterUserId)
            (collection w);
        embedCalls := embedCalls w; chatCalls := chatCalls w;
        uuidCalls := uuidCalls w; clockReads := clockReads w |}, Ok tt).

(** Modelled from the spec: the exact count, by the vector database
    engine, of the points whose payload matches the filter, or of all the
    points when there is no filter. *)
Definition client_count (filterUserId : option jsstring) : M nat :=
  fun w =>
    (w, Ok (match filterUserId with
            | Some u =>
                size (filter (fun kp => payloadUserId (payload kp.2) = u)
                        (collection w))
            | None => size (collection w)
            end)).

(** [deleteMemory(id)] *)
Definition deleteMemory (pointId : jsstring) : M unit :=
  client_delete_points [pointId].

(** [deleteUserMemories(userId)] *)
Definition deleteUserMemories (userId : jsstring) : M unit :=
  client_delete_filter userId.

(** [getCount(userId?)]: the filter is built when [userId] is truthy, that
    is neither left out nor the empty string. *)
Definition getCount (userId : option jsstring) : M nat :=
  let filter :=
    match userId with
    | Some (c :: u) => Some (c :: u)
    | _ => None
    end in
  client_count filter.

End VectorStore.

(** ** [memory-system.ts] *)

Module MemorySystem.

(** A number given in the configuration: an integer, or [NaN]. *)
Inductive ConfigNumber :=
  | Integer (n : Z)
  | NaN.

Record MemoryConfig := mkMemoryConfig {
  embeddingModel : option jsstring;
  chatModel : option jsstring;
  maxChunkTokens : option ConfigNumber;
  overlapTokens : option ConfigNumber;
  qdrantUrl : option jsstring
}.

(** [Required<MemoryConfig>] *)
Record Config := mkConfig {
  cfgEmbeddingModel : jsstring;
  cfgChatModel : jsstring;
  cfgMaxChunkTokens : Z;
  cfgOverlapTokens : Z;
  cfgQdrantUrl : jsstring
}.

(** [v || d] on an optional string: [undefined] and [''] are falsy. *)
Definition orString (v : option jsstring) (d : jsstring) : jsstring :=
  match v with
  | Some (c :: s) => c :: s
  | _ => d
  end.

(** [v || d] on an optional number: [undefined], [0] and [NaN] are
    falsy. *)
Definition orNumber (v : option ConfigNumber) (d : Z) : Z :=
  match v with
  | Some (Integer n) => if n =? 0 then d else n
  | Some NaN => d
  | None => d
  end.

(** The constructor of [MemorySystem]. *)
Definition construct (config : MemoryConfig) : Config :=
  {| cfgEmbeddingModel :=
       orString (embeddingModel config) (lit "nomic-embed-text");
     cfgChatModel := orString (chatModel config) (lit "llama3.2");
     cfgMaxChunkTokens := orNumber (maxChunkTokens config) 500;
     cfgOverlapTokens := orNumber (overlapTokens config) 50;
     cfgQdrantUrl :=
       orString (qdrantUrl config) (lit "http://localhost:6333") |}.

Record AddMemoryOptions := mkAddMemoryOptions {
  addUserId : jsstring;
  addContent : jsstring;
  addMetadata : option (gmap string jsval)
}.

Record SearchMemoryOptions := mkSearchMemoryOptions {
  searchUserId : jsstring;
  searchQuery : jsstring;
  searchLimit : option nat;
  searchScoreThreshold : option Q
}.

Record ChatOptions := mkChatOptions {
  chatUserId : jsstring;
  chatMessage : jsstring;
  systemPrompt : option jsstring;
  includeMemoryContext : option bool;
  maxContextMemories : option nat
}.

Record ChatResult := mkChatResult {
  response : jsstring;
  memoriesUsed : nat
}.

(** [{ ...target, ...source }]: the properties of [source] are copied over
    those of [target]. *)
Definition spread (target source : gmap string jsval) : gmap string jsval :=
  source ∪ target.

(** The object literal [extractMetadata] returns. *)
Definition metadataObject (m : Metadata) : gmap string jsval :=
  <["language" := JStr (language m)]>
  (<["hasEmail" := JBool (hasEmail m)]>
  (<["hasUrl" := JBool (hasUrl m)]>
  (<["charCount" := JNum (Z.of_nat (charCount m))]>
  (<["wordCount" := JNum (Z.of_nat (wordCount m))]> ∅)))).

(** [{ ...metadata, ...extractMetadata(chunk.text), chunkIndex: chunk.index,
       totalChunks: chunks.length }] *)
Definition chunkMetadata (metadata : gmap string jsval) (chunk : Chunk)
    (totalChunks : nat) : gmap string jsval :=
  <["totalChunks" := JNum (Z.of_nat totalChunks)]>
  (<["chunkIndex" := JNum (Z.of_nat (index chunk))]>
  (spread (spread ∅ metadata)
     (metadataObject (extractMetadata (text chunk))))).

Section Pipeline.

Variable env : Env.
Variable config : Config.

(** [randomUUID()] *)
Definition newUUID : M jsstring :=
  fun w =>
    ({| collection := collection w; embedCalls := embedCalls w;
        chatCalls := chatCalls w; uuidCalls := S (uuidCalls w);
        clockReads := clockReads w |},
     Ok (randomUUID env (uuidCalls w))).

(** [Date.now()] *)
Definition now : M Z :=
  fun w =>
    ({| collection := collection w; embedCalls := embedCalls w;
        chatCalls := chatCalls w; uuidCalls := uuidCalls w;
        clockReads := S (clockReads w) |},
     Ok (dateNow env (clockReads w))).

Definition embeddingFailure : Exn :=
  Error (lit "Failed to generate embedding. Is Ollama running with "
         ++ cfgEmbeddingModel config ++ lit " model?").

(** [generateEmbedding] *)
Definition generateEmbedding (text : jsstring) : M (list Q) :=
  fun w =>
    let w' :=
      {| collection := collection w; embedCalls := S (embedCalls w);
         chatCalls := chatCalls w; uuidCalls := uuidCalls w;
         clockReads := clockReads w |} in
    match
      ollama_embeddings env (embedCalls w) (cfgEmbeddingModel config) text
    with
    | Some embedding => (w', Ok embedding)
    | None => (w', Throw embeddingFailure)
    end.

(** The body of the [for (const chunk of chunks)] loop of [addMemory],
    for the chunks still to be processed. *)
Fixpoint addChunks (userId : jsstring) (metadata : gmap string jsval)
    (totalChunks : nat) (rest : list Chunk) (memoryIds : list jsstring)
    : M (list jsstring) :=
  match rest with
  | [] => ret memoryIds
  | chunk :: rest' =>
      let* pointId := newUUID in
      let* embedding := generateEmbedding (text chunk) in
      let chunkMeta := chunkMetadata metadata chunk totalChunks in
      let* stamp := now in
      let* _ :=
        VectorStore.addMemory pointId embedding
          {| payloadText := text chunk; payloadUserId := userId;
             payloadTimestamp := stamp; payloadMetadata := chunkMeta |} in
      addChunks userId metadata totalChunks rest' (memoryIds ++ [pointId])
  end.

(** [addMemory] *)
Definition addMemory (options : AddMemoryOptions) : M (list jsstring) :=
  let metadata := default ∅ (addMetadata options) in
  let normalized := normalizeText (addContent options) in
  let chunks :=
    chunkText normalized (Some (cfgMaxChunkTokens config))
      (Some (cfgOverlapTokens config)) in
  addChunks (addUserId options) metadata (length chunks) chunks [].

(** [searchMemories] *)
Definition searchMemories (options : SearchMemoryOptions)
    : M (list SearchResult) :=
  let limit := default 5%nat (searchLimit options) in
  let scoreThreshold := default (1 # 2)%Q (searchScoreThreshold options) in
  let* queryEmbedding := generateEmbedding (searchQuery options) in
  VectorStore.search env queryEmbedding (searchUserId options) (Some limit)
    (Some scoreThreshold).

Definition defaultSystemPrompt : jsstring :=
  lit "You are a helpful AI assistant with access to the user's memories.".

(** One entry of the context block, the template
    [[Memory ${i + 1}] (relevance: ${(m.score * 100).toFixed(1)}%)]
    followed by a newline and [m.text]. *)
Definition memoryLine (i : nat) (m : SearchResult) : jsstring :=
  lit "[Memory " ++ lit (pretty (S i)) ++ lit "] (relevance: "
  ++ percentToFixed1 env (score m) ++ lit "%)" ++ [LF] ++ resultText m.

Definition withMemoryContext (contextPrompt : jsstring)
    (memories : list SearchResult) : jsstring :=
  if (0 <? length memories)%nat then
    contextPrompt
    ++ [LF; LF] ++ lit "### Relevant memories from past conversations:" ++ [LF]
    ++ join [LF; LF] (imap memoryLine memories)
    ++ [LF; LF]
    ++ lit "### Use this context to provide a more personalized response."
  else contextPrompt.

Definition chatMessages (contextPrompt message : jsstring) : list Message :=
  [ {| role := lit "system"; content := contextPrompt |};
    {| role := lit "user"; content := message |} ].

(** [ollama.chat({ model, messages, stream: false })] *)
Definition ollamaChat (messages : list Message) : M jsstring :=
  fun w =>
    let w' :=
      {| collection := collection w; embedCalls := embedCalls w;
         chatCalls := S (chatCalls w); uuidCalls := uuidCalls w;
         clockReads := clockReads w |} in
    match ollama_chat env (chatCalls w) (cfgChatModel config) messages with
    | Some reply => (w', Ok reply)
    | None => (w', Throw OllamaFailure)
    end.

(** The options [chat] passes to [searchMemories]. *)
Definition contextSearch (options : ChatOptions) : SearchMemoryOptions :=
  {| searchUserId := chatUserId options;
     searchQuery := chatMessage options;
     searchLimit := Some (default 5%nat (maxContextMemories options));
     searchScoreThreshold := None |}.

(** [chat] *)
Definition chat (options : ChatOptions) : M ChatResult :=
  let systemPrompt := default defaultSystemPrompt (systemPrompt options) in
  let includeMemoryContext := default true (includeMemoryContext options) in
  let maxContextMemories := default 5%nat (maxContextMemories options) in
  let* contextPrompt :=
    if includeMemoryContext then
      let* memories := searchMemories (contextSearch options) in
      ret (withMemoryContext systemPrompt memories)
    else ret systemPrompt in
  let* reply := ollamaChat (chatMessages contextPrompt (chatMessage options)) in
  ret {| response := reply;
         memoriesUsed :=
           if includeMemoryContext then maxContextMemories else 0%nat |}.

End Pipeline.

(** [deleteMemory] *)
Definition deleteMemory (pointId : jsstring) : M unit :=
  VectorStore.deleteMemory pointId.

(** [deleteUserMemories] *)
Definition deleteUserMemories (userId : jsstring) : M unit :=
  VectorStore.deleteUserMemories userId.

(** [getMemoryCount] *)
Definition getMemoryCount (userId : option jsstring) : M nat :=
  VectorStore.getCount userId.

End MemorySystem.

Import MemorySystem.

(** ** Notions the specification uses to describe the results *)

Module Words.

(** Close the token being read, if one is open. *)
Definition push (cur : jsstring) (l : list jsstring) : list jsstring :=
  match cur with
  | [] => l
  | _ => cur :: l
  end.

(** The whitespace-delimited tokens of a text: its maximal runs of
    code units that are not blank, in order.  [cur] is the token being
    read. *)
Fixpoint tokens_from (cur : jsstring) (s : jsstring) : list jsstring :=
  match s with
  | [] => push cur []
  | c :: r =>
      if is_ws c then push cur (tokens_from [] r)
      else tokens_from (cur ++ [c]) r
  end.

Definition wsTokens (s : jsstring) : list jsstring := tokens_from [] s.

(** The blanks of [s] are single spaces, none of them next to another;
    [after_space] tells that the code unit before [s] was a space. *)
Fixpoint tidy (after_space : bool) (s : jsstring) : bool :=
  match s with
  | [] => true
  | c :: r =>
      if is_ws c then (c =? SPACE)%N && negb after_space && tidy true r
      else tidy false r
  end.

(** The first code unit of [s] is blank. *)
Definition starts_blank (s : jsstring) : bool :=
  match s with
  | c :: _ => is_ws c
  | [] => false
  end.

(** The last code unit of [s] is blank; [b] answers for the empty text. *)
Fixpoint ends_blank (b : bool) (s : jsstring) : bool :=
  match s with
  | [] => b
  | c :: r => ends_blank (is_ws c) r
  end.

(** Nothing was read yet: no piece is open and no run is being skipped. *)
Definition at_start (cur : jsstring) (b : bool) : bool :=
  match cur with
  | [] => negb b
  | _ => false
  end.

(** The text is empty or starts with a blank. *)
Definition blank_or_empty (s : jsstring) : bool :=
  match s with
  | [] => true
  | c :: _ => is_ws c
  end.

End Words.

Import Words.

(** ** The sentences behind each chunk *)

Module ChunkTrace.

(** Sum of the estimates of a list of sentences. *)
Definition tokensOf (l : list jsstring) : Z :=
  foldr (fun s acc => estimateTokenCount s + acc) 0 l.

(** The loop of [chunkText] with a record, kept beside the loop state, of
    the value [currentChunk] has each time a chunk is pushed. *)
Definition traceBody (maxTokens overlapTokens : Z)
    (tr : list (list jsstring) * Loop) (sentence : jsstring)
    : list (list jsstring) * Loop :=
  let '(gs, st) := tr in
  (if mustFlush maxTokens st (estimateTokenCount sentence)
   then gs ++ [currentChunk st] else gs,
   loopBody maxTokens overlapTokens st sentence).

Definition traceEnd (tr : list (list jsstring) * Loop)
    : list (list jsstring) :=
  let '(gs, st) := tr in
  if (0 <? length (currentChunk st))%nat then gs ++ [currentChunk st] else gs.

Definition sentenceGroups (maxTokens overlapTokens : Z)
    (sentences : list jsstring) : list (list jsstring) :=
  traceEnd (foldl (traceBody maxTokens overlapTokens) ([], loopInit) sentences).

(** The chunk pushed for the [i]-th list of sentences, with the token
    count summed over the sentences. *)
Definition chunkOf (i : nat) (g : list jsstring) : Chunk :=
  {| text := joinSentences g; index := i; tokenCount := tokensOf g |}.

(** [o] is the longest tail of [g] made of whole sentences whose estimates
    sum to at most [overlapTokens]. *)
Definition isOverlap (overlapTokens : Z) (g o : list jsstring) : Prop :=
  o `suffix_of` g
  /\ (o <> [] -> tokensOf o <= overlapTokens)
  /\ (forall s pre, g = pre ++ s :: o -> overlapTokens < tokensOf (s :: o))
  /\ (forall o', o' `suffix_of` g -> (length o < length o')%nat ->
        overlapTokens < tokensOf o').

(** [g'] starts with the overlap of [g], followed by new sentences. *)
Definition carries (overlapTokens : Z) (g g' : list jsstring) : Prop :=
  exists news, news <> [] /\ g' = (overlapOf overlapTokens g).1 ++ news.

(** What holds of the recorded sentence lists and the loop state after any
    number of iterations. *)
Record traceInv (overlapTokens : Z) (gs : list (list jsstring)) (st : Loop)
    : Prop := {
  inv_chunks : chunks st = imap chunkOf gs;
  inv_index : chunkIndex st = length gs;
  inv_count : currentTokenCount st = tokensOf (currentChunk st);
  inv_pairs : forall i g g',
    gs !! i = Some g -> gs !! S i = Some g' -> carries overlapTokens g g';
  inv_pending : forall g,
    last gs = Some g -> carries overlapTokens g (currentChunk st);
  inv_nonempty : Forall (fun g => g <> []) gs
}.

End ChunkTrace.

Import ChunkTrace.

(** ** Notions used to describe a run of the pipeline *)

Module PipelineNotions.

(** The point [addMemory] writes for a chunk. *)
Definition chunkPoint (userId : jsstring) (md : gmap string jsval)
    (totalChunks : nat) (chunk : Chunk) (embedding : list Q) (stamp : Z)
    : Point :=
  {| vector := embedding;
     payload :=
       {| payloadText := text chunk; payloadUserId := userId;
          payloadTimestamp := stamp;
          payloadMetadata := chunkMetadata md chunk totalChunks |} |}.

(** The world after a chunk was embedded and written. *)
Definition afterChunk (env : Env) (userId : jsstring)
    (md : gmap string jsval) (totalChunks : nat) (chunk : Chunk)
    (embedding : list Q) (w : World) : World :=
  {| collection :=
       <[randomUUID env (uuidCalls w) :=
           chunkPoint userId md totalChunks chunk embedding
             (dateNow env (clockReads w))]> (collection w);
     embedCalls := S (embedCalls w); chatCalls := chatCalls w;
     uuidCalls := S (uuidCalls w); clockReads := S (clockReads w) |}.

(** The identifiers drawn for the first [n] chunks. *)
Definition drawn (env : Env) (w : World) (n : nat) : list jsstring :=
  map (fun j => randomUUID env (uuidCalls w + j)) (seq 0 n).

(** The world after the chat model was called. *)
Definition afterChat (w : World) : World :=
  {| collection := collection w; embedCalls := embedCalls w;
     chatCalls := S (chatCalls w); uuidCalls := uuidCalls w;
     clockReads := clockReads w |}.

(** The keys the pipeline derives itself. *)
Definition derivedKeys : list string :=
  ["wordCount"; "charCount"; "hasUrl"; "hasEmail"; "language";
   "chunkIndex"; "totalChunks"].

End PipelineNotions.

Import PipelineNotions.

(** ** Inputs and collaborators for the examples *)

Module Fixtures.

Definition two_paragraphs : jsstring :=
  lit "First one." ++ [LF; LF] ++ lit "Second one.".

Definition three_sentences : jsstring :=
  lit "Alpha beta gamma. Delta epsilon. Zeta eta theta iota.".

(** A vector of the dimension of the collection whose first coordinate is
    [x]. *)
Definition probe (x : Q) : list Q := x :: replicate 767 0%Q.

(** Collaborators for the examples: the first [good] embedding calls
    succeed, the chat model answers, identifiers are numbered, the clock
    counts, a stored vector scores its first coordinate, and a score is
    printed as its whole percentage. *)
Definition testEnv (good : nat) : Env :=
  {| ollama_embeddings := fun n _ _ =>
       if (n <? good)%nat then Some (probe 1) else None;
     ollama_chat := fun _ _ _ => Some (lit "ok");
     randomUUID := fun n => lit (pretty n);
     dateNow := fun n => 1000 + Z.of_nat n;
     similarity := fun _ v => hd 0%Q v;
     percentToFixed1 := fun x =>
       lit (pretty (Qfloor (x * (100 # 1)))) ++ lit ".0" |}.

Definition testConfig : Config :=
  construct {| embeddingModel := None; chatModel := None;
               maxChunkTokens := Some (Integer 8);
               overlapTokens := Some (Integer 4);
               qdrantUrl := None |}.

Definition emptyWorld : World :=
  {| collection := ∅; embedCalls := 0; chatCalls := 0; uuidCalls := 0;
     clockReads := 0 |}.

Definition callerMetadata : gmap string jsval :=
  <["type" := JStr (lit "test")]> (<["wordCount" := JNum 99]> ∅).

Definition addThree : AddMemoryOptions :=
  {| addUserId := lit "alice"; addContent := three_sentences;
     addMetadata := Some callerMetadata |}.

Definition stored (userId words : string) (x : Q) (stamp : Z) : Point :=
  {| vector := probe x;
     payload := {| payloadText := lit words; payloadUserId := lit userId;
                   payloadTimestamp := stamp; payloadMetadata := ∅ |} |}.

(** Two memories of alice, one of them far from any query, and one of
    bob. *)
Definition storeWorld : World :=
  {| collection :=
       <[lit "p1" := stored "alice" "likes tea" (9 # 10) 5]>
       (<[lit "p2" := stored "alice" "likes rust" (1 # 10) 6]>
       (<[lit "p3" := stored "bob" "secret" (9 # 10) 7]> ∅));
     embedCalls := 0; chatCalls := 0; uuidCalls := 0; clockReads := 0 |}.

Definition searched : World :=
  {| collection := collection storeWorld;
     embedCalls := 1; chatCalls := 0; uuidCalls := 0; clockReads := 0 |}.

Definition teaHit : SearchResult :=
  {| id := lit "p1"; score := 9 # 10; resultText := lit "likes tea";
     timestamp := 5; metadata := ∅ |}.

Definition aliceSearch : SearchMemoryOptions :=
  {| searchUserId := lit "alice"; searchQuery := lit "tea";
     searchLimit := None; searchScoreThreshold := None |}.

Definition askAlice (context : option bool) : ChatOptions :=
  {| chatUserId := lit "alice"; chatMessage := lit "tea";
     systemPrompt := None; includeMemoryContext := context;
     maxContextMemories := Some 3%nat |}.

Definition askCarol : ChatOptions :=
  {| chatUserId := lit "carol"; chatMessage := lit "tea";
     systemPrompt := None; includeMemoryContext := None;
     maxContextMemories := None |}.

End Fixtures.

Import Fixtures.

(** ** What the chunks add to one another *)

Module ChunkCoverage.

(** The sentences each list of [gs] adds after the overlap it carries over
    from the list before it, [prev] being the list before the first. *)
Fixpoint freshParts (overlapTokens : Z) (prev : list jsstring)
    (gs : list (list jsstring)) : list jsstring :=
  match gs with
  | [] => []
  | g :: rest =>
      drop (length (overlapOf overlapTokens prev).1) g
      ++ freshParts overlapTokens g rest
  end.

(** The first list whole, then what every later list adds. *)
Definition withoutOverlaps (overlapTokens : Z) (gs : list (list jsstring))
    : list jsstring :=
  match gs with
  | [] => []
  | g :: rest => g ++ freshParts overlapTokens g rest
  end.

(** The sentences read so far are the recorded lists without their
    overlaps, followed by what the pending list adds. *)
Definition covers (overlapTokens : Z) (gs : list (list jsstring))
    (st : Loop) (seen : list jsstring) : Prop :=
  match last gs with
  | None => gs = [] /\ currentChunk st = seen
  | Some g =>
      exists news,
        currentChunk st = (overlapOf overlapTokens g).1 ++ news
        /\ withoutOverlaps overlapTokens gs ++ news = seen
  end.

(** [s] occurs in [t] as a block of consecutive code units. *)
Definition occursIn (s t : jsstring) : Prop :=
  exists pre post, t = pre ++ s ++ post.

End ChunkCoverage.

Import ChunkCoverage.

(** ** [copilot-server.ts]: the chat endpoint *)

Module CopilotServer.

(** [new MemorySystem()] *)
Definition serverConfig : Config :=
  construct {| embeddingModel := None; chatModel := None;
               maxChunkTokens := None; overlapTokens := None;
               qdrantUrl := None |}.

(** What [chatWithMemorySchema.parse(body)] returns: the three flags have
    their default filled in. *)
Record ChatWithMemory := mkChatWithMemory {
  reqUserId : jsstring;
  reqMessage : jsstring;
  autoRefine : bool;
  autoStore : bool;
  reqIncludeMemoryContext : bool;
  reqSystemPrompt : option jsstring;
  reqMetadata : option (gmap string jsval)
}.

(** The object the endpoint answers with. *)
Record ChatReply := mkChatReply {
  replyResponse : jsstring;
  replyMemoriesUsed : nat;
  replyMemories : list jsstring;
  replyStored : bool;
  replyRefined : bool
}.

(** What a handler sends: [c.json(body)], or [c.json({ error }, 500)] where
    [error] is the message of the exception caught. *)
Inductive Reply (A : Type) :=
  | Json (body : A)
  | ServerError (cause : Exn).

Arguments Json {A} body.
Arguments ServerError {A} cause.

(** [try { ... } catch (error) { ... }] *)
Definition tryCatch {A} (body : M A) (handler : Exn -> M A) : M A :=
  fun w =>
    match body w with
    | (w', Ok a) => (w', Ok a)
    | (w', Throw e) => handler e w'
    end.

(** The template [${i + 1}. ${m.text}]. *)
Definition contextLine (i : nat) (m : SearchResult) : jsstring :=
  lit (pretty (S i)) ++ lit ". " ++ resultText m.

(** The template of [context]. *)
Definition memoriesContext (searchResults : list SearchResult) : jsstring :=
  [LF; LF] ++ lit "Relevant context from your memories:" ++ [LF]
  ++ join [LF] (imap contextLine searchResults) ++ [LF].

(** The template of [finalMessage]. *)
Definition refinedMessage (searchResults : list SearchResult)
    (message : jsstring) : jsstring :=
  memoriesContext searchResults ++ [LF] ++ lit "User request: " ++ message.

Definition refineSearch (data : ChatWithMemory) : SearchMemoryOptions :=
  {| searchUserId := reqUserId data; searchQuery := reqMessage data;
     searchLimit := Some 5%nat; searchScoreThreshold := Some (3 # 10)%Q |}.

(** The template of [conversationContent]. *)
Definition conversationContent (message reply : jsstring) : jsstring :=
  lit "Q: " ++ message ++ [LF] ++ lit "A: " ++ reply.

(** [{ ...data.metadata, type: 'copilot-conversation',
       timestamp: Date.now(), memoriesUsed }] *)
Definition conversationMetadata (metadata : option (gmap string jsval))
    (stamp : Z) (memoriesUsed : nat) : gmap string jsval :=
  <["memoriesUsed" := JNum (Z.of_nat memoriesUsed)]>
  (<["timestamp" := JNum stamp]>
  (<["type" := JStr (lit "copilot-conversation")]>
  (spread ∅ (default ∅ metadata)))).

Section Handlers.

Variable env : Env.

(** Step 1 of the handler: [finalMessage], [memoriesUsed] and
    [memories]. *)
Definition refine (data : ChatWithMemory)
    : M (jsstring * nat * list jsstring) :=
  if autoRefine data && reqIncludeMemoryContext data then
    let* searchResults :=
      searchMemories env serverConfig (refineSearch data) in
    if (0 <? length searchResults)%nat then
      ret (refinedMessage searchResults (reqMessage data),
           length searchResults, map resultText searchResults)
    else ret (reqMessage data, 0%nat, [])
  else ret (reqMessage data, 0%nat, []).

(** Step 3 of the handler. *)
Definition store (data : ChatWithMemory) (reply : jsstring)
    (memoriesUsed : nat) : M unit :=
  if autoStore data then
    let* stamp := now env in
    let* _ :=
      addMemory env serverConfig
        {| addUserId := reqUserId data;
           addContent := conversationContent (reqMessage data) reply;
           addMetadata :=
             Some (conversationMetadata (reqMetadata data) stamp
                     memoriesUsed) |} in
    ret tt
  else ret tt.

(** The handler of [POST /api/copilot/chat], from the parsed body on. *)
Definition chatHandler (data : ChatWithMemory) : M (Reply ChatReply) :=
  tryCatch
    (let* refinedState := refine data in
     let finalMessage := refinedState.1.1 in
     let memoriesUsed := refinedState.1.2 in
     let memories := refinedState.2 in
     let* result :=
       chat env serverConfig
         {| chatUserId := reqUserId data; chatMessage := finalMessage;
            systemPrompt := reqSystemPrompt data;
            includeMemoryContext := Some false;
            maxContextMemories := None |} in
     let* _ := store data (response result) memoriesUsed in
     ret (Json {| replyResponse := response result;
                  replyMemoriesUsed := memoriesUsed;
                  replyMemories := memories;
                  replyStored := autoStore data;
                  replyRefined :=
                    autoRefine data && (0 <? memoriesUsed)%nat |}))
    (fun error => ret (ServerError error)).

End Handlers.

End CopilotServer.

Import CopilotServer.

(** ** Sequences of calls a client makes *)

Module Clients.

(** [deleteMemory] called on each id in turn. *)
Fixpoint deleteEach (ids : list jsstring) : M unit :=
  match ids with
  | [] => ret tt
  | pointId :: rest => let* _ := deleteMemory pointId in deleteEach rest
  end.

(** The points written under the given ids, one after the other. *)
Definition written (m : gmap jsstring Point)
    (kps : list (jsstring * Point)) : gmap jsstring Point :=
  foldl (fun acc kp => <[kp.1 := kp.2]> acc) m kps.

End Clients.

Import Clients.

(** ** More inputs for the examples *)

Module MoreFixtures.

(** [Array(20).fill('This is a test sentence').join('. ')], the text of
    the test "should create multiple chunks for long text with
    sentences". *)
Definition twenty_sentences : jsstring :=
  join (lit ". ") (replicate 20 (lit "This is a test sentence")).

Definition long_sentence : jsstring :=
  lit "  This single sentence is much longer than the cap  ".

(** A request of alice whose metadata has a [type] of its own. *)
Definition teaRequest (storing : bool) : ChatWithMemory :=
  {| reqUserId := lit "alice"; reqMessage := lit "tea";
     autoRefine := true; autoStore := storing;
     reqIncludeMemoryContext := true; reqSystemPrompt := None;
     reqMetadata := Some callerMetadata |}.

End MoreFixtures.

Import MoreFixtures.

(** ** The cases of [chunking.test.ts], run on the embedding *)

Module ChunkingTests.

Example normalize_trims :
  normalizeText (lit "  hello world  ") = lit "hello world".
Proof. reflexivity. Qed.

Example normalize_spaces :
  normalizeText (lit "hello    world") = lit "hello world".
Proof. reflexivity. Qed.

Example normalize_line_breaks :
  normalizeText (lit "hello" ++ [LF; LF; LF] ++ lit "world")
  = lit "hello world".
Proof. reflexivity. Qed.

Example normalize_empty : normalizeText [] = [].
Proof. reflexivity. Qed.

Example chunk_short :
  chunkText (lit "Short text") (Some 100) (Some 20)
  = [ {| text := lit "Short text."; index := 0; tokenCount := 3 |} ].
Proof. reflexivity. Qed.

Example chunk_empty : chunkText [] (Some 100) (Some 20) = [].
Proof. reflexivity. Qed.

Example metadata_url :
  hasUrl (extractMetadata (lit "Check out https://example.com for more info"))
  = true.
Proof. reflexivity. Qed.

Example metadata_email :
  hasEmail (extractMetadata (lit "Contact me at test@example.com")) = true.
Proof. reflexivity. Qed.

Example metadata_words :
  wordCount (extractMetadata (lit "one two three four five")) = 5%nat.
Proof. reflexivity. Qed.

Example metadata_plain :
  extractMetadata (lit "Just plain text")
  = {| wordCount := 3; charCount := 15; hasUrl := false; hasEmail := false;
       language := lit "en" |}.
Proof. reflexivity. Qed.

Example chunk_overlapping :
  chunkText
    (lit "The quick brown fox jumps over the lazy dog. "
     ++ lit "The dog was sleeping under a tree.")
    (Some 50) (Some 10)
  = [ {| text := lit "The quick brown fox jumps over the lazy dog. "
                 ++ lit "The dog was sleeping under a tree.";
         index := 0; tokenCount := 20 |} ].
Proof. reflexivity. Qed.

Example metadata_chars : charCount (extractMetadata (lit "hello")) = 5%nat.
Proof. reflexivity. Qed.

Example metadata_language :
  language (extractMetadata (lit "Some text")) = lit "en".
Proof. reflexivity. Qed.

End ChunkingTests.

(** ** Properties of the string primitives *)

Section StringLemmas.

Implicit Types (s t u : jsstring) (c : N) (b : bool).

Lemma dropWhile_idem {A} (p : A -> bool) (l : list A) :
  dropWhile p (dropWhile p l) = dropWhile p l.
Proof.
  induction l as [|x l IH]; simpl; [done|].
  destruct (p x) eqn:E; [done|]. simpl. by rewrite E.
Qed.

Lemma dropWhile_split {A} (p : A -> bool) (l : list A) :
  exists k, l = k ++ dropWhile p l /\ forallb p k = true.
Proof.
  induction l as [|x l (k & Hk & Hp)]; simpl.
  - by exists [].
  - destruct (p x) eqn:E.
    + exists (x :: k). simpl. rewrite E, Hp. split; [by f_equal|done].
    + by exists [].
Qed.

Lemma dropWhile_head {A} (p : A -> bool) (l : list A) x :
  head (dropWhile p l) = Some x -> p x = false.
Proof.
  induction l as [|y l IH]; simpl; [done|].
  destruct (p y) eqn:E; [done|]. simpl. by intros [= <-].
Qed.

Lemma forallb_reverse {A} (p : A -> bool) (l : list A) :
  forallb p (reverse l) = forallb p l.
Proof.
  induction l as [|x l IH]; [done|].
  rewrite reverse_cons, forallb_app, IH. simpl.
  destruct (p x), (forallb p l); done.
Qed.

(** [trimEnd] removes a blank tail and nothing else. *)
Lemma trimEnd_split s :
  exists k, s = trimEnd s ++ k /\ forallb is_ws k = true.
Proof.
  unfold trimEnd.
  destruct (dropWhile_split is_ws (reverse s)) as (k & Hk & Hp).
  exists (reverse k). split.
  - rewrite <- reverse_app, <- Hk. by rewrite reverse_involutive.
  - by rewrite forallb_reverse.
Qed.

Lemma trimStart_split s :
  exists k, s = k ++ trimStart s /\ forallb is_ws k = true.
Proof. apply dropWhile_split. Qed.

Lemma ends_blank_last b s :
  ends_blank b s = match last s with Some c => is_ws c | None => b end.
Proof.
  revert b. induction s as [|c s IH]; intros b; [done|].
  change (ends_blank b (c :: s)) with (ends_blank (is_ws c) s).
  rewrite IH. destruct s as [|d s]; [done|]. rewrite last_cons_cons.
  destruct (last (d :: s)) eqn:E; [done|]. by apply last_None in E.
Qed.

Lemma ends_blank_app b s c : ends_blank b (s ++ [c]) = is_ws c.
Proof. rewrite ends_blank_last, last_snoc. done. Qed.

Lemma trimEnd_ends s : ends_blank false (trimEnd s) = false.
Proof.
  rewrite ends_blank_last. unfold trimEnd. rewrite last_reverse.
  destruct (head (dropWhile is_ws (reverse s))) eqn:E; [|done].
  by apply dropWhile_head in E.
Qed.

Lemma trimStart_starts s : starts_blank (trimStart s) = false.
Proof.
  unfold starts_blank, trimStart.
  destruct (dropWhile is_ws s) eqn:E; [done|].
  apply (dropWhile_head is_ws s). by rewrite E.
Qed.

Lemma starts_blank_prefix s k :
  starts_blank (s ++ k) = false -> starts_blank s = false.
Proof. destruct s; done. Qed.

Lemma trim_starts s : starts_blank (trim s) = false.
Proof.
  unfold trim. destruct (trimEnd_split (trimStart s)) as (k & Hk & _).
  apply starts_blank_prefix with k. rewrite <- Hk. apply trimStart_starts.
Qed.

Lemma trim_ends s : ends_blank false (trim s) = false.
Proof. apply trimEnd_ends. Qed.

Lemma trimStart_id s : starts_blank s = false -> trimStart s = s.
Proof.
  destruct s as [|c s]; simpl; [done|]. unfold trimStart. simpl.
  by intros ->.
Qed.

Lemma trimEnd_id s : ends_blank false s = false -> trimEnd s = s.
Proof.
  intros H. unfold trimEnd. rewrite ends_blank_last in H.
  rewrite <- (reverse_involutive s) at 2. f_equal.
  rewrite <- (reverse_involutive s), last_reverse in H.
  destruct (reverse s) as [|c r]; simpl in *; [done|]. by rewrite H.
Qed.

Lemma trim_id s :
  starts_blank s = false -> ends_blank false s = false -> trim s = s.
Proof.
  intros H1 H2. unfold trim. rewrite (trimStart_id _ H1). by apply trimEnd_id.
Qed.

Lemma trim_idem s : trim (trim s) = trim s.
Proof. apply trim_id; [apply trim_starts | apply trim_ends]. Qed.

End StringLemmas.

(** ** [normalizeText] *)

Section NormalizeLemmas.

Implicit Types (s t u v : jsstring) (c : N) (b : bool).

Lemma tidy_replace b t : tidy b (replace_runs is_ws [SPACE] b t) = true.
Proof.
  revert b. induction t as [|c t IH]; intros b; simpl; [done|].
  destruct (is_ws c) eqn:E.
  - destruct b; [apply IH|]. simpl. by rewrite IH.
  - simpl. rewrite E. apply IH.
Qed.

Lemma tidy_cons_blank b c u :
  is_ws c = true -> tidy b (c :: u) = true ->
  c = SPACE /\ b = false /\ tidy true u = true.
Proof.
  simpl. intros ->. intros [[H1 H2]%andb_true_iff H3]%andb_true_iff.
  apply N.eqb_eq in H1. destruct b; done.
Qed.

Lemma tidy_cons_other b c u :
  is_ws c = false -> tidy b (c :: u) = tidy false u.
Proof. simpl. by intros ->. Qed.

(** A tidy text is left alone by both replacements. *)
Lemma replace_tidy b u :
  tidy b u = true -> replace_runs is_ws [SPACE] b u = u.
Proof.
  revert b. induction u as [|c u IH]; intros b H; [done|].
  destruct (is_ws c) eqn:E.
  - destruct (tidy_cons_blank _ _ _ E H) as (-> & -> & H').
    simpl. by rewrite (IH true H').
  - rewrite (tidy_cons_other _ _ _ E) in H. simpl. rewrite E.
    by rewrite (IH false H).
Qed.

Lemma replace_newline_tidy b b' u :
  tidy b u = true -> replace_runs is_newline [LF] b' u = u.
Proof.
  revert b b'. induction u as [|c u IH]; intros b b' H; [done|].
  destruct (is_ws c) eqn:E.
  - destruct (tidy_cons_blank _ _ _ E H) as (-> & -> & H').
    simpl. by rewrite (IH true false H').
  - rewrite (tidy_cons_other _ _ _ E) in H. simpl.
    destruct (is_newline c) eqn:En.
    + unfold is_newline in En. apply N.eqb_eq in En. by subst c.
    + by rewrite (IH false false H).
Qed.

Lemma tidy_weaken b u : tidy b u = true -> tidy false u = true.
Proof.
  destruct u as [|c u]; [done|]. destruct (is_ws c) eqn:E.
  - intros H. by destruct (tidy_cons_blank _ _ _ E H) as (_ & -> & _).
  - by rewrite !(tidy_cons_other _ _ _ E).
Qed.

Lemma tidy_trimStart b b' u : tidy b u = true -> tidy b' (trimStart u) = true.
Proof.
  revert b. induction u as [|c u IH]; intros b H; [done|].
  unfold trimStart. simpl. destruct (is_ws c) eqn:E.
  - destruct (tidy_cons_blank _ _ _ E H) as (_ & _ & H'). by apply (IH true).
  - rewrite (tidy_cons_other _ _ _ E) in H.
    by rewrite (tidy_cons_other _ _ _ E).
Qed.

Lemma tidy_prefix b x y : tidy b (x ++ y) = true -> tidy b x = true.
Proof.
  revert b. induction x as [|c x IH]; intros b H; [done|].
  rewrite <- app_comm_cons in H. destruct (is_ws c) eqn:E.
  - destruct (tidy_cons_blank _ _ _ E H) as (-> & -> & H').
    simpl. by apply (IH true).
  - rewrite (tidy_cons_other _ _ _ E) in H. rewrite (tidy_cons_other _ _ _ E).
    by apply IH.
Qed.

Lemma tidy_trim b b' u : tidy b u = true -> tidy b' (trim u) = true.
Proof.
  intros H. unfold trim.
  destruct (trimEnd_split (trimStart u)) as (k & Hk & _).
  apply tidy_prefix with k. rewrite <- Hk. by apply tidy_trimStart with b.
Qed.

(** After the first replacement no newline is left, so the second one
    finds nothing to replace. *)
Lemma normalizeText_unfold t :
  normalizeText t = trim (replace_runs is_ws [SPACE] false t).
Proof.
  unfold normalizeText, replace_all.
  by rewrite (replace_newline_tidy false false _ (tidy_replace false t)).
Qed.

Lemma normalizeText_tidy t : tidy false (normalizeText t) = true.
Proof.
  rewrite normalizeText_unfold. apply tidy_trim with false, tidy_replace.
Qed.

Lemma normalizeText_starts t : starts_blank (normalizeText t) = false.
Proof. rewrite normalizeText_unfold. apply trim_starts. Qed.

Lemma normalizeText_ends t : ends_blank false (normalizeText t) = false.
Proof. rewrite normalizeText_unfold. apply trim_ends. Qed.

Lemma normalizeText_fixed u :
  tidy false u = true -> starts_blank u = false -> ends_blank false u = false ->
  normalizeText u = u.
Proof.
  intros H1 H2 H3. rewrite normalizeText_unfold, (replace_tidy _ _ H1).
  by apply trim_id.
Qed.

(** *** Tokens *)

Lemma tokens_replace b cur t :
  (b = true -> cur = []) ->
  tokens_from cur (replace_runs is_ws [SPACE] b t) = tokens_from cur t.
Proof.
  revert b cur. induction t as [|c t IH]; intros b cur Hb; simpl; [done|].
  destruct (is_ws c) eqn:E.
  - destruct b.
    + rewrite (Hb eq_refl). simpl. by apply IH.
    + simpl. by rewrite IH.
  - simpl. rewrite E. by apply IH.
Qed.

Lemma tokens_blank cur k :
  forallb is_ws k = true -> tokens_from cur k = push cur [].
Proof.
  revert cur. induction k as [|c k IH]; intros cur H; simpl in *; [done|].
  apply andb_true_iff in H as [-> H]. by rewrite (IH [] H).
Qed.

Lemma tokens_blank_tail cur x k :
  forallb is_ws k = true -> tokens_from cur (x ++ k) = tokens_from cur x.
Proof.
  intros H. revert cur. induction x as [|c x IH]; intros cur; simpl.
  - rewrite (tokens_blank _ _ H). by destruct cur.
  - destruct (is_ws c); by rewrite IH.
Qed.

Lemma tokens_blank_head k x :
  forallb is_ws k = true -> tokens_from [] (k ++ x) = tokens_from [] x.
Proof.
  induction k as [|c k IH]; intros H; simpl in *; [done|].
  apply andb_true_iff in H as [-> H]. simpl. by apply IH.
Qed.

Lemma wsTokens_trim u : wsTokens (trim u) = wsTokens u.
Proof.
  unfold wsTokens, trim.
  destruct (trimStart_split u) as (k1 & H1 & P1).
  destruct (trimEnd_split (trimStart u)) as (k2 & H2 & P2).
  pose proof (tokens_blank_tail [] (trimEnd (trimStart u)) _ P2) as T2.
  rewrite <- H2 in T2.
  pose proof (tokens_blank_head _ (trimStart u) P1) as T1. rewrite <- H1 in T1.
  congruence.
Qed.

Lemma wsTokens_normalizeText t : wsTokens (normalizeText t) = wsTokens t.
Proof.
  rewrite normalizeText_unfold, wsTokens_trim. by apply tokens_replace.
Qed.

Lemma join_cons sep x (l : list jsstring) :
  l <> [] -> join sep (x :: l) = x ++ sep ++ join sep l.
Proof. by destruct l. Qed.

Lemma join_app sep (l1 l2 : list jsstring) :
  l1 <> [] -> l2 <> [] ->
  join sep (l1 ++ l2) = join sep l1 ++ sep ++ join sep l2.
Proof.
  intros H1 H2. induction l1 as [|x l1 IH]; [done|].
  destruct l1 as [|y l1].
  - simpl. by destruct l2.
  - rewrite <- app_comm_cons, join_cons by done.
    rewrite IH by done. rewrite (join_cons sep x (y :: l1)) by done.
    by rewrite <- !app_assoc.
Qed.

Lemma ends_blank_nonempty b b' u : u <> [] -> ends_blank b u = ends_blank b' u.
Proof. by destruct u. Qed.

(** A text that is tidy and trimmed is its tokens joined by spaces. *)
Lemma join_tokens cur v :
  tidy false v = true -> ends_blank false v = false ->
  (cur = [] -> starts_blank v = false) ->
  join [SPACE] (tokens_from cur v) = cur ++ v.
Proof.
  revert cur. induction v as [|c v IH]; intros cur Ht He Hs.
  - simpl. rewrite app_nil_r. by destruct cur.
  - destruct (is_ws c) eqn:E.
    + destruct (tidy_cons_blank _ _ _ E Ht) as (-> & _ & Ht').
      assert (cur <> []) as Hc.
      { intros ->. specialize (Hs eq_refl). simpl in Hs. congruence. }
      assert (v <> []) as Hv by (intros ->; simpl in He; congruence).
      assert (join [SPACE] (tokens_from [] v) = v) as Hj.
      { rewrite IH; [done|by apply tidy_weaken with true| |].
        - simpl in He. by rewrite (ends_blank_nonempty _ true).
        - intros _. destruct v as [|d v]; [done|]. simpl in *.
          destruct (is_ws d); [|done]. by rewrite andb_false_r in Ht'. }
      simpl. replace (push cur (tokens_from [] v))
        with (cur :: tokens_from [] v) by (by destruct cur).
      rewrite join_cons; [by rewrite Hj|].
      intros Hn. rewrite Hn in Hj. simpl in Hj. congruence.
    + rewrite (tidy_cons_other _ _ _ E) in Ht. simpl in He. rewrite E in He.
      simpl. rewrite E. rewrite IH; [by rewrite <- app_assoc|done|done|].
      intros [_ ?]%app_eq_nil. done.
Qed.

Lemma normalizeText_tokens t : normalizeText t = join [SPACE] (wsTokens t).
Proof.
  rewrite <- (wsTokens_normalizeText t). unfold wsTokens.
  rewrite join_tokens;
    [done | apply normalizeText_tidy | apply normalizeText_ends |].
  intros _. apply normalizeText_starts.
Qed.

Lemma tokens_app_blank cur (x k y : jsstring) :
  k <> [] -> forallb is_ws k = true ->
  tokens_from cur (x ++ k ++ y) = tokens_from cur x ++ tokens_from [] y.
Proof.
  intros Hk Hb. revert cur. induction x as [|c x IH]; intros cur; simpl.
  - destruct k as [|d k]; [done|]. simpl in *.
    apply andb_true_iff in Hb as [-> Hb]. rewrite (tokens_blank_head _ _ Hb).
    by destruct cur.
  - destruct (is_ws c); rewrite IH; by destruct cur.
Qed.

End NormalizeLemmas.

(** Every token is a non-empty word without a blank in it. *)
Lemma tokens_from_words cur s :
  forallb (fun c => negb (is_ws c)) cur = true ->
  Forall (fun w => w <> [] /\ forallb (fun c => negb (is_ws c)) w = true)
    (tokens_from cur s).
Proof.
  revert cur. induction s as [|c s IH]; intros cur H; simpl.
  - destruct cur; [constructor|]. by repeat constructor.
  - destruct (is_ws c) eqn:E.
    + destruct cur; simpl; [by apply IH|]. constructor; [done|by apply IH].
    + apply IH. rewrite forallb_app, H. simpl. by rewrite E.
Qed.

(** ** C1: what [normalizeText] does to runs of blanks *)

(** C1, as stated, fails: two sentences separated by two newlines are not
    normalised to the sentences separated by one newline; the newlines are
    already gone when the second replacement runs. *)
Lemma normalizeText_newline_counterexample :
  normalizeText two_paragraphs = lit "First one. Second one."
  /\ normalizeText two_paragraphs
     <> lit "First one." ++ [LF] ++ lit "Second one.".
Proof. split; [reflexivity | discriminate]. Qed.

(** C1 (amended): [normalizeText] returns the whitespace-delimited tokens
    of its input joined by single spaces, so every run of blanks, newlines
    included, between two tokens becomes one space and the blanks at both
    ends are removed; in particular two texts separated by a run of
    newlines are normalised to their normal forms separated by exactly one
    space. *)
Theorem normalizeText_collapses_blank_runs :
  (forall t, normalizeText t = join [SPACE] (wsTokens t))
  /\ (forall a k b,
        k <> [] -> forallb is_ws k = true ->
        normalizeText a <> [] -> normalizeText b <> [] ->
        normalizeText (a ++ k ++ b)
        = normalizeText a ++ [SPACE] ++ normalizeText b)
  /\ (forall t, starts_blank (normalizeText t) = false
                /\ ends_blank false (normalizeText t) = false).
Proof.
  split; [apply normalizeText_tokens|]. split.
  - intros a k b Hk Hb Ha Hb'. rewrite !normalizeText_tokens in *.
    unfold wsTokens in *. rewrite (tokens_app_blank _ _ _ _ Hk Hb).
    apply join_app; intros E; rewrite E in *; done.
  - intros t. split; [apply normalizeText_starts | apply normalizeText_ends].
Qed.

Lemma normalizeText_collapses_blank_runs_witness :
  [LF; LF] <> [] /\ forallb is_ws [LF; LF] = true
  /\ normalizeText (lit "First one.") <> []
  /\ normalizeText (lit "Second one.") <> []
  /\ normalizeText (lit "First one." ++ [LF; LF] ++ lit "Second one.")
     = normalizeText (lit "First one.") ++ [SPACE]
       ++ normalizeText (lit "Second one.").
Proof.
  assert ([LF; LF] <> []) as H1 by discriminate.
  assert (forallb is_ws [LF; LF] = true) as H2 by reflexivity.
  assert (normalizeText (lit "First one.") <> []) as H3 by discriminate.
  assert (normalizeText (lit "Second one.") <> []) as H4 by discriminate.
  exact (conj H1 (conj H2 (conj H3 (conj H4
    (proj1 (proj2 normalizeText_collapses_blank_runs) _ _ _ H1 H2 H3 H4))))).
Defined.

(** ** C9: [normalizeText] is total and idempotent *)

(** C9: for every string [x], [normalizeText x] is defined and normalising
    it once more changes nothing. *)
Theorem normalizeText_idempotent :
  forall x,
    (exists y, normalizeText x = y)
    /\ normalizeText (normalizeText x) = normalizeText x.
Proof.
  intros x. split; [by eexists|].
  apply normalizeText_fixed;
    [apply normalizeText_tidy | apply normalizeText_starts
    | apply normalizeText_ends].
Qed.

(** ** C8: [extractMetadata] counts pieces, not words *)

Section SplitLemmas.

Lemma split_runs_length cur b s :
  (b = true -> cur = []) ->
  length (split_runs is_ws cur b s)
  = (length (tokens_from cur s)
     + Nat.b2n (at_start cur b && blank_or_empty s)
     + Nat.b2n (ends_blank b s))%nat.
Proof.
  revert cur b. induction s as [|c s IH]; intros cur b Hb.
  - simpl. destruct cur as [|d cur]; simpl.
    + by destruct b.
    + destruct b; [by specialize (Hb eq_refl)|done].
  - simpl. destruct (is_ws c) eqn:E.
    + destruct b.
      * rewrite (Hb eq_refl). simpl. rewrite (IH [] true) by done.
        simpl. lia.
      * simpl. rewrite (IH [] true) by done. simpl.
        destruct cur; simpl; lia.
    + rewrite (IH (cur ++ [c]) false) by done.
      replace (at_start (cur ++ [c]) false) with false by (by destruct cur).
      rewrite andb_false_r. simpl. lia.
Qed.

End SplitLemmas.

(** C8: [wordCount] is not the number of whitespace-delimited tokens where
    [split] yields empty pieces: the empty string has no token, and its
    [wordCount] is 1, not 0; the text [' a '] has one token, and its
    [wordCount] is 3. *)
Lemma extractMetadata_wordCount_counterexample :
  wordCount (extractMetadata []) <> 0%nat
  /\ wsTokens (lit " a ") = [lit "a"]
  /\ wordCount (extractMetadata (lit " a ")) = 3%nat.
Proof. split; [discriminate | split; reflexivity]. Qed.

(** What [extractMetadata] counts: [charCount] is the length of the text;
    [wordCount] is the number of pieces [text.split(/\s+/)] yields, that is
    the number of whitespace-delimited tokens, plus one when the text
    starts with a blank, plus one when it ends with a blank, plus one when
    it is empty. *)
Theorem extractMetadata_counts :
  forall t,
    charCount (extractMetadata t) = length t
    /\ wordCount (extractMetadata t)
       = (length (wsTokens t)
          + (if starts_blank t then 1 else 0)
          + (if ends_blank false t then 1 else 0)
          + (match t with [] => 1 | _ => 0 end))%nat.
Proof.
  intros t. split; [done|]. simpl. unfold split, wsTokens.
  rewrite split_runs_length by done. destruct t as [|c t]; simpl; [done|].
  destruct (is_ws c), (ends_blank _ t); simpl; lia.
Qed.

(** ** The chunker *)

Section ChunkLemmas.

Variables maxTokens overlapTokens : Z.

Implicit Types (g o : list jsstring) (gs : list (list jsstring)) (st : Loop).

Lemma estimateTokenCount_nonneg (s : jsstring) : 0 <= estimateTokenCount s.
Proof. unfold estimateTokenCount. apply Z.div_pos; lia. Qed.

(** [estimateTokenCount] is the ceiling of a quarter of the length. *)
Lemma estimateTokenCount_ceil (s : jsstring) :
  4 * (estimateTokenCount s - 1) < Z.of_nat (length s)
  <= 4 * estimateTokenCount s.
Proof.
  unfold estimateTokenCount.
  pose proof (Z.div_mod (Z.of_nat (length s) + 3) 4 ltac:(lia)).
  pose proof (Z.mod_pos_bound (Z.of_nat (length s) + 3) 4 ltac:(lia)).
  lia.
Qed.

Lemma tokensOf_app g1 g2 : tokensOf (g1 ++ g2) = tokensOf g1 + tokensOf g2.
Proof. induction g1 as [|s g1 IH]; simpl; [done|]. rewrite IH. lia. Qed.

Lemma tokensOf_nonneg g : 0 <= tokensOf g.
Proof.
  induction g as [|s g IH]; simpl; [done|].
  pose proof (estimateTokenCount_nonneg s). lia.
Qed.

Lemma overlapWalk_spec rest acc cnt o n :
  overlapWalk overlapTokens rest acc cnt = (o, n) ->
  cnt = tokensOf acc ->
  exists taken remaining,
    rest = taken ++ remaining /\ o = reverse taken ++ acc /\ n = tokensOf o
    /\ (taken <> [] -> n <= overlapTokens)
    /\ (forall s r, remaining = s :: r ->
          overlapTokens < n + estimateTokenCount s).
Proof.
  revert acc cnt. induction rest as [|s rest IH]; intros acc cnt H Hc.
  - simpl in H. injection H as <- <-. exists [], []. by repeat split.
  - simpl in H. destruct (cnt + estimateTokenCount s <=? overlapTokens) eqn:E.
    + apply IH in H as (taken & remaining & -> & -> & -> & Hle & Hstop);
        [|simpl; lia].
      exists (s :: taken), remaining. rewrite reverse_cons, <- app_assoc.
      repeat split; [|done]. intros _. destruct taken as [|t taken].
      * simpl. apply Z.leb_le in E. lia.
      * by apply Hle.
    + injection H as <- <-. exists [], (s :: rest). repeat split; [done..|].
      intros s' r [= <- <-]. apply Z.leb_gt in E. lia.
Qed.

Lemma overlapOf_isOverlap g :
  isOverlap overlapTokens g (overlapOf overlapTokens g).1
  /\ (overlapOf overlapTokens g).2 = tokensOf (overlapOf overlapTokens g).1.
Proof.
  unfold overlapOf.
  destruct (overlapWalk overlapTokens (reverse g) [] 0) as [o n] eqn:E.
  apply overlapWalk_spec in E
    as (taken & remaining & Hg & -> & -> & Hle & Hstop); [|done].
  simpl. rewrite app_nil_r in *.
  assert (g = reverse remaining ++ reverse taken) as Hg'.
  { by rewrite <- reverse_app, <- Hg, reverse_involutive. }
  assert (forall s pre, g = pre ++ s :: reverse taken ->
            overlapTokens < tokensOf (s :: reverse taken)) as Hnext.
  { intros s pre Hp. rewrite Hg' in Hp.
    replace (pre ++ s :: reverse taken) with ((pre ++ [s]) ++ reverse taken)
      in Hp by (by rewrite <- app_assoc).
    apply app_inv_tail in Hp.
    apply (f_equal reverse) in Hp.
    rewrite reverse_involutive, reverse_app in Hp. simpl in Hp.
    specialize (Hstop _ _ Hp). simpl. lia. }
  split; [|done]. repeat split.
  - by exists (reverse remaining).
  - intros Hn. apply Hle. intros ->. by apply Hn.
  - exact Hnext.
  - intros o' [k' Hk'] Hlen.
    assert (reverse taken `suffix_of` o') as [k Hk].
    { destruct (suffix_weak_total o' (reverse taken) g) as [[k Hk]|H];
        [by exists k'|by exists (reverse remaining)| |done].
      rewrite Hk, length_app in Hlen. lia. }
    destruct (decide (k = [])) as [->|Hne]; [subst o'; simpl in Hlen; lia|].
    destruct (exists_last Hne) as (pre & s & ->). subst o'.
    rewrite <- app_assoc, tokensOf_app. simpl.
    pose proof (tokensOf_nonneg pre).
    assert (overlapTokens < tokensOf (s :: reverse taken)); [|simpl in *; lia].
    apply (Hnext s (k' ++ pre)). rewrite Hk'. by rewrite <- !app_assoc.
Qed.

Lemma traceInv_init : traceInv overlapTokens [] loopInit.
Proof. by split. Qed.

Lemma pairs_snoc gs g' :
  (forall i g g1,
     gs !! i = Some g -> gs !! S i = Some g1 -> carries overlapTokens g g1) ->
  (forall g, last gs = Some g -> carries overlapTokens g g') ->
  forall i g g1,
    (gs ++ [g']) !! i = Some g -> (gs ++ [g']) !! S i = Some g1 ->
    carries overlapTokens g g1.
Proof.
  intros Hp Hl i g g1 H1 H2.
  apply lookup_app_Some in H2 as [H2|[Hlen H2]].
  - rewrite lookup_app_l in H1 by (apply lookup_lt_Some in H2; lia).
    by apply (Hp i).
  - apply list_lookup_singleton_Some in H2 as [Hi <-].
    assert (S i = length gs) as Hi' by lia.
    rewrite lookup_app_l in H1 by lia.
    apply Hl. rewrite last_lookup. rewrite <- Hi'. done.
Qed.

Lemma traceInv_step gs st sentence :
  traceInv overlapTokens gs st ->
  traceInv overlapTokens
    (traceBody maxTokens overlapTokens (gs, st) sentence).1
    (traceBody maxTokens overlapTokens (gs, st) sentence).2.
Proof.
  intros [Hc Hi Hn Hp Hl Hne]. unfold traceBody, loopBody. simpl.
  destruct (mustFlush maxTokens st (estimateTokenCount sentence)) eqn:E.
  - unfold flush.
    destruct (overlapOf_isOverlap (currentChunk st)) as [_ Hcount].
    destruct (overlapOf overlapTokens (currentChunk st)) as [o n] eqn:Eo.
    simpl in *. subst n. split; simpl.
    + rewrite imap_app, Hc. simpl. unfold chunkOf. rewrite Nat.add_0_r.
      by rewrite Hi, Hn.
    + rewrite length_app, Hi. simpl. lia.
    + rewrite tokensOf_app. simpl. lia.
    + by apply pairs_snoc.
    + intros g. rewrite last_snoc. intros [= <-].
      exists [sentence]. by rewrite Eo.
    + apply Forall_app. split; [done|]. constructor; [|done].
      unfold mustFlush in E. apply andb_true_iff in E as [_ E].
      apply Nat.ltb_lt in E. intros Hx. rewrite Hx in E. simpl in E. lia.
  - split; simpl; try done.
    + rewrite tokensOf_app. simpl. lia.
    + intros g Hg. destruct (Hl g Hg) as (news & Hnews & ->).
      exists (news ++ [sentence]). split; [by destruct news|].
      by rewrite app_assoc.
Qed.

Lemma traceInv_fold sentences gs st :
  traceInv overlapTokens gs st ->
  traceInv overlapTokens
    (foldl (traceBody maxTokens overlapTokens) (gs, st) sentences).1
    (foldl (traceBody maxTokens overlapTokens) (gs, st) sentences).2.
Proof.
  revert gs st. induction sentences as [|s l IH]; intros gs st H; [done|].
  cbn [foldl]. pose proof (traceInv_step gs st s H) as H'.
  destruct (traceBody maxTokens overlapTokens (gs, st) s) as [gs' st'].
  by apply IH.
Qed.

Lemma trace_loop sentences gs st :
  (foldl (traceBody maxTokens overlapTokens) (gs, st) sentences).2
  = foldl (loopBody maxTokens overlapTokens) st sentences.
Proof.
  revert gs st. induction sentences as [|s l IH]; intros gs st; [done|].
  simpl. apply IH.
Qed.

(** The chunks returned are the recorded sentence lists, each joined,
    numbered from 0 and counted sentence by sentence. *)
Lemma chunkSentences_groups sentences :
  chunkSentences maxTokens overlapTokens sentences
  = imap chunkOf (sentenceGroups maxTokens overlapTokens sentences).
Proof.
  unfold chunkSentences, sentenceGroups. rewrite <- (trace_loop _ []).
  pose proof (traceInv_fold sentences [] loopInit traceInv_init) as H.
  destruct (foldl (traceBody maxTokens overlapTokens) ([], loopInit) sentences)
    as [gs st].
  destruct H as [Hc Hi Hn _ _ _]. simpl in *. unfold lastChunk.
  destruct (0 <? length (currentChunk st))%nat; [|done].
  rewrite imap_app, Hc. simpl. unfold chunkOf.
  by rewrite Nat.add_0_r, Hi, Hn.
Qed.

Lemma sentenceGroups_pairs sentences i g g' :
  sentenceGroups maxTokens overlapTokens sentences !! i = Some g ->
  sentenceGroups maxTokens overlapTokens sentences !! S i = Some g' ->
  carries overlapTokens g g'.
Proof.
  unfold sentenceGroups.
  pose proof (traceInv_fold sentences [] loopInit traceInv_init) as H.
  destruct (foldl (traceBody maxTokens overlapTokens) ([], loopInit) sentences)
    as [gs st].
  destruct H as [_ _ _ Hp Hl _]. simpl in *.
  destruct (0 <? length (currentChunk st))%nat; [|by apply Hp].
  by apply pairs_snoc.
Qed.

(** Only sentences of the input enter a chunk. *)
Lemma trace_members (P : jsstring -> Prop) sentences gs st :
  Forall (Forall P) gs -> Forall P (currentChunk st) -> Forall P sentences ->
  Forall (Forall P)
    (foldl (traceBody maxTokens overlapTokens) (gs, st) sentences).1
  /\ Forall P (currentChunk
       (foldl (traceBody maxTokens overlapTokens) (gs, st) sentences).2).
Proof.
  revert gs st. induction sentences as [|s l IH]; intros gs st Hg Hc Hs;
    [done|].
  apply Forall_cons in Hs as [Hs Hl]. cbn [foldl]. unfold traceBody at 2 4.
  apply IH; [| |done].
  - destruct (mustFlush _ _ _); [|done]. apply Forall_app.
    split; [done|by constructor].
  - unfold loopBody. simpl. apply Forall_app. split; [|by constructor].
    destruct (mustFlush _ _ _); [|done]. unfold flush.
    destruct (overlapOf_isOverlap (currentChunk st)) as [[[k Hk] _] _].
    destruct (overlapOf overlapTokens (currentChunk st)) as [o n]. simpl in *.
    rewrite Hk in Hc. by apply Forall_app in Hc as [_ Hc].
Qed.

Lemma sentenceGroups_members (P : jsstring -> Prop) sentences :
  Forall P sentences ->
  Forall (Forall P) (sentenceGroups maxTokens overlapTokens sentences).
Proof.
  intros H. unfold sentenceGroups.
  destruct (trace_members P sentences [] loopInit) as [H1 H2]; [done..|].
  destruct (foldl (traceBody maxTokens overlapTokens) ([], loopInit) sentences)
    as [gs st].
  simpl in *. destruct (0 <? length (currentChunk st))%nat; [|done].
  apply Forall_app. split; [done|by constructor].
Qed.

End ChunkLemmas.

(** ** C3: the reported token count *)

(** C3: every chunk [chunkText] returns is the join of the sentences
    accumulated into it (overlap included), carries its position as index,
    and reports as [tokenCount] the sum of [ceil(length/4)] over these
    sentences; the joined text is not measured again, as the chunk of
    ["abcd"] shows, whose text ["abcd."] would count 2. *)
Theorem chunk_tokenCount_sums_sentences :
  (forall input maxTokens overlapTokens,
     chunkText input maxTokens overlapTokens
     = imap (fun i g => {| text := joinSentences g; index := i;
                           tokenCount := tokensOf g |})
         (sentenceGroups (default 500 maxTokens) (default 50 overlapTokens)
            (splitIntoSentences input)))
  /\ chunkText (lit "abcd") None None
     = [ {| text := lit "abcd."; index := 0; tokenCount := 1 |} ]
  /\ estimateTokenCount (lit "abcd.") = 2.
Proof.
  split; [|split; reflexivity]. intros input maxTokens overlapTokens.
  apply chunkSentences_groups.
Qed.

(** ** C2: the overlap between consecutive chunks *)

(** C2: when [chunkText] pushes a chunk and later a successor, the
    successor starts with the overlap of the pushed chunk, followed by at
    least one new sentence; the overlap is a tail of the pushed chunk's
    list of whole sentences, its estimates sum to at most [overlapTokens],
    the sentence before it would exceed that bound, and so does every
    longer tail. *)
Theorem chunk_overlap_is_longest_tail :
  forall input maxTokens overlapTokens i g g',
    sentenceGroups (default 500 maxTokens) (default 50 overlapTokens)
      (splitIntoSentences input) !! i = Some g ->
    sentenceGroups (default 500 maxTokens) (default 50 overlapTokens)
      (splitIntoSentences input) !! S i = Some g' ->
    chunkText input maxTokens overlapTokens !! i = Some (chunkOf i g)
    /\ chunkText input maxTokens overlapTokens !! S i = Some (chunkOf (S i) g')
    /\ Forall (fun s => In s (splitIntoSentences input)) g
    /\ exists o news,
         g' = o ++ news /\ news <> []
         /\ o = (overlapOf (default 50 overlapTokens) g).1
         /\ isOverlap (default 50 overlapTokens) g o.
Proof.
  intros input maxTokens overlapTokens i g g' H1 H2.
  unfold chunkText. rewrite chunkSentences_groups, !list_lookup_imap.
  rewrite H1, H2. repeat split; try done.
  - pose proof (sentenceGroups_members (default 500 maxTokens)
      (default 50 overlapTokens)
      (fun s => In s (splitIntoSentences input)) (splitIntoSentences input))
      as H.
    eapply Forall_lookup_1 in H; [exact H| |exact H1].
    apply Forall_forall. by intros x ?%list_elem_of_In.
  - destruct (sentenceGroups_pairs _ _ _ _ _ _ H1 H2) as (news & Hn & ->).
    exists (overlapOf (default 50 overlapTokens) g).1, news.
    repeat split; try done; apply overlapOf_isOverlap.
Qed.

Lemma chunk_overlap_is_longest_tail_witness :
  sentenceGroups 8 4 (splitIntoSentences three_sentences) !! 0%nat
    = Some [lit "Alpha beta gamma"; lit "Delta epsilon"]
  /\ sentenceGroups 8 4 (splitIntoSentences three_sentences) !! 1%nat
    = Some [lit "Delta epsilon"; lit "Zeta eta theta iota"]
  /\ chunkText three_sentences (Some 8) (Some 4) !! 0%nat
    = Some (chunkOf 0 [lit "Alpha beta gamma"; lit "Delta epsilon"])
  /\ chunkText three_sentences (Some 8) (Some 4) !! 1%nat
    = Some (chunkOf 1 [lit "Delta epsilon"; lit "Zeta eta theta iota"])
  /\ Forall (fun s => In s (splitIntoSentences three_sentences))
       [lit "Alpha beta gamma"; lit "Delta epsilon"]
  /\ exists o news,
       [lit "Delta epsilon"; lit "Zeta eta theta iota"] = o ++ news
       /\ news <> []
       /\ o = (overlapOf 4 [lit "Alpha beta gamma"; lit "Delta epsilon"]).1
       /\ isOverlap 4 [lit "Alpha beta gamma"; lit "Delta epsilon"] o.
Proof.
  assert (sentenceGroups 8 4 (splitIntoSentences three_sentences) !! 0%nat
          = Some [lit "Alpha beta gamma"; lit "Delta epsilon"]) as H0
    by reflexivity.
  assert (sentenceGroups 8 4 (splitIntoSentences three_sentences) !! 1%nat
          = Some [lit "Delta epsilon"; lit "Zeta eta theta iota"]) as H1
    by reflexivity.
  split; [exact H0|]. split; [exact H1|].
  exact (chunk_overlap_is_longest_tail three_sentences (Some 8) (Some 4) 0
           _ _ H0 H1).
Defined.

(** ** The pipeline *)

Section PipelineLemmas.

Variable env : Env.
Variable config : Config.

Implicit Types (w : World) (ids : list jsstring) (md : gmap string jsval).

Lemma addChunks_step userId md total chunk rest ids w v :
  ollama_embeddings env (embedCalls w) (cfgEmbeddingModel config) (text chunk)
    = Some v ->
  length v = VectorStore.VECTOR_SIZE ->
  addChunks env config userId md total (chunk :: rest) ids w
  = addChunks env config userId md total rest
      (ids ++ [randomUUID env (uuidCalls w)])
      (afterChunk env userId md total chunk v w).
Proof.
  intros He Hl. cbn [addChunks].
  unfold bind, newUUID, generateEmbedding, now, VectorStore.addMemory,
    VectorStore.client_upsert.
  cbn [embedCalls vector]. rewrite He, Hl, Nat.eqb_refl. reflexivity.
Qed.

Lemma addChunks_stop userId md total chunk rest ids w :
  ollama_embeddings env (embedCalls w) (cfgEmbeddingModel config) (text chunk)
    = None ->
  exists w',
    addChunks env config userId md total (chunk :: rest) ids w
    = (w', Throw (embeddingFailure config))
    /\ collection w' = collection w.
Proof.
  intros He. cbn [addChunks]. unfold bind, newUUID, generateEmbedding.
  cbn [embedCalls]. rewrite He. by eexists.
Qed.

Lemma drawn_S w userId md total chunk v n :
  randomUUID env (uuidCalls w)
    :: drawn env (afterChunk env userId md total chunk v w) n
  = drawn env w (S n).
Proof.
  unfold drawn. cbn [seq map]. rewrite Nat.add_0_r. f_equal.
  rewrite <- seq_shift, map_map. apply map_ext. intros j. cbn.
  f_equal. lia.
Qed.

(** Processing the first [n] chunks when their embeddings succeed. *)
Lemma addChunks_prefix userId md total n :
  forall rest ids w,
    (n <= length rest)%nat ->
    (forall j c, (j < n)%nat -> rest !! j = Some c ->
       exists v,
         ollama_embeddings env (embedCalls w + j) (cfgEmbeddingModel config)
           (text c) = Some v
         /\ length v = VectorStore.VECTOR_SIZE) ->
    exists w',
      addChunks env config userId md total rest ids w
      = addChunks env config userId md total (drop n rest)
          (ids ++ drawn env w n) w'
      /\ embedCalls w' = (embedCalls w + n)%nat
      /\ uuidCalls w' = (uuidCalls w + n)%nat
      /\ clockReads w' = (clockReads w + n)%nat
      /\ chatCalls w' = chatCalls w
      /\ (forall k,
            (forall j, (j < n)%nat -> randomUUID env (uuidCalls w + j) <> k) ->
            collection w' !! k = collection w !! k)
      /\ (forall j c v,
            (j < n)%nat -> rest !! j = Some c ->
            ollama_embeddings env (embedCalls w + j)
              (cfgEmbeddingModel config) (text c) = Some v ->
            (forall k, (j < k < n)%nat ->
               randomUUID env (uuidCalls w + k)
               <> randomUUID env (uuidCalls w + j)) ->
            collection w' !! randomUUID env (uuidCalls w + j)
            = Some (chunkPoint userId md total c v
                      (dateNow env (clockReads w + j)))).
Proof.
  induction n as [|n IH]; intros rest ids w Hlen Hok.
  - exists w. unfold drawn. cbn. rewrite app_nil_r, !Nat.add_0_r.
    repeat split; try done; intros; lia.
  - destruct rest as [|c rest]; [cbn in Hlen; lia|].
    destruct (Hok 0%nat c ltac:(lia) eq_refl) as (v & Hv & Hdim).
    rewrite Nat.add_0_r in Hv.
    rewrite (addChunks_step _ _ _ _ _ _ _ _ Hv Hdim).
    set (w1 := afterChunk env userId md total c v w).
    destruct (IH rest (ids ++ [randomUUID env (uuidCalls w)]) w1)
      as (w' & Hrun & He & Hu & Hc & Hch & Hother & Hkept).
    { cbn in Hlen. lia. }
    { intros j c' Hj Hc'.
      destruct (Hok (S j) c' ltac:(lia) Hc') as (v' & ? & ?).
      exists v'. split; [|done]. cbn.
      by replace (S (embedCalls w + j)) with (embedCalls w + S j)%nat by lia. }
    exists w'. rewrite Hrun. cbn [drop]. rewrite <- app_assoc. cbn [app].
    unfold w1 at 1. rewrite drawn_S.
    cbn in He, Hu, Hc, Hch.
    repeat split; try done; try lia.
    + intros k Hk. rewrite Hother.
      * cbn. apply lookup_insert_ne. specialize (Hk 0%nat ltac:(lia)).
        by rewrite Nat.add_0_r in Hk.
      * intros j Hj. cbn. specialize (Hk (S j) ltac:(lia)).
        by replace (S (uuidCalls w + j)) with (uuidCalls w + S j)%nat by lia.
    + intros j c' v' Hj Hc' Hv' Hfresh. destruct j as [|j].
      * rewrite Nat.add_0_r in Hv'. rewrite !Nat.add_0_r.
        cbn in Hc'. injection Hc' as <-.
        rewrite Hv in Hv'. injection Hv' as <-.
        rewrite Hother.
        -- cbn. apply lookup_insert_eq.
        -- intros k Hk. cbn. specialize (Hfresh (S k) ltac:(lia)).
           rewrite Nat.add_0_r in Hfresh.
           by replace (S (uuidCalls w + k)) with (uuidCalls w + S k)%nat by lia.
      * cbn in Hc'.
        replace (uuidCalls w + S j)%nat with (uuidCalls w1 + j)%nat
          by (cbn; lia).
        replace (clockReads w + S j)%nat with (clockReads w1 + j)%nat
          by (cbn; lia).
        apply Hkept; [lia|done| |].
        -- by replace (embedCalls w1 + j)%nat with (embedCalls w + S j)%nat
             by (cbn; lia).
        -- intros k Hk. specialize (Hfresh (S k) ltac:(lia)).
           replace (uuidCalls w1 + k)%nat with (uuidCalls w + S k)%nat
             by (cbn; lia).
           by replace (uuidCalls w1 + j)%nat with (uuidCalls w + S j)%nat
             by (cbn; lia).
Qed.

End PipelineLemmas.

(** ** C5: a failing embedding aborts [addMemory] and keeps what was written *)

(** C5: when the embedding of the [i]-th chunk fails after the chunks
    before it were embedded and written, [addMemory] throws the error that
    names the configured embedding model and returns no ids; each of the
    [i] chunks processed before is still stored under its identifier
    (unless a later chunk drew the same identifier), and no other entry of
    the collection has changed. *)
Theorem addMemory_embedding_failure_is_partial :
  forall env config options w i failing,
    let chunks :=
      chunkText (normalizeText (addContent options))
        (Some (cfgMaxChunkTokens config)) (Some (cfgOverlapTokens config)) in
    chunks !! i = Some failing ->
    (forall j c, (j < i)%nat -> chunks !! j = Some c ->
       exists v,
         ollama_embeddings env (embedCalls w + j) (cfgEmbeddingModel config)
           (text c) = Some v
         /\ length v = VectorStore.VECTOR_SIZE) ->
    ollama_embeddings env (embedCalls w + i) (cfgEmbeddingModel config)
      (text failing) = None ->
    exists w',
      addMemory env config options w
      = (w', Throw (Error
               (lit "Failed to generate embedding. Is Ollama running with "
                ++ cfgEmbeddingModel config ++ lit " model?")))
      /\ (forall j c v,
            (j < i)%nat -> chunks !! j = Some c ->
            ollama_embeddings env (embedCalls w + j)
              (cfgEmbeddingModel config) (text c) = Some v ->
            (forall k, (j < k < i)%nat ->
               randomUUID env (uuidCalls w + k)
               <> randomUUID env (uuidCalls w + j)) ->
            collection w' !! randomUUID env (uuidCalls w + j)
            = Some (chunkPoint (addUserId options)
                      (default ∅ (addMetadata options)) (length chunks) c v
                      (dateNow env (clockReads w + j))))
      /\ (forall k,
            (forall j, (j < i)%nat -> randomUUID env (uuidCalls w + j) <> k) ->
            collection w' !! k = collection w !! k).
Proof.
  intros env config options w i failing chunks Hi Hok Hfail.
  unfold addMemory. fold chunks.
  destruct (addChunks_prefix env config (addUserId options)
              (default ∅ (addMetadata options)) (length chunks) i chunks [] w)
    as (w1 & Hrun & He & _ & _ & _ & Hother & Hkept).
  { apply lookup_lt_Some in Hi. lia. }
  { exact Hok. }
  rewrite Hrun, (drop_S _ _ _ Hi).
  rewrite <- He in Hfail.
  destruct (addChunks_stop env config (addUserId options)
              (default ∅ (addMetadata options)) (length chunks) failing
              (drop (S i) chunks) ([] ++ drawn env w i) w1 Hfail)
    as (w' & Hstop & Hsame).
  exists w'. split; [exact Hstop|]. rewrite Hsame. by split.
Qed.

Lemma addMemory_embedding_failure_is_partial_witness :
  chunkText (normalizeText (addContent addThree))
    (Some (cfgMaxChunkTokens testConfig)) (Some (cfgOverlapTokens testConfig))
    !! 1%nat
  = Some (chunkOf 1 [lit "Delta epsilon"; lit "Zeta eta theta iota"])
  /\ exists w',
       addMemory (testEnv 1) testConfig addThree emptyWorld
       = (w', Throw (Error
                (lit "Failed to generate embedding. Is Ollama running with "
                 ++ lit "nomic-embed-text" ++ lit " model?")))
       /\ is_Some (collection w' !! lit "0").
Proof.
  split; [reflexivity|].
  destruct (addMemory_embedding_failure_is_partial (testEnv 1) testConfig
              addThree emptyWorld 1
              (chunkOf 1 [lit "Delta epsilon"; lit "Zeta eta theta iota"]))
    as (w' & Hrun & Hkept & _).
  - reflexivity.
  - intros j c Hj _. exists (probe 1).
    destruct j as [|j]; [split; reflexivity | lia].
  - reflexivity.
  - exists w'. split; [exact Hrun|].
    eexists.
    apply (Hkept 0%nat
             (chunkOf 0 [lit "Alpha beta gamma"; lit "Delta epsilon"])
             (probe 1)); [lia|reflexivity|reflexivity|].
    intros k Hk. lia.
Defined.

(** ** C4: the metadata stored with a chunk *)

Section MetadataLemmas.

Variable md : gmap string jsval.
Variable chunk : Chunk.
Variable total : nat.

Lemma chunkMetadata_derived :
  chunkMetadata md chunk total !! "wordCount"
    = Some (JNum (Z.of_nat (wordCount (extractMetadata (text chunk)))))
  /\ chunkMetadata md chunk total !! "charCount"
    = Some (JNum (Z.of_nat (charCount (extractMetadata (text chunk)))))
  /\ chunkMetadata md chunk total !! "hasUrl"
    = Some (JBool (hasUrl (extractMetadata (text chunk))))
  /\ chunkMetadata md chunk total !! "hasEmail"
    = Some (JBool (hasEmail (extractMetadata (text chunk))))
  /\ chunkMetadata md chunk total !! "language" = Some (JStr (lit "en"))
  /\ chunkMetadata md chunk total !! "chunkIndex"
    = Some (JNum (Z.of_nat (index chunk)))
  /\ chunkMetadata md chunk total !! "totalChunks"
    = Some (JNum (Z.of_nat total)).
Proof.
  unfold chunkMetadata, spread, metadataObject.
  repeat split;
    repeat (first [ rewrite lookup_insert_eq; reflexivity
                  | rewrite lookup_insert_ne by discriminate
                  | rewrite lookup_union_l'; [|by eexists] ]).
Qed.

Lemma chunkMetadata_caller k :
  ~ In k derivedKeys -> chunkMetadata md chunk total !! k = md !! k.
Proof.
  intros Hk. unfold chunkMetadata, spread, metadataObject.
  assert (forall d, In d derivedKeys -> d <> k) as Hne
    by (intros d Hd ->; done).
  rewrite !lookup_insert_ne by (apply Hne; cbn; tauto).
  rewrite lookup_union_r.
  - by rewrite (right_id_L ∅ (∪)).
  - rewrite !lookup_insert_ne by (apply Hne; cbn; tauto). apply lookup_empty.
Qed.

Lemma chunkMetadata_dom :
  dom (chunkMetadata md chunk total) = dom md ∪ list_to_set derivedKeys.
Proof.
  unfold chunkMetadata, spread, metadataObject.
  rewrite !dom_insert_L, !dom_union_L, !dom_insert_L, !dom_empty_L.
  unfold derivedKeys. cbn [list_to_set]. apply set_eq. intros k.
  rewrite !elem_of_union, !elem_of_singleton, !elem_of_empty. tauto.
Qed.

End MetadataLemmas.

Lemma addMemory_all_embedded env config options w :
  let chunks :=
    chunkText (normalizeText (addContent options))
      (Some (cfgMaxChunkTokens config)) (Some (cfgOverlapTokens config)) in
  (forall j c, chunks !! j = Some c ->
     exists v,
       ollama_embeddings env (embedCalls w + j) (cfgEmbeddingModel config)
         (text c) = Some v
       /\ length v = VectorStore.VECTOR_SIZE) ->
  exists w',
    addMemory env config options w = (w', Ok (drawn env w (length chunks)))
    /\ (forall j c,
          chunks !! j = Some c ->
          (forall k, (j < k < length chunks)%nat ->
             randomUUID env (uuidCalls w + k)
             <> randomUUID env (uuidCalls w + j)) ->
          exists v,
            collection w' !! randomUUID env (uuidCalls w + j)
            = Some (chunkPoint (addUserId options)
                      (default ∅ (addMetadata options)) (length chunks) c v
                      (dateNow env (clockReads w + j)))).
Proof.
  intros chunks Hok. unfold addMemory. fold chunks.
  destruct (addChunks_prefix env config (addUserId options)
              (default ∅ (addMetadata options)) (length chunks)
              (length chunks) chunks [] w)
    as (w' & Hrun & _ & _ & _ & _ & _ & Hkept); [lia| |].
  { intros j c _. apply Hok. }
  exists w'. rewrite Hrun, drop_all. split; [done|].
  intros j c Hc Hfresh. destruct (Hok j c Hc) as (v & Hv & _).
  exists v. apply Hkept; try done. by apply lookup_lt_Some in Hc.
Qed.

(** C4: after an [addMemory] call whose embeddings all succeed, the ids are
    returned in chunk order and the metadata stored with each chunk has as
    keys the caller's keys together with the derived ones; on
    [wordCount], [charCount], [hasUrl], [hasEmail] and [language] it holds
    what [extractMetadata] computes for the chunk, on [chunkIndex] and
    [totalChunks] the position of the chunk and the number of chunks,
    whatever the caller supplied under these keys, and on every other key
    the caller's value. *)
Theorem addMemory_metadata_merge :
  forall env config options w,
    let chunks :=
      chunkText (normalizeText (addContent options))
        (Some (cfgMaxChunkTokens config)) (Some (cfgOverlapTokens config)) in
    let caller := default ∅ (addMetadata options) in
    (forall j c, chunks !! j = Some c ->
       exists v,
         ollama_embeddings env (embedCalls w + j) (cfgEmbeddingModel config)
           (text c) = Some v
         /\ length v = VectorStore.VECTOR_SIZE) ->
    (forall j k, (j < k < length chunks)%nat ->
       randomUUID env (uuidCalls w + k) <> randomUUID env (uuidCalls w + j)) ->
    exists w',
      addMemory env config options w
      = (w', Ok (map (fun j => randomUUID env (uuidCalls w + j))
                   (seq 0 (length chunks))))
      /\ forall j c,
           chunks !! j = Some c ->
           exists p,
             collection w' !! randomUUID env (uuidCalls w + j) = Some p
             /\ payloadText (payload p) = text c
             /\ dom (payloadMetadata (payload p))
                = dom caller ∪ list_to_set derivedKeys
             /\ payloadMetadata (payload p) !! "wordCount"
                = Some (JNum (Z.of_nat (wordCount (extractMetadata (text c)))))
             /\ payloadMetadata (payload p) !! "charCount"
                = Some (JNum (Z.of_nat (charCount (extractMetadata (text c)))))
             /\ payloadMetadata (payload p) !! "hasUrl"
                = Some (JBool (hasUrl (extractMetadata (text c))))
             /\ payloadMetadata (payload p) !! "hasEmail"
                = Some (JBool (hasEmail (extractMetadata (text c))))
             /\ payloadMetadata (payload p) !! "language"
                = Some (JStr (lit "en"))
             /\ payloadMetadata (payload p) !! "chunkIndex"
                = Some (JNum (Z.of_nat j))
             /\ payloadMetadata (payload p) !! "totalChunks"
                = Some (JNum (Z.of_nat (length chunks)))
             /\ (forall k, ~ In k derivedKeys ->
                   payloadMetadata (payload p) !! k = caller !! k).
Proof.
  intros env config options w chunks caller Hok Hfresh.
  destruct (addMemory_all_embedded env config options w Hok)
    as (w' & Hrun & Hkept).
  exists w'. split; [exact Hrun|]. intros j c Hc.
  destruct (Hkept j c Hc) as (v & Hp); [intros k Hk; by apply Hfresh|].
  eexists. split; [exact Hp|].
  cbn [payload chunkPoint payloadText payloadMetadata].
  assert (index c = j) as Hj.
  { unfold chunks, chunkText in Hc. rewrite chunkSentences_groups in Hc.
    rewrite list_lookup_imap in Hc.
    destruct (sentenceGroups _ _ _ !! j); [|done]. by injection Hc as <-. }
  pose proof (chunkMetadata_derived caller c (length chunks))
    as (H1 & H2 & H3 & H4 & H5 & H6 & H7).
  rewrite Hj in H6.
  repeat (split; [done|]). split; [apply chunkMetadata_dom|].
  repeat (split; [done|]). apply chunkMetadata_caller.
Qed.

Lemma addMemory_metadata_merge_witness :
  exists w' p,
    addMemory (testEnv 2) testConfig addThree emptyWorld
    = (w', Ok [lit "0"; lit "1"])
    /\ collection w' !! lit "0" = Some p
    /\ callerMetadata !! "wordCount" = Some (JNum 99)
    /\ payloadMetadata (payload p) !! "wordCount" = Some (JNum 5)
    /\ payloadMetadata (payload p) !! "type" = Some (JStr (lit "test")).
Proof.
  destruct (addMemory_metadata_merge (testEnv 2) testConfig addThree
              emptyWorld) as (w' & Hrun & Hall).
  - intros j c Hc. exists (probe 1). apply lookup_lt_Some in Hc.
    change (j < 2)%nat in Hc.
    destruct j as [|[|j]]; [split; reflexivity..|lia].
  - intros j k Hk. change (j < k < 2)%nat in Hk.
    assert (j = 0%nat /\ k = 1%nat) as [-> ->] by lia. discriminate.
  - destruct (Hall 0%nat
                (chunkOf 0 [lit "Alpha beta gamma"; lit "Delta epsilon"])
                eq_refl)
      as (p & Hp & _ & _ & Hwc & _ & _ & _ & _ & _ & _ & Hcaller).
    exists w', p. split; [exact Hrun|]. split; [exact Hp|].
    split; [reflexivity|]. split; [exact Hwc|].
    rewrite Hcaller; [reflexivity|].
    cbn. intros H. repeat destruct H as [H|H]; try discriminate H. exact H.
Defined.

(** ** C7: what [searchMemories] returns *)

Section SearchLemmas.

Variable env : Env.
Variable config : Config.

Lemma client_search_hits query userId limit thr w w' rs :
  VectorStore.client_search env query userId limit thr w = (w', Ok rs) ->
  w' = w
  /\ (length rs <= limit)%nat
  /\ Forall (fun r : jsstring * Q * Payload =>
       (thr <= r.1.2)%Q
       /\ exists p,
            collection w !! r.1.1 = Some p
            /\ payloadUserId (payload p) = userId
            /\ r.2 = payload p
            /\ r.1.2 = similarity env query (vector p)) rs.
Proof.
  unfold VectorStore.client_search.
  destruct (length query =? VectorStore.VECTOR_SIZE)%nat; [|done].
  intros [= <- <-]. split; [done|]. split; [apply firstn_le_length|].
  apply Forall_forall. intros r Hr.
  apply (subseteq_take limit) in Hr.
  rewrite merge_sort_Permutation in Hr.
  apply list_elem_of_filter in Hr as [Hthr Hr].
  apply list_elem_of_In, in_map_iff in Hr as (kp & <- & Hin).
  apply list_elem_of_In, list_elem_of_filter in Hin as [Huser Hin].
  apply elem_of_map_to_list' in Hin. cbn.
  split; [by apply Qle_bool_iff, Is_true_true|].
  by exists kp.2.
Qed.

(** The hits come best first. *)
Lemma client_search_ranked query userId limit thr w w' rs :
  VectorStore.client_search env query userId limit thr w = (w', Ok rs) ->
  StronglySorted (fun a b : jsstring * Q * Payload => (b.1.2 <= a.1.2)%Q) rs.
Proof.
  unfold VectorStore.client_search.
  destruct (length query =? VectorStore.VECTOR_SIZE)%nat; [|done].
  intros [= <- <-].
  set (R := fun a b : jsstring * Q * Payload =>
              Is_true (Qle_bool b.1.2 a.1.2)).
  assert (forall a b, R a b <-> (b.1.2 <= a.1.2)%Q) as HR.
  { intros a b. unfold R. by rewrite Is_true_true, Qle_bool_iff. }
  assert (Transitive R) as Htrans.
  { intros a b c Hab Hbc. apply HR. apply HR in Hab, Hbc.
    by apply Qle_trans with b.1.2. }
  assert (Total R) as Htotal.
  { intros a b. destruct (Qlt_le_dec a.1.2 b.1.2) as [Hlt|Hle].
    - right. apply HR. by apply Qlt_le_weak.
    - left. by apply HR. }
  match goal with |- StronglySorted _ (take _ (merge_sort _ ?l)) =>
    pose proof (StronglySorted_merge_sort R l) as Hs
  end.
  rewrite <- (take_drop limit) in Hs. apply StronglySorted_app_1_l in Hs.
  induction Hs as [|a l _ IH Hall]; constructor; [done|].
  eapply Forall_impl; [exact Hall|]. intros b. apply HR.
Qed.

Lemma searchMemories_hits options w w' results :
  searchMemories env config options w = (w', Ok results) ->
  collection w' = collection w
  /\ (length results <= default 5 (searchLimit options))%nat
  /\ Forall (fun r =>
       (default (1 # 2) (searchScoreThreshold options) <= score r)%Q
       /\ exists p,
            collection w !! id r = Some p
            /\ payloadUserId (payload p) = searchUserId options
            /\ resultText r = payloadText (payload p)) results.
Proof.
  unfold searchMemories, bind, generateEmbedding.
  destruct (ollama_embeddings env _ _ _) as [q|]; [|done].
  unfold VectorStore.search, bind. cbn [default].
  destruct (VectorStore.client_search env q _ _ _ _) as [w1 [rs|e]] eqn:E;
    [|done].
  apply client_search_hits in E as (-> & Hlen & Hall).
  unfold ret. intros [= <- <-]. split; [done|].
  split; [by rewrite length_map|].
  apply Forall_forall. intros r Hr.
  apply list_elem_of_In, in_map_iff in Hr as (x & <- & Hin).
  apply list_elem_of_In in Hin.
  rewrite Forall_forall in Hall.
  destruct (Hall x Hin) as (Hthr & p & Hp & Hu & Hpay & _). cbn.
  split; [done|]. exists p. by rewrite Hpay.
Qed.

End SearchLemmas.

(** C7: whatever the store holds, a sequence [searchMemories] returns has
    at most [limit] results (5 by default), none of them scores below
    [scoreThreshold] (0.5 by default), and each of them is a stored chunk
    whose [userId] is the requested one. *)
Theorem searchMemories_respects_threshold_limit_user :
  forall env config options w w' results,
    searchMemories env config options w = (w', Ok results) ->
    (length results <= default 5 (searchLimit options))%nat
    /\ Forall (fun r =>
         ~ (score r < default (1 # 2) (searchScoreThreshold options))%Q
         /\ exists p,
              collection w !! id r = Some p
              /\ payloadUserId (payload p) = searchUserId options
              /\ resultText r = payloadText (payload p)) results.
Proof.
  intros env config options w w' results H.
  apply searchMemories_hits in H as (_ & Hlen & Hall). split; [done|].
  eapply Forall_impl; [exact Hall|]. cbn.
  intros r [Hthr Hp]. split; [by apply Qle_not_lt|done].
Qed.

Lemma searchMemories_respects_threshold_limit_user_witness :
  searchMemories (testEnv 1) testConfig aliceSearch storeWorld
    = (searched, Ok [teaHit])
  /\ (length [teaHit] <= 5)%nat
  /\ Forall (fun r =>
       ~ (score r < 1 # 2)%Q
       /\ exists p,
            collection storeWorld !! id r = Some p
            /\ payloadUserId (payload p) = lit "alice"
            /\ resultText r = payloadText (payload p)) [teaHit].
Proof.
  assert (searchMemories (testEnv 1) testConfig aliceSearch storeWorld
          = (searched, Ok [teaHit])) as H by (vm_compute; reflexivity).
  split; [exact H|].
  exact (searchMemories_respects_threshold_limit_user _ _ _ _ _ _ H).
Defined.

(** ** C6 and C10: the [memoriesUsed] that [chat] reports *)

Section ChatLemmas.

Variable env : Env.
Variable config : Config.

Lemma chat_with_context options w w1 memories reply :
  includeMemoryContext options <> Some false ->
  searchMemories env config (contextSearch options) w = (w1, Ok memories) ->
  ollama_chat env (chatCalls w1) (cfgChatModel config)
    (chatMessages
       (withMemoryContext env
          (default defaultSystemPrompt (systemPrompt options)) memories)
       (chatMessage options)) = Some reply ->
  chat env config options w
  = (afterChat w1,
     Ok {| response := reply;
           memoriesUsed := default 5%nat (maxContextMemories options) |}).
Proof.
  intros Hinc Hsearch Hreply. unfold chat.
  assert (default true (includeMemoryContext options) = true) as ->.
  { destruct (includeMemoryContext options) as [[|]|]; done. }
  unfold bind. rewrite Hsearch. unfold ret, ollamaChat. rewrite Hreply.
  reflexivity.
Qed.

Lemma chat_without_context options w reply :
  includeMemoryContext options = Some false ->
  ollama_chat env (chatCalls w) (cfgChatModel config)
    (chatMessages (default defaultSystemPrompt (systemPrompt options))
       (chatMessage options)) = Some reply ->
  chat env config options w
  = (afterChat w, Ok {| response := reply; memoriesUsed := 0 |}).
Proof.
  intros Hinc Hreply. unfold chat. rewrite Hinc.
  change (default true (Some false)) with false. cbv iota.
  unfold bind, ret, ollamaChat. rewrite Hreply. reflexivity.
Qed.

End ChatLemmas.

(** C6: when [includeMemoryContext] is on (it is by default) and the search
    found at least one memory, [chat] answers with the reply of the chat
    model and reports as [memoriesUsed] the limit [maxContextMemories]
    (5 by default) it asked for, however many memories were found; when
    [includeMemoryContext] is off it reports 0.  Whatever the search found
    and whatever prompt was sent, a result that [chat] returns carries one
    of these two values. *)
Theorem chat_memoriesUsed_echoes_limit :
  forall env config options w,
    (forall w1 memories reply,
       includeMemoryContext options <> Some false ->
       searchMemories env config (contextSearch options) w
         = (w1, Ok memories) ->
       memories <> [] ->
       ollama_chat env (chatCalls w1) (cfgChatModel config)
         (chatMessages
            (withMemoryContext env
               (default defaultSystemPrompt (systemPrompt options)) memories)
            (chatMessage options)) = Some reply ->
       exists w',
         chat env config options w
         = (w', Ok {| response := reply;
                      memoriesUsed :=
                        default 5%nat (maxContextMemories options) |}))
    /\ (forall reply,
          includeMemoryContext options = Some false ->
          ollama_chat env (chatCalls w) (cfgChatModel config)
            (chatMessages (default defaultSystemPrompt (systemPrompt options))
               (chatMessage options)) = Some reply ->
          exists w',
            chat env config options w
            = (w', Ok {| response := reply; memoriesUsed := 0 |}))
    /\ (forall w' result,
          chat env config options w = (w', Ok result) ->
          memoriesUsed result
          = if default true (includeMemoryContext options)
            then default 5%nat (maxContextMemories options) else 0%nat).
Proof.
  intros env config options w. split; [|split].
  - intros w1 memories reply Hinc Hsearch _ Hreply. eexists.
    by apply chat_with_context with memories.
  - intros reply Hinc Hreply. eexists. by apply chat_without_context.
  - intros w' result. unfold chat.
    destruct (default true (includeMemoryContext options)).
    + unfold bind.
      destruct (searchMemories env config (contextSearch options) w)
        as [w1 [memories|e]]; [|done].
      unfold ret, ollamaChat.
      destruct (ollama_chat env _ _ _); [|done]. by intros [= _ <-].
    + unfold bind, ret, ollamaChat.
      destruct (ollama_chat env _ _ _); [|done]. by intros [= _ <-].
Qed.

Lemma chat_memoriesUsed_echoes_limit_witness :
  searchMemories (testEnv 1) testConfig (contextSearch (askAlice None))
    storeWorld = (searched, Ok [teaHit])
  /\ (exists w',
        chat (testEnv 1) testConfig (askAlice None) storeWorld
        = (w', Ok {| response := lit "ok"; memoriesUsed := 3 |}))
  /\ (exists w',
        chat (testEnv 1) testConfig (askAlice (Some false)) storeWorld
        = (w', Ok {| response := lit "ok"; memoriesUsed := 0 |})).
Proof.
  assert (searchMemories (testEnv 1) testConfig
            (contextSearch (askAlice None)) storeWorld
          = (searched, Ok [teaHit])) as H by (vm_compute; reflexivity).
  split; [exact H|]. split.
  - apply (proj1 (chat_memoriesUsed_echoes_limit (testEnv 1) testConfig
                    (askAlice None) storeWorld) searched [teaHit] (lit "ok"));
      [discriminate | exact H | discriminate | reflexivity].
  - apply (proj1 (proj2 (chat_memoriesUsed_echoes_limit (testEnv 1)
                           testConfig (askAlice (Some false)) storeWorld))
             (lit "ok"));
      reflexivity.
Defined.

(** C10: when [includeMemoryContext] is on and the search finds nothing,
    the system prompt is sent as it is and [chat] still reports as
    [memoriesUsed] the limit [maxContextMemories] (5 by default), not 0. *)
Theorem chat_memoriesUsed_when_nothing_found :
  forall env config options w w1 reply,
    includeMemoryContext options <> Some false ->
    searchMemories env config (contextSearch options) w = (w1, Ok []) ->
    ollama_chat env (chatCalls w1) (cfgChatModel config)
      (chatMessages (default defaultSystemPrompt (systemPrompt options))
         (chatMessage options)) = Some reply ->
    exists w',
      chat env config options w
      = (w', Ok {| response := reply;
                   memoriesUsed :=
                     default 5%nat (maxContextMemories options) |}).
Proof.
  intros env config options w w1 reply Hinc Hsearch Hreply. eexists.
  by apply chat_with_context with [].
Qed.

Lemma chat_memoriesUsed_when_nothing_found_witness :
  searchMemories (testEnv 1) testConfig (contextSearch askCarol) storeWorld
    = (searched, Ok [])
  /\ exists w',
       chat (testEnv 1) testConfig askCarol storeWorld
       = (w', Ok {| response := lit "ok"; memoriesUsed := 5 |}).
Proof.
  assert (searchMemories (testEnv 1) testConfig (contextSearch askCarol)
            storeWorld = (searched, Ok [])) as H by (vm_compute; reflexivity).
  split; [exact H|].
  apply (chat_memoriesUsed_when_nothing_found (testEnv 1) testConfig askCarol
           storeWorld searched (lit "ok"));
    [discriminate | exact H | reflexivity].
Defined.

(** ** More on [splitIntoSentences] and the shape of the chunks *)

Section SentenceLemmas.

Implicit Types (s t p cur : jsstring) (c : N) (b : bool).

Lemma split_runs_pieces cls cur b s :
  forallb (fun c => negb (cls c)) cur = true ->
  Forall (fun p => forallb (fun c => negb (cls c)) p = true)
    (split_runs cls cur b s).
Proof.
  revert cur b. induction s as [|c s IH]; intros cur b H; simpl.
  - by constructor.
  - destruct (cls c) eqn:E.
    + destruct b; [by apply IH|]. constructor; [done|by apply IH].
    + apply IH. rewrite forallb_app, H. simpl. by rewrite E.
Qed.

Lemma trim_infix s :
  exists k1 k2,
    s = k1 ++ trim s ++ k2
    /\ forallb is_ws k1 = true /\ forallb is_ws k2 = true.
Proof.
  destruct (trimStart_split s) as (k1 & H1 & P1).
  destruct (trimEnd_split (trimStart s)) as (k2 & H2 & P2).
  exists k1, k2. unfold trim. by rewrite <- H2.
Qed.

Lemma trim_blank p : forallb is_ws p = true -> trim p = [].
Proof.
  intros H. unfold trim.
  assert (trimStart p = []) as ->; [|done].
  unfold trimStart. induction p as [|c p IH]; simpl in *; [done|].
  apply andb_true_iff in H as [-> H]. by apply IH.
Qed.

Lemma trim_nil p : trim p = [] <-> forallb is_ws p = true.
Proof.
  split; [|apply trim_blank]. intros H.
  destruct (trim_infix p) as (k1 & k2 & Hp & P1 & P2).
  rewrite Hp, H, !forallb_app, P1, P2. done.
Qed.

Lemma split_runs_blank cls cur b s :
  (b = true -> cur = []) ->
  Forall (fun p => forallb is_ws p = true) (split_runs cls cur b s)
  <-> forallb is_ws cur = true
      /\ Forall (fun c => is_ws c = true \/ cls c = true) s.
Proof.
  revert cur b. induction s as [|c s IH]; intros cur b Hb; simpl.
  - rewrite Forall_singleton. split; [by intros ?|by intros [? _]].
  - rewrite Forall_cons. destruct (cls c) eqn:E.
    + destruct b.
      * rewrite (Hb eq_refl), (IH [] true) by done. simpl. tauto.
      * rewrite Forall_cons, (IH [] true) by done. simpl. tauto.
    + rewrite (IH (cur ++ [c]) false) by done.
      rewrite forallb_app. simpl. rewrite andb_true_r, andb_true_iff.
      split; [tauto|]. intros (? & [?|?] & ?); [tauto|done].
Qed.

Lemma sentences_nil_pieces (l : list jsstring) :
  filter (fun s => (0 < length s)%nat) (map trim l) = []
  <-> Forall (fun p => forallb is_ws p = true) l.
Proof.
  induction l as [|p l IH]; simpl; [by split|].
  rewrite Forall_cons, <- IH, <- trim_nil. rewrite filter_cons.
  destruct (trim p) as [|c q] eqn:E; simpl.
  - tauto.
  - split; [done|]. by intros [? _].
Qed.

(** A text has no sentence exactly when it is made of blanks and terminal
    punctuation only. *)
Lemma splitIntoSentences_nil t :
  splitIntoSentences t = []
  <-> Forall (fun c => is_ws c = true \/ is_terminal c = true) t.
Proof.
  unfold splitIntoSentences, split.
  rewrite sentences_nil_pieces, split_runs_blank by done. simpl. tauto.
Qed.

(** The sentences are non-empty, trimmed and free of terminal
    punctuation. *)
Lemma splitIntoSentences_shape t :
  Forall (fun s =>
            s <> [] /\ starts_blank s = false /\ ends_blank false s = false
            /\ forallb (fun c => negb (is_terminal c)) s = true)
    (splitIntoSentences t).
Proof.
  apply Forall_forall. intros s Hs. unfold splitIntoSentences in Hs.
  apply list_elem_of_filter in Hs as [Hlen Hs].
  apply list_elem_of_In, in_map_iff in Hs as (p & <- & Hp).
  split; [intros E; rewrite E in Hlen; simpl in Hlen; lia|].
  split; [apply trim_starts|].
  split; [apply trim_ends|].
  pose proof (split_runs_pieces is_terminal [] false t eq_refl) as Hall.
  rewrite Forall_forall in Hall. apply list_elem_of_In in Hp.
  specialize (Hall p Hp).
  destruct (trim_infix p) as (k1 & k2 & Heq & _ & _).
  rewrite Heq, !forallb_app in Hall.
  by apply andb_true_iff in Hall as [_ [? _]%andb_true_iff].
Qed.

End SentenceLemmas.

Section ChunkShapeLemmas.

Variables maxTokens overlapTokens : Z.

Implicit Types (g o : list jsstring) (gs : list (list jsstring)) (st : Loop).

Lemma last_cons_default {A} (prev g : A) (gs : list A) :
  default prev (last (g :: gs)) = default g (last gs).
Proof.
  destruct gs as [|g1 gs]; [done|]. rewrite last_cons_cons.
  destruct (last (g1 :: gs)) eqn:E; [done|]. by apply last_None in E.
Qed.

Lemma freshParts_snoc prev gs x :
  freshParts overlapTokens prev (gs ++ [x])
  = freshParts overlapTokens prev gs
    ++ drop (length (overlapOf overlapTokens (default prev (last gs))).1) x.
Proof.
  revert prev. induction gs as [|g gs IH]; intros prev; simpl.
  - by rewrite app_nil_r.
  - rewrite IH, <- app_assoc.
    by rewrite last_cons_default.
Qed.

Lemma withoutOverlaps_snoc gs g x :
  last gs = Some g ->
  withoutOverlaps overlapTokens (gs ++ [x])
  = withoutOverlaps overlapTokens gs
    ++ drop (length (overlapOf overlapTokens g).1) x.
Proof.
  destruct gs as [|g0 gs]; [done|]. intros Hl. simpl.
  rewrite freshParts_snoc, <- app_assoc.
  rewrite <- (last_cons_default g0 g0 gs), Hl. done.
Qed.

Lemma covers_push gs st seen :
  covers overlapTokens gs st seen ->
  withoutOverlaps overlapTokens (gs ++ [currentChunk st]) = seen.
Proof.
  unfold covers. destruct (last gs) as [g|] eqn:E.
  - intros (news & Hc & <-). rewrite (withoutOverlaps_snoc _ _ _ E), Hc.
    by rewrite drop_app_length.
  - intros [-> <-]. simpl. by rewrite app_nil_r.
Qed.

Lemma covers_step gs st seen sentence :
  covers overlapTokens gs st seen ->
  covers overlapTokens
    (traceBody maxTokens overlapTokens (gs, st) sentence).1
    (traceBody maxTokens overlapTokens (gs, st) sentence).2
    (seen ++ [sentence]).
Proof.
  intros H. unfold traceBody, loopBody. simpl.
  destruct (mustFlush maxTokens st (estimateTokenCount sentence)) eqn:E.
  - unfold covers. rewrite last_snoc. unfold flush.
    destruct (overlapOf overlapTokens (currentChunk st)) as [o n] eqn:Eo.
    simpl. exists [sentence]. split; [done|].
    by rewrite (covers_push _ _ _ H).
  - unfold covers in *. simpl. destruct (last gs) as [g|].
    + destruct H as (news & -> & <-). exists (news ++ [sentence]).
      by rewrite !app_assoc.
    + by destruct H as [-> <-].
Qed.

Lemma covers_fold sentences gs st seen :
  covers overlapTokens gs st seen ->
  covers overlapTokens
    (foldl (traceBody maxTokens overlapTokens) (gs, st) sentences).1
    (foldl (traceBody maxTokens overlapTokens) (gs, st) sentences).2
    (seen ++ sentences).
Proof.
  revert gs st seen. induction sentences as [|s l IH]; intros gs st seen H.
  - by rewrite app_nil_r.
  - cbn [foldl]. pose proof (covers_step gs st seen s H) as H'.
    destruct (traceBody maxTokens overlapTokens (gs, st) s) as [gs' st'].
    replace (seen ++ s :: l) with ((seen ++ [s]) ++ l)
      by (by rewrite <- app_assoc).
    by apply IH.
Qed.

Lemma sentenceGroups_cover sentences :
  withoutOverlaps overlapTokens
    (sentenceGroups maxTokens overlapTokens sentences) = sentences.
Proof.
  unfold sentenceGroups.
  pose proof (covers_fold sentences [] loopInit [] (conj eq_refl eq_refl))
    as H.
  destruct (foldl (traceBody maxTokens overlapTokens) ([], loopInit) sentences)
    as [gs st].
  simpl in *. destruct (currentChunk st) as [|s0 cur] eqn:Ec; simpl.
  - unfold covers in H. rewrite Ec in H. destruct (last gs) as [g|].
    + destruct H as (news & Hc & <-).
      symmetry in Hc. apply app_eq_nil in Hc as [_ ->]. by rewrite app_nil_r.
    + by destruct H as [-> <-].
  - rewrite <- Ec. by apply covers_push.
Qed.

Lemma freshParts_members prev gs s :
  In s (freshParts overlapTokens prev gs) -> exists g, In g gs /\ In s g.
Proof.
  revert prev. induction gs as [|g gs IH]; intros prev; simpl; [done|].
  intros [H|H]%in_app_or.
  - exists g. split; [by left|].
    apply list_elem_of_In. apply list_elem_of_In in H.
    by apply (subseteq_drop _ _ _ H).
  - destruct (IH _ H) as (g' & ? & ?). exists g'. split; [by right|done].
Qed.

Lemma withoutOverlaps_members gs s :
  In s (withoutOverlaps overlapTokens gs) -> exists g, In g gs /\ In s g.
Proof.
  destruct gs as [|g gs]; simpl; [done|]. intros [H|H]%in_app_or.
  - exists g. split; [by left|done].
  - destruct (freshParts_members _ _ _ H) as (g' & ? & ?).
    exists g'. split; [by right|done].
Qed.

(** How many lists are recorded. *)
Lemma trace_count sentences gs st n :
  (length gs + Nat.b2n (0 <? length (currentChunk st)) <= n)%nat ->
  let tr := foldl (traceBody maxTokens overlapTokens) (gs, st) sentences in
  (length tr.1 + Nat.b2n (0 <? length (currentChunk tr.2))
   <= n + length sentences)%nat
  /\ (sentences <> [] -> currentChunk tr.2 <> []).
Proof.
  revert gs st n. induction sentences as [|s l IH]; intros gs st n H.
  - simpl. split; [lia|done].
  - cbn [foldl]. unfold traceBody at 2 4.
    set (gs' := if mustFlush _ _ _ then _ else _).
    set (st' := loopBody maxTokens overlapTokens st s).
    assert (currentChunk st' <> []) as Hne.
    { unfold st', loopBody. simpl. by intros [_ ?]%app_eq_nil. }
    destruct (IH gs' st' (S n)) as [Hlen Hcur].
    + destruct (currentChunk st') eqn:E; [done|]. simpl.
      unfold gs'. destruct (mustFlush _ _ _) eqn:Ef.
      * unfold mustFlush in Ef. apply andb_true_iff in Ef as [_ Ef].
        rewrite Ef in H. rewrite length_app. simpl in *. lia.
      * destruct (0 <? length (currentChunk st))%nat; simpl in *; lia.
    + split; [simpl; lia|]. intros _. destruct l; [exact Hne|by apply Hcur].
Qed.

Lemma sentenceGroups_count sentences :
  (length (sentenceGroups maxTokens overlapTokens sentences)
   <= length sentences)%nat
  /\ (sentences <> [] ->
      sentenceGroups maxTokens overlapTokens sentences <> []).
Proof.
  unfold sentenceGroups.
  destruct (trace_count sentences [] loopInit 0 ltac:(simpl; lia))
    as [Hlen Hne].
  destruct (foldl (traceBody maxTokens overlapTokens) ([], loopInit) sentences)
    as [gs st].
  simpl in *. destruct (currentChunk st) as [|s0 cur]; simpl in *.
  - split; [lia|]. intros H. by destruct (Hne H).
  - rewrite length_app. simpl. split; [lia|]. by destruct gs.
Qed.

Lemma sentenceGroups_nonempty sentences :
  Forall (fun g => g <> []) (sentenceGroups maxTokens overlapTokens sentences).
Proof.
  unfold sentenceGroups.
  pose proof (traceInv_fold maxTokens overlapTokens sentences [] loopInit
                (traceInv_init overlapTokens)) as H.
  destruct (foldl (traceBody maxTokens overlapTokens) ([], loopInit) sentences)
    as [gs st].
  destruct H as [_ _ _ _ _ Hne]. simpl in *.
  destruct (currentChunk st) as [|s0 cur] eqn:E; simpl; [done|].
  apply Forall_app. split; [done|]. by constructor.
Qed.

End ChunkShapeLemmas.

Section ChunkCapLemmas.

Variables maxTokens overlapTokens : Z.

Implicit Types (g o : list jsstring) (st : Loop).

Lemma overlapOf_bound g :
  (overlapOf overlapTokens g).2 <= Z.max 0 overlapTokens.
Proof.
  destruct (overlapOf_isOverlap overlapTokens g) as [(_ & Hle & _) Hn].
  rewrite Hn. destruct (overlapOf overlapTokens g).1 as [|s o] eqn:E.
  - simpl. lia.
  - specialize (Hle ltac:(done)). lia.
Qed.

Lemma cap_step st sentence :
  estimateTokenCount sentence + Z.max 0 overlapTokens <= maxTokens ->
  currentTokenCount st <= maxTokens ->
  Forall (fun c => tokenCount c <= maxTokens) (chunks st) ->
  currentTokenCount st = tokensOf (currentChunk st) ->
  let st' := loopBody maxTokens overlapTokens st sentence in
  currentTokenCount st' <= maxTokens
  /\ Forall (fun c => tokenCount c <= maxTokens) (chunks st')
  /\ currentTokenCount st' = tokensOf (currentChunk st').
Proof.
  intros Hs Hc Hall Hn. unfold loopBody. simpl.
  destruct (mustFlush maxTokens st (estimateTokenCount sentence)) eqn:E.
  - unfold flush. pose proof (overlapOf_bound (currentChunk st)) as Hb.
    destruct (overlapOf_isOverlap overlapTokens (currentChunk st)) as [_ Ho].
    destruct (overlapOf overlapTokens (currentChunk st)) as [o n].
    simpl in *. split; [lia|]. split.
    + apply Forall_app. split; [done|]. by constructor.
    + rewrite tokensOf_app, Ho. simpl. lia.
  - split; [|split; [done|]].
    + unfold mustFlush in E. apply andb_false_iff in E as [E|E].
      * apply Z.ltb_ge in E. lia.
      * apply Nat.ltb_ge in E. destruct (currentChunk st); [|simpl in E; lia].
        simpl in Hn. lia.
    + rewrite tokensOf_app. simpl. lia.
Qed.

Lemma cap_fold sentences st :
  Forall (fun s => estimateTokenCount s + Z.max 0 overlapTokens <= maxTokens)
    sentences ->
  currentTokenCount st <= maxTokens ->
  Forall (fun c => tokenCount c <= maxTokens) (chunks st) ->
  currentTokenCount st = tokensOf (currentChunk st) ->
  let st' := foldl (loopBody maxTokens overlapTokens) st sentences in
  currentTokenCount st' <= maxTokens
  /\ Forall (fun c => tokenCount c <= maxTokens) (chunks st').
Proof.
  revert st. induction sentences as [|s l IH]; intros st Hs Hc Hall Hn.
  - by split.
  - apply Forall_cons in Hs as [Hs Hl]. cbn [foldl].
    destruct (cap_step st s Hs Hc Hall Hn) as (? & ? & ?). by apply IH.
Qed.

Lemma chunkSentences_cap sentences :
  Forall (fun s => estimateTokenCount s + Z.max 0 overlapTokens <= maxTokens)
    sentences ->
  Forall (fun c => tokenCount c <= maxTokens)
    (chunkSentences maxTokens overlapTokens sentences).
Proof.
  intros Hs. destruct sentences as [|s l]; [by constructor|].
  unfold chunkSentences.
  destruct (cap_fold (s :: l) loopInit Hs) as [Hc Hall]; [|done..|].
  - apply Forall_cons in Hs as [Hs _].
    pose proof (estimateTokenCount_nonneg s). simpl. lia.
  - unfold lastChunk. destruct (0 <? length _)%nat; [|done].
    apply Forall_app. split; [done|]. by constructor.
Qed.

(** With a bound below 1 nothing is carried over. *)
Lemma overlapOf_none g :
  overlapTokens < 1 -> Forall (fun s => s <> []) g ->
  (overlapOf overlapTokens g).1 = [].
Proof.
  intros Hov Hg. unfold overlapOf.
  destruct (reverse g) as [|s r] eqn:E; [done|]. simpl.
  assert (s <> []) as Hs.
  { rewrite Forall_forall in Hg. apply Hg.
    apply elem_of_reverse. rewrite E. by left. }
  assert (1 <= estimateTokenCount s).
  { pose proof (estimateTokenCount_ceil s). destruct s; [done|].
    simpl length in *. lia. }
  destruct (0 + estimateTokenCount s <=? overlapTokens) eqn:El; [|done].
  apply Z.leb_le in El. lia.
Qed.

Lemma freshParts_concat prev (gs : list (list jsstring)) :
  overlapTokens < 1 ->
  Forall (fun s => s <> []) prev ->
  Forall (Forall (fun s => s <> [])) gs ->
  freshParts overlapTokens prev gs = concat gs.
Proof.
  intros Hov. revert prev. induction gs as [|g gs IH]; intros prev Hp Hg.
  - done.
  - apply Forall_cons in Hg as [Hg Hgs]. simpl.
    rewrite (overlapOf_none prev Hov Hp). simpl. f_equal. by apply IH.
Qed.

End ChunkCapLemmas.

Section ChunkTextLemmas.

Implicit Types (s t : jsstring) (g : list jsstring).

Lemma join_occurs sep g s : In s g -> occursIn s (join sep g).
Proof.
  induction g as [|x g IH]; [done|]. intros [->|H].
  - destruct g as [|y g].
    + exists [], []. simpl. by rewrite app_nil_r.
    + exists [], (sep ++ join sep (y :: g)). done.
  - destruct (IH H) as (pre & post & Hj). destruct g as [|y g]; [done|].
    exists (x ++ sep ++ pre), post.
    rewrite join_cons by done. rewrite Hj. by rewrite <- !app_assoc.
Qed.

Lemma joinSentences_occurs g s : In s g -> occursIn s (joinSentences g).
Proof.
  intros H. destruct (join_occurs (lit ". ") g s H) as (pre & post & Hj).
  exists pre, (post ++ lit "."). unfold joinSentences.
  rewrite Hj. by rewrite <- !app_assoc.
Qed.

Lemma joinSentences_shape g :
  g <> [] ->
  Forall (fun s => s <> [] /\ starts_blank s = false) g ->
  joinSentences g <> []
  /\ last (joinSentences g) = Some 46%N
  /\ starts_blank (joinSentences g) = false
  /\ ends_blank false (joinSentences g) = false.
Proof.
  intros Hg Hall. unfold joinSentences.
  change (lit ".") with [46%N]. split; [by intros [_ ?]%app_eq_nil|].
  split; [apply last_snoc|]. split; [|by rewrite ends_blank_app].
  destruct g as [|x g]; [done|]. apply Forall_cons in Hall as [[Hx Hb] _].
  destruct x as [|c x]; [done|]. by destruct g.
Qed.

(** On a text without a blank at either end the pieces of
    [split(/\s+/)] are the tokens. *)
Lemma wordCount_tokens t :
  t <> [] -> starts_blank t = false -> ends_blank false t = false ->
  wordCount (extractMetadata t) = length (wsTokens t).
Proof.
  intros Hne Hs He. simpl. unfold split, wsTokens.
  rewrite split_runs_length by done. rewrite He.
  destruct t as [|c t]; [done|]. simpl in *. rewrite Hs. simpl. lia.
Qed.

End ChunkTextLemmas.

(** ** Further properties of the chunker *)

(** X1: the sentences [splitIntoSentences] returns are never empty, have no
    blank at either end, contain none of the terminal characters [.], [!]
    and [?], and are each estimated to at least one token. *)
Theorem splitIntoSentences_clean :
  forall input,
    Forall (fun s =>
              s <> [] /\ starts_blank s = false /\ ends_blank false s = false
              /\ forallb (fun c => negb (is_terminal c)) s = true
              /\ 1 <= estimateTokenCount s)
      (splitIntoSentences input).
Proof.
  intros input. eapply Forall_impl; [apply splitIntoSentences_shape|].
  intros s (Hne & Hs & He & Ht). repeat (split; [done|]).
  pose proof (estimateTokenCount_ceil s). destruct s; [done|].
  simpl length in *. lia.
Qed.

(** X2: [chunkText] never returns more chunks than the text has sentences,
    and it returns none exactly when the text is made of blanks and terminal
    punctuation only (the empty text included). *)
Theorem chunkText_count :
  forall input maxTokens overlapTokens,
    (length (chunkText input maxTokens overlapTokens)
     <= length (splitIntoSentences input))%nat
    /\ (chunkText input maxTokens overlapTokens = []
        <-> Forall (fun c => is_ws c = true \/ is_terminal c = true) input).
Proof.
  intros input maxTokens overlapTokens. unfold chunkText.
  rewrite chunkSentences_groups, length_imap.
  destruct (sentenceGroups_count (default 500 maxTokens)
              (default 50 overlapTokens) (splitIntoSentences input))
    as [Hlen Hne].
  split; [done|]. rewrite <- splitIntoSentences_nil. split.
  - intros H. destruct (splitIntoSentences input) as [|s l]; [done|].
    destruct (sentenceGroups _ _ _); [|done]. by destruct Hne.
  - by intros ->.
Qed.

(** X3: no sentence is lost or repeated beyond the overlaps: the first
    chunk's sentences followed by what every later chunk adds after the
    overlap it carries over are exactly the sentences of the text, in
    order; so every sentence occurs whole in the text of some chunk. *)
Theorem chunkText_covers_sentences :
  forall input maxTokens overlapTokens,
    withoutOverlaps (default 50 overlapTokens)
      (sentenceGroups (default 500 maxTokens) (default 50 overlapTokens)
         (splitIntoSentences input))
    = splitIntoSentences input
    /\ forall s,
         In s (splitIntoSentences input) ->
         exists i g,
           sentenceGroups (default 500 maxTokens) (default 50 overlapTokens)
             (splitIntoSentences input) !! i = Some g
           /\ In s g
           /\ chunkText input maxTokens overlapTokens !! i
              = Some (chunkOf i g)
           /\ occursIn s (text (chunkOf i g)).
Proof.
  intros input maxTokens overlapTokens.
  pose proof (sentenceGroups_cover (default 500 maxTokens)
                (default 50 overlapTokens) (splitIntoSentences input)) as Hc.
  split; [exact Hc|]. intros s Hs. rewrite <- Hc in Hs.
  apply withoutOverlaps_members in Hs as (g & Hg & Hsg).
  apply list_elem_of_In, list_elem_of_lookup in Hg as [i Hi].
  exists i, g. split; [done|]. split; [done|]. split.
  - unfold chunkText. by rewrite chunkSentences_groups, list_lookup_imap, Hi.
  - by apply joinSentences_occurs.
Qed.

(** X4: when every sentence, together with the largest overlap that can be
    carried over, fits under [maxTokens], no chunk reports more than
    [maxTokens] tokens. *)
Theorem chunkText_respects_maxTokens :
  forall input maxTokens overlapTokens,
    Forall (fun s =>
              estimateTokenCount s + Z.max 0 (default 50 overlapTokens)
              <= default 500 maxTokens)
      (splitIntoSentences input) ->
    Forall (fun c => tokenCount c <= default 500 maxTokens)
      (chunkText input maxTokens overlapTokens).
Proof.
  intros input maxTokens overlapTokens H. by apply chunkSentences_cap.
Qed.

Lemma chunkText_respects_maxTokens_witness :
  (1 < length (chunkText twenty_sentences (Some 100%Z) (Some 20%Z)))%nat
  /\ Forall (fun c => tokenCount c <= 100)
       (chunkText twenty_sentences (Some 100) (Some 20)).
Proof.
  split; [apply Nat.ltb_lt; vm_compute; reflexivity|].
  apply (chunkText_respects_maxTokens twenty_sentences (Some 100) (Some 20)).
  apply Forall_forall. intros s Hs.
  apply list_elem_of_In in Hs. vm_compute in Hs.
  repeat (destruct Hs as [<-|Hs]; [vm_compute; discriminate|]). done.
Defined.

(** X5: a text with a single sentence gives a single chunk, that sentence
    followed by a period, with index 0, whatever [maxTokens] is: a sentence
    above the cap is kept whole. *)
Theorem chunkText_single_sentence :
  forall input maxTokens overlapTokens s,
    splitIntoSentences input = [s] ->
    chunkText input maxTokens overlapTokens
    = [ {| text := s ++ lit "."; index := 0;
           tokenCount := estimateTokenCount s |} ].
Proof.
  intros input maxTokens overlapTokens s H. unfold chunkText. rewrite H.
  unfold chunkSentences. cbn [foldl]. unfold loopBody, mustFlush.
  cbn [currentChunk loopInit length]. rewrite andb_false_r. done.
Qed.

Lemma chunkText_single_sentence_witness :
  splitIntoSentences long_sentence
    = [lit "This single sentence is much longer than the cap"]
  /\ chunkText long_sentence (Some 2) (Some 1)
     = [ {| text := lit "This single sentence is much longer than the cap"
                    ++ lit ".";
            index := 0;
            tokenCount :=
              estimateTokenCount
                (lit "This single sentence is much longer than the cap") |} ].
Proof.
  assert (splitIntoSentences long_sentence
          = [lit "This single sentence is much longer than the cap"]) as H
    by reflexivity.
  split; [exact H|].
  exact (chunkText_single_sentence long_sentence (Some 2) (Some 1) _ H).
Defined.

(** X6: with an overlap bound below 1 nothing is carried over: the chunks'
    sentence lists, one after the other, are exactly the sentences of the
    text, each sentence in one chunk only. *)
Theorem chunkText_without_overlap_partitions :
  forall input maxTokens overlapTokens,
    overlapTokens < 1 ->
    concat (sentenceGroups (default 500 maxTokens) overlapTokens
              (splitIntoSentences input))
    = splitIntoSentences input
    /\ chunkText input maxTokens (Some overlapTokens)
       = imap chunkOf
           (sentenceGroups (default 500 maxTokens) overlapTokens
              (splitIntoSentences input)).
Proof.
  intros input maxTokens overlapTokens Hov. split.
  - pose proof (sentenceGroups_cover (default 500 maxTokens) overlapTokens
                  (splitIntoSentences input)) as Hc.
    pose proof (sentenceGroups_members (default 500 maxTokens) overlapTokens
                  (fun s => s <> []) (splitIntoSentences input)) as Hm.
    destruct (sentenceGroups _ _ _) as [|g gs]; [done|].
    rewrite <- Hc. simpl.
    assert (Forall (Forall (fun s : jsstring => s <> [])) (g :: gs)) as Hall.
    { apply Hm. eapply Forall_impl; [apply splitIntoSentences_shape|].
      by intros s [? _]. }
    apply Forall_cons in Hall as [Hg Hgs].
    by rewrite (freshParts_concat overlapTokens g gs Hov Hg Hgs).
  - apply chunkSentences_groups.
Qed.

Lemma chunkText_without_overlap_partitions_witness :
  0 < 1
  /\ concat (sentenceGroups 8 0 (splitIntoSentences three_sentences))
     = splitIntoSentences three_sentences
  /\ chunkText three_sentences (Some 8) (Some 0)
     = imap chunkOf (sentenceGroups 8 0 (splitIntoSentences three_sentences)).
Proof.
  split; [lia|].
  apply (chunkText_without_overlap_partitions three_sentences (Some 8) 0).
  lia.
Defined.

(** X7: the text of every chunk is non-empty, starts with a character that
    is not blank and ends with a period, so that [extractMetadata] counts
    on it exactly its whitespace-delimited tokens. *)
Theorem chunkText_texts_are_sentences_joined :
  forall input maxTokens overlapTokens,
    Forall (fun c =>
              text c <> []
              /\ starts_blank (text c) = false
              /\ last (text c) = Some 46%N
              /\ wordCount (extractMetadata (text c))
                 = length (wsTokens (text c)))
      (chunkText input maxTokens overlapTokens).
Proof.
  intros input maxTokens overlapTokens. unfold chunkText.
  rewrite chunkSentences_groups. apply Forall_forall. intros c Hc.
  apply list_elem_of_lookup in Hc as [i Hc].
  rewrite list_lookup_imap in Hc.
  destruct (sentenceGroups _ _ _ !! i) as [g|] eqn:Hg; [|done].
  injection Hc as <-. cbn [text chunkOf].
  pose proof (sentenceGroups_nonempty (default 500 maxTokens)
                (default 50 overlapTokens) (splitIntoSentences input)) as Hne.
  pose proof (sentenceGroups_members (default 500 maxTokens)
                (default 50 overlapTokens)
                (fun s => s <> [] /\ starts_blank s = false)
                (splitIntoSentences input)) as Hm.
  eapply Forall_lookup_1 in Hne; [|exact Hg].
  eapply Forall_lookup_1 in Hm; [| |exact Hg].
  - destruct (joinSentences_shape g Hne Hm) as (H1 & H2 & H3 & H4).
    repeat (split; [done|]). by apply wordCount_tokens.
  - eapply Forall_impl; [apply splitIntoSentences_shape|].
    by intros s (? & ? & _).
Qed.

(** ** Further properties of [normalizeText] *)

Section NormalizeShapeLemmas.

Implicit Types (s t u p k cur : jsstring) (c : N) (b : bool).

Lemma replace_runs_length b t :
  (length (replace_runs is_ws [SPACE] b t) <= length t)%nat.
Proof.
  revert b. induction t as [|c t IH]; intros b; simpl; [done|].
  destruct (is_ws c); [destruct b|]; simpl;
    [specialize (IH true) | specialize (IH true) | specialize (IH false)];
    lia.
Qed.

Lemma trim_length s : (length (trim s) <= length s)%nat.
Proof.
  destruct (trim_infix s) as (k1 & k2 & H & _ & _).
  rewrite H at 2. rewrite !length_app. lia.
Qed.

Lemma tidy_blanks_are_spaces b u :
  tidy b u = true -> Forall (fun c => is_ws c = true -> c = SPACE) u.
Proof.
  revert b. induction u as [|c u IH]; intros b H; [constructor|].
  destruct (is_ws c) eqn:E.
  - destruct (tidy_cons_blank _ _ _ E H) as (-> & _ & H').
    constructor; [done|by apply (IH true)].
  - rewrite (tidy_cons_other _ _ _ E) in H.
    constructor; [by rewrite E|by apply (IH false)].
Qed.

Lemma tidy_no_double_space b pre post :
  tidy b (pre ++ SPACE :: SPACE :: post) = false.
Proof.
  revert b. induction pre as [|c pre IH]; intros b; simpl.
  - by rewrite andb_false_r.
  - destruct (is_ws c); [|apply IH]. by rewrite IH, andb_false_r.
Qed.

Lemma replace_runs_blank b t :
  forallb is_ws (replace_runs is_ws [SPACE] b t) = forallb is_ws t.
Proof.
  revert b. induction t as [|c t IH]; intros b; simpl; [done|].
  destruct (is_ws c) eqn:E; simpl.
  - destruct b; simpl; by rewrite IH.
  - by rewrite E.
Qed.

Lemma normalizeText_nil t :
  normalizeText t = [] <-> forallb is_ws t = true.
Proof.
  rewrite normalizeText_unfold, trim_nil. by rewrite replace_runs_blank.
Qed.

(** *** Normalising and splitting into sentences *)

Lemma ws_not_terminal c : is_ws c = true -> is_terminal c = false.
Proof.
  unfold is_terminal. intros H.
  destruct (c =? 46)%N eqn:E1; [apply N.eqb_eq in E1; by subst|].
  destruct (c =? 33)%N eqn:E2; [apply N.eqb_eq in E2; by subst|].
  destruct (c =? 63)%N eqn:E3; [apply N.eqb_eq in E3; by subst|]. done.
Qed.

Lemma replace_runs_snoc b cur c :
  replace_runs is_ws [SPACE] b (cur ++ [c])
  = replace_runs is_ws [SPACE] b cur
    ++ (if is_ws c then if ends_blank b cur then [] else [SPACE] else [c]).
Proof.
  revert b. induction cur as [|d cur IH]; intros b; simpl.
  - destruct (is_ws c); [by destruct b|done].
  - destruct (is_ws d) eqn:E.
    + destruct b; by rewrite IH.
    + by rewrite IH.
Qed.

(** Splitting the collapsed text gives the collapsed pieces. *)
Lemma split_replace cur it t :
  (it = true -> cur = []) ->
  split_runs is_terminal (replace_runs is_ws [SPACE] false cur) it
    (replace_runs is_ws [SPACE] (ends_blank false cur) t)
  = map (replace_runs is_ws [SPACE] false) (split_runs is_terminal cur it t).
Proof.
  revert cur it. induction t as [|c t IH]; intros cur it Hit; [done|].
  destruct (is_ws c) eqn:E.
  - pose proof (ws_not_terminal c E) as Et.
    cbn [split_runs replace_runs]. rewrite E, Et.
    rewrite <- (IH (cur ++ [c]) false) by done.
    rewrite replace_runs_snoc, E, ends_blank_app, E.
    destruct (ends_blank false cur) eqn:Eb.
    + rewrite app_nil_r. destruct it; [|done].
      rewrite (Hit eq_refl) in Eb. done.
    + cbn [split_runs]. change (is_terminal SPACE) with false. done.
  - cbn [split_runs replace_runs]. rewrite E. cbn [split_runs].
    destruct (is_terminal c) eqn:Et.
    + destruct it.
      * apply (IH [] true). done.
      * cbn [map]. f_equal. apply (IH [] true). done.
    + rewrite <- (IH (cur ++ [c]) false) by done.
      by rewrite replace_runs_snoc, E, ends_blank_app, E.
Qed.

Lemma dropWhile_app_all {A} (q : A -> bool) (k y : list A) :
  forallb q k = true -> dropWhile q (k ++ y) = dropWhile q y.
Proof.
  induction k as [|x k IH]; simpl; [done|].
  intros [-> H]%andb_true_iff. by apply IH.
Qed.

(** [trim] returns the one trimmed text between two runs of blanks. *)
Lemma trim_unique k1 x k2 :
  forallb is_ws k1 = true -> forallb is_ws k2 = true ->
  starts_blank x = false -> ends_blank false x = false ->
  trim (k1 ++ x ++ k2) = x.
Proof.
  intros H1 H2 Hs He. unfold trim, trimStart.
  rewrite (dropWhile_app_all _ _ _ H1).
  destruct x as [|c x].
  - simpl. apply trim_blank in H2. unfold trim, trimStart in H2. exact H2.
  - change (dropWhile is_ws ((c :: x) ++ k2)) with (trimStart ((c :: x) ++ k2)).
    rewrite trimStart_id by done. unfold trimEnd.
    rewrite reverse_app, dropWhile_app_all by (by rewrite forallb_reverse).
    by apply trimEnd_id.
Qed.

Lemma trim_app_blank_l k p : forallb is_ws k = true -> trim (k ++ p) = trim p.
Proof.
  intros Hk. destruct (trim_infix p) as (k1 & k2 & Hp & P1 & P2).
  rewrite Hp at 1. rewrite app_assoc.
  apply trim_unique; [by rewrite forallb_app, Hk, P1|done|..].
  - apply trim_starts.
  - apply trim_ends.
Qed.

Lemma trim_app_blank_r p k : forallb is_ws k = true -> trim (p ++ k) = trim p.
Proof.
  intros Hk. destruct (trim_infix p) as (k1 & k2 & Hp & P1 & P2).
  rewrite Hp at 1. rewrite <- !app_assoc.
  apply trim_unique; [done|by rewrite forallb_app, P2, Hk|..].
  - apply trim_starts.
  - apply trim_ends.
Qed.

Lemma split_runs_blank_prefix cur k y :
  forallb is_ws k = true ->
  split_runs is_terminal cur false (k ++ y)
  = split_runs is_terminal (cur ++ k) false y.
Proof.
  revert cur. induction k as [|c k IH]; intros cur H; simpl.
  - by rewrite app_nil_r.
  - apply andb_true_iff in H as [Hc H]. rewrite (ws_not_terminal c Hc).
    rewrite IH by done. by rewrite <- app_assoc.
Qed.

Lemma split_trim_prefix k cur y :
  forallb is_ws k = true ->
  map trim (split_runs is_terminal (k ++ cur) false y)
  = map trim (split_runs is_terminal cur false y).
Proof.
  intros Hk. revert cur. induction y as [|c y IH]; intros cur;
    cbn [split_runs map].
  - by rewrite trim_app_blank_l.
  - destruct (is_terminal c); cbn [map].
    + by rewrite trim_app_blank_l.
    + rewrite <- app_assoc. apply IH.
Qed.

Lemma split_runs_blank_only cur b k :
  forallb is_ws k = true -> split_runs is_terminal cur b k = [cur ++ k].
Proof.
  revert cur b. induction k as [|c k IH]; intros cur b H; cbn [split_runs].
  - by rewrite app_nil_r.
  - simpl in H. apply andb_true_iff in H as [Hc H].
    rewrite (ws_not_terminal c Hc), IH by done. by rewrite <- app_assoc.
Qed.

Lemma split_trim_suffix cur b x k :
  forallb is_ws k = true ->
  map trim (split_runs is_terminal cur b (x ++ k))
  = map trim (split_runs is_terminal cur b x).
Proof.
  intros Hk. revert cur b. induction x as [|c x IH]; intros cur b.
  - rewrite app_nil_l, split_runs_blank_only by done. cbn [split_runs map].
    by rewrite trim_app_blank_r.
  - rewrite <- app_comm_cons. cbn [split_runs].
    destruct (is_terminal c); [destruct b|]; cbn [map]; by rewrite IH.
Qed.

Lemma sentences_of_normalized_pieces (l : list jsstring) :
  filter (fun s => (0 < length s)%nat) (map normalizeText l)
  = map normalizeText (filter (fun s => (0 < length s)%nat) (map trim l)).
Proof.
  induction l as [|p l IH]; [done|]. simpl. rewrite !filter_cons.
  assert (normalizeText (trim p) = normalizeText p) as Hn.
  { by rewrite !normalizeText_tokens, wsTokens_trim. }
  destruct (forallb is_ws p) eqn:E.
  - rewrite (proj2 (normalizeText_nil p) E), (proj2 (trim_nil p) E). done.
  - assert (normalizeText p <> []) as N1
      by (rewrite normalizeText_nil; congruence).
    assert (trim p <> []) as N2 by (rewrite trim_nil; congruence).
    rewrite decide_True by (destruct (normalizeText p); [done|simpl; lia]).
    rewrite decide_True by (destruct (trim p); [done|simpl; lia]).
    simpl. by rewrite Hn, IH.
Qed.

Lemma splitIntoSentences_normalizeText t :
  splitIntoSentences (normalizeText t)
  = map normalizeText (splitIntoSentences t).
Proof.
  unfold splitIntoSentences at 1 2. rewrite <- sentences_of_normalized_pieces.
  f_equal. rewrite normalizeText_unfold.
  destruct (trim_infix (replace_runs is_ws [SPACE] false t))
    as (k1 & k2 & Hk & P1 & P2).
  unfold split.
  transitivity (map trim (split_runs is_terminal [] false
                            (replace_runs is_ws [SPACE] false t))).
  - rewrite Hk at 2.
    rewrite split_runs_blank_prefix by done.
    rewrite <- (app_nil_r ([] ++ k1)), split_trim_prefix by done.
    by rewrite split_trim_suffix.
  - pose proof (split_replace [] false t ltac:(done)) as Hs.
    cbn [replace_runs ends_blank] in Hs. rewrite Hs, map_map.
    apply map_ext. intros p. by rewrite normalizeText_unfold.
Qed.

End NormalizeShapeLemmas.

(** X8: the result of [normalizeText] is never longer than its input, its
    only blanks are U+0020 spaces (no tab, no newline), and no two spaces
    are next to each other. *)
Theorem normalizeText_single_spaces :
  forall t,
    (length (normalizeText t) <= length t)%nat
    /\ Forall (fun c => is_ws c = true -> c = SPACE) (normalizeText t)
    /\ forall pre post,
         normalizeText t <> pre ++ [SPACE; SPACE] ++ post.
Proof.
  intros t. split; [|split].
  - rewrite normalizeText_unfold.
    pose proof (trim_length (replace_runs is_ws [SPACE] false t)).
    pose proof (replace_runs_length false t). lia.
  - apply tidy_blanks_are_spaces with false, normalizeText_tidy.
  - intros pre post H. pose proof (normalizeText_tidy t) as Ht.
    rewrite H in Ht. simpl in Ht.
    by rewrite tidy_no_double_space in Ht.
Qed.

(** X9: [normalizeText] returns the empty string exactly on the texts made
    of blanks only, the empty text included. *)
Theorem normalizeText_empty_iff_blank :
  forall t, normalizeText t = [] <-> Forall (fun c => is_ws c = true) t.
Proof.
  intros t. rewrite normalizeText_nil, forallb_forall, Forall_forall.
  split; intros H c Hc; apply H; by apply list_elem_of_In.
Qed.

(** X10: normalising a text and then splitting it into sentences gives the
    sentences of the text, each normalised: normalisation changes nothing
    to where the sentences are cut. *)
Theorem splitIntoSentences_after_normalizeText :
  forall t,
    splitIntoSentences (normalizeText t)
    = map normalizeText (splitIntoSentences t).
Proof. apply splitIntoSentences_normalizeText. Qed.

(** ** What [hasUrl] and [hasEmail] detect *)

Section PatternLemmas.

Implicit Types (s t p r pre suf mid post : jsstring) (c a b : N).

Lemma starts_with_spec p s r : starts_with p s = Some r <-> s = p ++ r.
Proof.
  revert s. induction p as [|a p IH]; intros s; simpl.
  - split; [by intros [= ->]|by intros ->].
  - destruct s as [|b s]; [by split|].
    destruct (a =? b)%N eqn:E.
    + apply N.eqb_eq in E as ->. rewrite IH. split; [by intros ->|].
      by intros [= ->].
    + apply N.eqb_neq in E. split; [done|]. intros [= <- _]. done.
Qed.

Lemma test_anywhere_spec (f : jsstring -> bool) s :
  test_anywhere f s = true <-> exists pre suf, s = pre ++ suf /\ f suf = true.
Proof.
  induction s as [|c s IH].
  - simpl. rewrite orb_false_r. split.
    + intros H. by exists [], [].
    + intros (pre & suf & H & Hf). symmetry in H.
      by apply app_eq_nil in H as [_ ->].
  - cbn [test_anywhere]. rewrite orb_true_iff, IH. split.
    + intros [H|(pre & suf & -> & Hf)].
      * by exists [], (c :: s).
      * by exists (c :: pre), suf.
    + intros (pre & suf & H & Hf). destruct pre as [|d pre].
      * left. simpl in H. by rewrite H.
      * right. injection H as <- ->. by exists pre, suf.
Qed.

Lemma next_is_nonspace_spec r :
  next_is_nonspace r = true <-> exists c post, r = c :: post /\ is_ws c = false.
Proof.
  destruct r as [|c r]; simpl.
  - split; [done|]. by intros (? & ? & ? & _).
  - rewrite negb_true_iff. split; [by exists c, r|].
    by intros (? & ? & [= <- <-] & ?).
Qed.

Lemma url_here_spec s :
  url_here s = true
  <-> exists c post,
        is_ws c = false
        /\ (s = lit "http://" ++ c :: post \/ s = lit "https://" ++ c :: post).
Proof.
  unfold url_here. split.
  - destruct (starts_with (lit "http://") s) as [r|] eqn:E.
    + apply starts_with_spec in E as ->.
      intros (c & post & -> & Hc)%next_is_nonspace_spec.
      exists c, post. by split; [|left].
    + destruct (starts_with (lit "https://") s) as [r|] eqn:E'; [|done].
      apply starts_with_spec in E' as ->.
      intros (c & post & -> & Hc)%next_is_nonspace_spec.
      exists c, post. by split; [|right].
  - intros (c & post & Hc & [-> | ->]).
    + rewrite (proj2 (starts_with_spec _ _ (c :: post)) eq_refl).
      simpl. by rewrite Hc.
    + change (starts_with (lit "http://") (lit "https://" ++ c :: post))
        with (@None jsstring).
      rewrite (proj2 (starts_with_spec _ _ (c :: post)) eq_refl).
      simpl. by rewrite Hc.
Qed.

Lemma dotted_run_spec seen s :
  dotted_run seen s = true
  <-> exists mid b post,
        s = mid ++ 46%N :: b :: post
        /\ forallb (fun c => negb (is_ws c)) mid = true
        /\ (seen = false -> mid <> [])
        /\ is_ws b = false.
Proof.
  revert seen. induction s as [|c s IH]; intros seen.
  - simpl. split; [done|]. intros (mid & b & post & H & _).
    by destruct mid.
  - cbn [dotted_run]. destruct (is_ws c) eqn:E.
    + split; [done|]. intros (mid & b & post & H & Hm & _).
      destruct mid as [|d mid]; injection H as -> ->; [done|].
      simpl in Hm. by rewrite E in Hm.
    + rewrite orb_true_iff, IH. split.
      * intros [H|(mid & b & post & -> & Hm & _ & Hb)].
        -- apply andb_true_iff in H as [[-> ->%N.eqb_eq]%andb_true_iff H].
           apply next_is_nonspace_spec in H as (b & post & -> & Hb).
           by exists [], b, post.
        -- exists (c :: mid), b, post. simpl. by rewrite E, Hm.
      * intros (mid & b & post & H & Hm & Hs & Hb).
        destruct mid as [|d mid]; injection H as -> ->.
        -- left. destruct seen; [|by destruct Hs]. simpl. by rewrite Hb.
        -- right. exists mid, b, post. simpl in Hm.
           apply andb_true_iff in Hm as [_ Hm]. done.
Qed.

Lemma email_scan_spec prev s :
  email_scan prev s = true
  <-> (prev = true /\ exists r, s = 64%N :: r /\ dotted_run false r = true)
      \/ exists pre a r,
           s = pre ++ a :: 64%N :: r /\ is_ws a = false
           /\ dotted_run false r = true.
Proof.
  revert prev. induction s as [|c s IH]; intros prev.
  - simpl. split; [done|].
    intros [(_ & r & H & _)|(pre & a & r & H & _)]; [done|by destruct pre].
  - cbn [email_scan]. rewrite orb_true_iff, IH. split.
    + intros [H|[(Hc & r & -> & Hd)|(pre & a & r & -> & Ha & Hd)]].
      * apply andb_true_iff in H as [[-> ->%N.eqb_eq]%andb_true_iff H].
        left. split; [done|]. by exists s.
      * right. exists [], c, r. apply negb_true_iff in Hc. done.
      * right. by exists (c :: pre), a, r.
    + intros [(-> & r & [= -> ->] & Hd)|(pre & a & r & H & Ha & Hd)].
      * left. simpl. by rewrite Hd.
      * right. destruct pre as [|d pre]; injection H as -> ->.
        -- left. rewrite Ha. split; [done|]. by exists r.
        -- right. by exists pre, a, r.
Qed.

End PatternLemmas.

(** X11: [hasUrl] is true exactly when the text contains [http://] or
    [https://] (in lower case) immediately followed by a character that is
    not blank. *)
Theorem hasUrl_iff :
  forall t,
    hasUrl (extractMetadata t) = true
    <-> exists pre c post,
          is_ws c = false
          /\ (t = pre ++ lit "http://" ++ c :: post
              \/ t = pre ++ lit "https://" ++ c :: post).
Proof.
  intros t. cbn [hasUrl extractMetadata]. rewrite test_anywhere_spec. split.
  - intros (pre & suf & -> & (c & post & Hc & H)%url_here_spec).
    exists pre, c, post. split; [done|]. destruct H as [->| ->]; tauto.
  - intros (pre & c & post & Hc & H).
    destruct H as [->| ->]; eexists pre, _; (split; [done|]);
      apply url_here_spec; exists c, post; tauto.
Qed.

(** X12: [hasEmail] is true exactly when the text contains an [@] that has
    a non-blank character just before it and is followed by one or more
    non-blank characters, a period and one more non-blank character. *)
Theorem hasEmail_iff :
  forall t,
    hasEmail (extractMetadata t) = true
    <-> exists pre a mid b post,
          t = pre ++ [a] ++ lit "@" ++ mid ++ lit "." ++ [b] ++ post
          /\ is_ws a = false
          /\ mid <> []
          /\ forallb (fun c => negb (is_ws c)) mid = true
          /\ is_ws b = false.
Proof.
  intros t. cbn [hasEmail extractMetadata]. rewrite email_scan_spec. split.
  - intros [[? _]|(pre & a & r & -> & Ha & Hd)]; [done|].
    apply dotted_run_spec in Hd as (mid & b & post & -> & Hm & Hne & Hb).
    exists pre, a, mid, b, post.
    split; [done|]. split; [done|]. split; [by apply Hne|]. by split.
  - intros (pre & a & mid & b & post & -> & Ha & Hne & Hm & Hb).
    right. exists pre, a, (mid ++ 46%N :: b :: post).
    split; [done|]. split; [done|].
    apply dotted_run_spec. by exists mid, b, post.
Qed.

(** ** Deleting and counting memories *)

Section StoreLemmas.

Variable env : Env.
Variable config : Config.

Implicit Types (w : World) (m : gmap jsstring Point).
Implicit Types (kps : list (jsstring * Point)) (ids : list jsstring).

Lemma owned_after_delete_filter u m :
  filter (fun kp : jsstring * Point => payloadUserId (payload kp.2) = u)
    (filter (fun kp : jsstring * Point => payloadUserId (payload kp.2) <> u)
       m)
  = ∅.
Proof.
  apply map_empty. intros k. apply map_lookup_filter_None. right.
  intros p Hp Hown. by apply map_lookup_filter_Some in Hp as [_ Hn].
Qed.

Lemma others_after_delete_filter u v m :
  v <> u ->
  filter (fun kp : jsstring * Point => payloadUserId (payload kp.2) = v)
    (filter (fun kp : jsstring * Point => payloadUserId (payload kp.2) <> u)
       m)
  = filter (fun kp : jsstring * Point => payloadUserId (payload kp.2) = v) m.
Proof.
  intros Hv. apply map_eq. intros k. apply option_eq. intros p.
  rewrite !map_lookup_filter_Some. cbn. split.
  - by intros [[? _] ?].
  - intros [? Hp]. repeat split; [done| |done]. by rewrite Hp.
Qed.

Lemma size_filter_le `{!forall kp, Decision (P kp)} m :
  (size (filter P m) <= size m)%nat.
Proof. apply map_subseteq_size, map_filter_subseteq. Qed.

Lemma written_lookup_fresh kps :
  forall m k, k ∉ kps.*1 -> written m kps !! k = m !! k.
Proof.
  induction kps as [|[k' p] kps IH]; intros m k Hk; [done|].
  cbn in Hk. apply not_elem_of_cons in Hk as [Hne Hk].
  unfold written. cbn [foldl]. fold (written (<[k' := p]> m) kps).
  rewrite IH by done. by apply lookup_insert_ne.
Qed.

Lemma written_lookup_key kps :
  forall m k, k ∈ kps.*1 -> is_Some (written m kps !! k).
Proof.
  induction kps as [|[k' p] kps IH]; intros m k Hk.
  { by apply elem_of_nil in Hk. }
  unfold written. cbn [foldl]. fold (written (<[k' := p]> m) kps).
  destruct (decide (k ∈ kps.*1)) as [Hin|Hout]; [by apply IH|].
  rewrite written_lookup_fresh by done.
  cbn in Hk. apply elem_of_cons in Hk as [-> | Hk]; [|done].
  cbn. rewrite lookup_insert_eq. by eexists.
Qed.

Lemma written_size kps :
  forall m,
    NoDup kps.*1 ->
    Forall (fun k => m !! k = None) kps.*1 ->
    size (written m kps) = (size m + length kps)%nat.
Proof.
  induction kps as [|[k p] kps IH]; intros m Hnd Hfresh.
  { cbn. lia. }
  cbn in Hnd, Hfresh. apply NoDup_cons in Hnd as [Hk Hnd].
  apply Forall_cons in Hfresh as [Hm Hfresh].
  unfold written. cbn [foldl]. fold (written (<[k := p]> m) kps).
  rewrite IH; [|done|].
  - cbn in Hm. rewrite map_size_insert_None by done. cbn. lia.
  - apply Forall_forall. intros k' Hk'.
    rewrite Forall_forall in Hfresh.
    rewrite lookup_insert_ne; [by apply Hfresh|].
    cbn. by intros ->.
Qed.

Lemma written_count u kps :
  forall m,
    NoDup kps.*1 ->
    Forall (fun k => m !! k = None) kps.*1 ->
    Forall (fun kp => payloadUserId (payload kp.2) = u) kps ->
    size (filter (fun kp : jsstring * Point =>
                    payloadUserId (payload kp.2) = u) (written m kps))
    = (size (filter (fun kp : jsstring * Point =>
                       payloadUserId (payload kp.2) = u) m)
       + length kps)%nat.
Proof.
  induction kps as [|[k p] kps IH]; intros m Hnd Hfresh Hown.
  { cbn. lia. }
  cbn in Hnd, Hfresh. apply NoDup_cons in Hnd as [Hk Hnd].
  apply Forall_cons in Hfresh as [Hm Hfresh].
  apply Forall_cons in Hown as [Hp Hown].
  unfold written. cbn [foldl]. fold (written (<[k := p]> m) kps).
  rewrite IH; [|done| |done].
  - cbn in Hm, Hp. cbn [fst snd].
    rewrite map_filter_insert_True by done.
    rewrite map_size_insert_None; [cbn; lia|].
    apply map_lookup_filter_None. by left.
  - apply Forall_forall. intros k' Hk'.
    rewrite Forall_forall in Hfresh.
    rewrite lookup_insert_ne; [by apply Hfresh|].
    cbn. by intros ->.
Qed.

Lemma deleteEach_run ids :
  forall w,
    exists w',
      deleteEach ids w = (w', Ok tt)
      /\ (forall k, collection w' !! k
                    = if decide (k ∈ ids) then None else collection w !! k)
      /\ embedCalls w' = embedCalls w /\ chatCalls w' = chatCalls w
      /\ uuidCalls w' = uuidCalls w /\ clockReads w' = clockReads w.
Proof.
  induction ids as [|i ids IH]; intros w.
  { exists w. split; [done|]. split; [|done]. intros k.
    rewrite decide_False; [done|]. apply not_elem_of_nil. }
  cbn [deleteEach]. unfold bind, deleteMemory, VectorStore.deleteMemory,
    VectorStore.client_delete_points. cbn [foldr].
  match goal with |- context [deleteEach ids ?w1] =>
    destruct (IH w1) as (w' & -> & Hk & He & Hc & Hu & Hr)
  end.
  exists w'. split; [done|]. cbn in He, Hc, Hu, Hr, Hk.
  split; [|done]. intros k. rewrite Hk.
  destruct (decide (k ∈ ids)) as [Hin|Hout].
  - rewrite decide_True; [done|]. by apply elem_of_cons; right.
  - destruct (decide (k = i)) as [-> | Hne].
    + rewrite decide_True by (apply elem_of_cons; by left).
      apply lookup_delete_eq.
    + rewrite decide_False.
      * by apply lookup_delete_ne.
      * intros [? | ?]%elem_of_cons; done.
Qed.

Lemma addChunks_reject userId md total chunk rest ids w v :
  ollama_embeddings env (embedCalls w) (cfgEmbeddingModel config) (text chunk)
    = Some v ->
  length v <> VectorStore.VECTOR_SIZE ->
  exists w',
    addChunks env config userId md total (chunk :: rest) ids w
    = (w', Throw QdrantFailure)
    /\ collection w' = collection w.
Proof.
  intros He Hl. cbn [addChunks].
  unfold bind, newUUID, generateEmbedding, now, VectorStore.addMemory,
    VectorStore.client_upsert.
  cbn [embedCalls vector]. rewrite He.
  apply Nat.eqb_neq in Hl. rewrite Hl. by eexists.
Qed.

(** What a successful run of the loop of [addMemory] wrote. *)
Lemma addChunks_ok userId md total rest :
  forall ids0 w w' ids,
    addChunks env config userId md total rest ids0 w = (w', Ok ids) ->
    exists ps,
      length ps = length rest
      /\ Forall (fun p => payloadUserId (payload p) = userId) ps
      /\ ids = ids0 ++ drawn env w (length rest)
      /\ collection w'
         = written (collection w) (zip (drawn env w (length rest)) ps)
      /\ Forall (fun p => exists chunk,
                   payloadMetadata (payload p)
                   = chunkMetadata md chunk total) ps.
Proof.
  induction rest as [|c rest IH]; intros ids0 w w' ids Hrun.
  { cbn in Hrun. injection Hrun as <- <-. exists [].
    repeat split; [done|by rewrite app_nil_r|done]. }
  destruct (ollama_embeddings env (embedCalls w) (cfgEmbeddingModel config)
              (text c)) as [v|] eqn:He.
  2:{ destruct (addChunks_stop env config userId md total c rest ids0 w He)
        as (w1 & Hstop & _).
      rewrite Hstop in Hrun. discriminate Hrun. }
  destruct (decide (length v = VectorStore.VECTOR_SIZE)) as [Hl|Hl].
  2:{ destruct (addChunks_reject userId md total c rest ids0 w v He Hl)
        as (w1 & Hstop & _).
      rewrite Hstop in Hrun. discriminate Hrun. }
  rewrite (addChunks_step env config _ _ _ _ _ _ _ _ He Hl) in Hrun.
  apply IH in Hrun as (ps & Hlen & Hown & -> & Hcoll & Hmd).
  exists (chunkPoint userId md total c v (dateNow env (clockReads w)) :: ps).
  cbn [length]. rewrite <- drawn_S with (userId := userId) (md := md)
    (total := total) (chunk := c) (v := v).
  split; [by rewrite Hlen|]. split; [by constructor|].
  split; [by rewrite <- app_assoc|].
  split; [by rewrite Hcoll|].
  constructor; [by exists c|done].
Qed.

Lemma drawn_length w n : length (drawn env w n) = n.
Proof. unfold drawn. by rewrite length_map, length_seq. Qed.

(** On any list of chunks but the empty one, the loop of [addMemory] calls
    the embedding model for the first chunk. *)
Lemma addChunks_embeds userId md total rest :
  forall ids0 w,
    (embedCalls w + (if rest is [] then 0 else 1)
     <= embedCalls (addChunks env config userId md total rest ids0 w).1)%nat.
Proof.
  induction rest as [|c rest IH]; intros ids0 w; [cbn; lia|].
  destruct (ollama_embeddings env (embedCalls w) (cfgEmbeddingModel config)
              (text c)) as [v|] eqn:He.
  2:{ cbn [addChunks]. unfold bind, newUUID, generateEmbedding.
      cbn [embedCalls]. rewrite He. cbn. lia. }
  destruct (decide (length v = VectorStore.VECTOR_SIZE)) as [Hl|Hl].
  2:{ cbn [addChunks].
      unfold bind, newUUID, generateEmbedding, now, VectorStore.addMemory,
        VectorStore.client_upsert.
      cbn [embedCalls vector]. rewrite He.
      apply Nat.eqb_neq in Hl. rewrite Hl. cbn. lia. }
  rewrite (addChunks_step env config _ _ _ _ _ _ _ _ He Hl).
  etrans; [|apply IH]. cbn. lia.
Qed.

(** On an empty list of chunks the loop of [addMemory] touches nothing; on
    any other it draws an identifier first. *)
Lemma addChunks_draws userId md total rest :
  forall ids0 w,
    (uuidCalls w + (if rest is [] then 0 else 1)
     <= uuidCalls (addChunks env config userId md total rest ids0 w).1)%nat.
Proof.
  induction rest as [|c rest IH]; intros ids0 w; [cbn; lia|].
  destruct (ollama_embeddings env (embedCalls w) (cfgEmbeddingModel config)
              (text c)) as [v|] eqn:He.
  2:{ cbn [addChunks]. unfold bind, newUUID, generateEmbedding.
      cbn [embedCalls]. rewrite He. cbn. lia. }
  destruct (decide (length v = VectorStore.VECTOR_SIZE)) as [Hl|Hl].
  2:{ cbn [addChunks].
      unfold bind, newUUID, generateEmbedding, now, VectorStore.addMemory,
        VectorStore.client_upsert.
      cbn [embedCalls vector]. rewrite He.
      apply Nat.eqb_neq in Hl. rewrite Hl. cbn. lia. }
  rewrite (addChunks_step env config _ _ _ _ _ _ _ _ He Hl).
  etrans; [|apply IH]. cbn. lia.
Qed.

(** The loop of [addMemory] calls the embedding model only. *)
Lemma addChunks_keeps_chat userId md total rest :
  forall ids0 w,
    chatCalls (addChunks env config userId md total rest ids0 w).1
    = chatCalls w.
Proof.
  induction rest as [|c rest IH]; intros ids0 w; [done|].
  destruct (ollama_embeddings env (embedCalls w) (cfgEmbeddingModel config)
              (text c)) as [v|] eqn:He.
  2:{ destruct (addChunks_stop env config userId md total c rest ids0 w He)
        as (w1 & Hstop & _).
      revert Hstop. cbn [addChunks].
      unfold bind, newUUID, generateEmbedding. cbn [embedCalls].
      rewrite He. by intros [= <-]. }
  destruct (decide (length v = VectorStore.VECTOR_SIZE)) as [Hl|Hl].
  2:{ cbn [addChunks].
      unfold bind, newUUID, generateEmbedding, now, VectorStore.addMemory,
        VectorStore.client_upsert.
      cbn [embedCalls vector]. rewrite He.
      apply Nat.eqb_neq in Hl. by rewrite Hl. }
  rewrite (addChunks_step env config _ _ _ _ _ _ _ _ He Hl).
  by rewrite IH.
Qed.

(** The loop of [addMemory] fails with the error of [generateEmbedding] or
    with the one of the vector store. *)
Lemma addChunks_throws userId md total rest :
  forall ids0 w w' e,
    addChunks env config userId md total rest ids0 w = (w', Throw e) ->
    e = embeddingFailure config \/ e = QdrantFailure.
Proof.
  induction rest as [|c rest IH]; intros ids0 w w' e Hrun; [done|].
  destruct (ollama_embeddings env (embedCalls w) (cfgEmbeddingModel config)
              (text c)) as [v|] eqn:He.
  2:{ destruct (addChunks_stop env config userId md total c rest ids0 w He)
        as (w1 & Hstop & _).
      rewrite Hstop in Hrun. injection Hrun as _ <-. by left. }
  destruct (decide (length v = VectorStore.VECTOR_SIZE)) as [Hl|Hl].
  2:{ destruct (addChunks_reject userId md total c rest ids0 w v He Hl)
        as (w1 & Hstop & _).
      rewrite Hstop in Hrun. injection Hrun as _ <-. by right. }
  rewrite (addChunks_step env config _ _ _ _ _ _ _ _ He Hl) in Hrun.
  by apply IH in Hrun.
Qed.

End StoreLemmas.

Section AddMemoryLemmas.

Variable env : Env.
Variable config : Config.

Lemma chunkText_nil input maxTokens overlapTokens :
  chunkText input maxTokens overlapTokens = []
  <-> splitIntoSentences input = [].
Proof.
  unfold chunkText. rewrite chunkSentences_groups.
  destruct (sentenceGroups_count (default 500 maxTokens)
              (default 50 overlapTokens) (splitIntoSentences input))
    as [_ Hne].
  split.
  - intros H. destruct (splitIntoSentences input) as [|s l]; [done|].
    destruct (sentenceGroups _ _ _); [|done]. by destruct Hne.
  - by intros ->.
Qed.

Lemma addMemory_ok options w w' ids :
  addMemory env config options w = (w', Ok ids) ->
  exists ps,
    length ps = length ids
    /\ Forall (fun p => payloadUserId (payload p) = addUserId options) ps
    /\ length ids
       = length (chunkText (normalizeText (addContent options))
                   (Some (cfgMaxChunkTokens config))
                   (Some (cfgOverlapTokens config)))
    /\ collection w' = written (collection w) (zip ids ps)
    /\ Forall (fun p => forall k,
                 ~ In k derivedKeys ->
                 payloadMetadata (payload p) !! k
                 = default ∅ (addMetadata options) !! k) ps.
Proof.
  unfold addMemory. intros Hrun.
  apply addChunks_ok in Hrun as (ps & Hlen & Hown & -> & Hcoll & Hmd).
  cbn [app]. rewrite drawn_length. exists ps. repeat (split; [done|]).
  eapply Forall_impl; [exact Hmd|]. intros p [chunk ->] k Hk.
  by apply chunkMetadata_caller.
Qed.

End AddMemoryLemmas.

(** X13: once [deleteUserMemories] ran for a user, [getMemoryCount] for that
    user is 0, and the count for every other user is what it was before. *)
Theorem deleteUserMemories_then_count :
  forall u w,
    u <> [] ->
    exists w1,
      deleteUserMemories u w = (w1, Ok tt)
      /\ getMemoryCount (Some u) w1 = (w1, Ok 0%nat)
      /\ forall v,
           v <> [] -> v <> u ->
           (getMemoryCount (Some v) w1).2 = (getMemoryCount (Some v) w).2.
Proof.
  intros u w Hu. eexists. split; [reflexivity|].
  unfold getMemoryCount, VectorStore.getCount, VectorStore.client_count.
  split.
  - destruct u as [|c u]; [done|]. cbn [collection].
    by rewrite owned_after_delete_filter, map_size_empty.
  - intros v Hv Hvu. destruct v as [|c v]; [done|]. cbn [collection snd].
    by rewrite others_after_delete_filter.
Qed.

Lemma deleteUserMemories_then_count_witness :
  lit "alice" <> []
  /\ exists w1,
       deleteUserMemories (lit "alice") storeWorld = (w1, Ok tt)
       /\ getMemoryCount (Some (lit "alice")) w1 = (w1, Ok 0%nat)
       /\ forall v,
            v <> [] -> v <> lit "alice" ->
            (getMemoryCount (Some v) w1).2
            = (getMemoryCount (Some v) storeWorld).2.
Proof.
  assert (lit "alice" <> []) as H by (vm_compute; discriminate).
  exact (conj H (deleteUserMemories_then_count _ storeWorld H)).
Defined.

(** X14: [getMemoryCount] reads the collection without changing anything;
    the count for a user never exceeds the count of all the memories, and
    for the empty user id it is the count of all the memories, the same as
    with no user id. *)
Theorem getMemoryCount_of_user_and_total :
  forall userId w,
    exists n total,
      getMemoryCount userId w = (w, Ok n)
      /\ getMemoryCount None w = (w, Ok total)
      /\ (n <= total)%nat
      /\ (userId = Some [] -> n = total).
Proof.
  intros userId w.
  unfold getMemoryCount, VectorStore.getCount, VectorStore.client_count.
  destruct userId as [[|c u]|]; do 2 eexists;
    (split; [reflexivity|]); (split; [reflexivity|]); split; try done.
  apply size_filter_le.
Qed.

(** X15: after [deleteUserMemories] for a user, a search on behalf of that
    user that succeeds finds nothing. *)
Theorem searchMemories_after_deleteUserMemories :
  forall env config options w w' results,
    searchMemories env config options
      (deleteUserMemories (searchUserId options) w).1
    = (w', Ok results) ->
    results = [].
Proof.
  intros env config options w w' results Hrun.
  apply searchMemories_hits in Hrun as (_ & _ & Hall).
  destruct results as [|r results]; [done|].
  apply Forall_cons in Hall as [(_ & p & Hp & Hown & _) _].
  cbn in Hp. by apply map_lookup_filter_Some in Hp as [_ Hn].
Qed.

Lemma searchMemories_after_deleteUserMemories_witness :
  (searchMemories (testEnv 1) testConfig aliceSearch
     (deleteUserMemories (searchUserId aliceSearch) storeWorld).1).2
  = Ok [].
Proof.
  destruct (searchMemories (testEnv 1) testConfig aliceSearch
              (deleteUserMemories (searchUserId aliceSearch) storeWorld).1)
    as [w' [results|e]] eqn:E.
  - by rewrite (searchMemories_after_deleteUserMemories _ _ _ _ _ _ E).
  - vm_compute in E. discriminate E.
Defined.

(** X16: when the identifiers [addMemory] returns were not in use before,
    calling [deleteMemory] on each of them gives back the collection as it
    was before the call. *)
Theorem addMemory_then_deleteMemory_restores :
  forall env config options w w' ids,
    addMemory env config options w = (w', Ok ids) ->
    Forall (fun i => collection w !! i = None) ids ->
    exists w'',
      deleteEach ids w' = (w'', Ok tt)
      /\ collection w'' = collection w.
Proof.
  intros env config options w w' ids Hrun Hfresh.
  apply addMemory_ok in Hrun as (ps & Hlen & _ & _ & Hcoll & _).
  destruct (deleteEach_run ids w') as (w'' & Hdel & Hk & _).
  exists w''. split; [done|]. apply map_eq. intros k. rewrite Hk.
  destruct (decide (k ∈ ids)) as [Hin|Hout].
  - rewrite Forall_forall in Hfresh. symmetry. by apply Hfresh.
  - rewrite Hcoll. apply written_lookup_fresh.
    rewrite fst_zip; [done|lia].
Qed.

Lemma addMemory_then_deleteMemory_restores_witness :
  addMemory (testEnv 2) testConfig addThree storeWorld
  = ((addMemory (testEnv 2) testConfig addThree storeWorld).1,
     Ok [lit "0"; lit "1"])
  /\ exists w'',
       deleteEach [lit "0"; lit "1"]
         (addMemory (testEnv 2) testConfig addThree storeWorld).1
       = (w'', Ok tt)
       /\ collection w'' = collection storeWorld.
Proof.
  assert (addMemory (testEnv 2) testConfig addThree storeWorld
          = ((addMemory (testEnv 2) testConfig addThree storeWorld).1,
             Ok [lit "0"; lit "1"])) as H by (vm_compute; reflexivity).
  assert (Forall (fun i => collection storeWorld !! i = None)
            [lit "0"; lit "1"]) as Hfresh
    by (repeat constructor; vm_compute; reflexivity).
  exact (conj H (addMemory_then_deleteMemory_restores _ _ _ _ _ _ H Hfresh)).
Defined.

(** X17: a successful [addMemory] returns one identifier per chunk of the
    normalized content, and when these identifiers are distinct and were
    not in use before, [getMemoryCount] goes up by their number, for the
    user of the call and for the whole collection alike. *)
Theorem addMemory_raises_count :
  forall env config options w w' ids,
    addMemory env config options w = (w', Ok ids) ->
    NoDup ids ->
    Forall (fun i => collection w !! i = None) ids ->
    length ids
    = length (chunkText (normalizeText (addContent options))
                (Some (cfgMaxChunkTokens config))
                (Some (cfgOverlapTokens config)))
    /\ exists n total,
         getMemoryCount (Some (addUserId options)) w = (w, Ok n)
         /\ getMemoryCount None w = (w, Ok total)
         /\ getMemoryCount (Some (addUserId options)) w'
            = (w', Ok (n + length ids)%nat)
         /\ getMemoryCount None w' = (w', Ok (total + length ids)%nat).
Proof.
  intros env config options w w' ids Hrun Hnd Hfresh.
  apply addMemory_ok in Hrun as (ps & Hlen & Hown & Hchunks & Hcoll & _).
  split; [done|].
  assert ((zip ids ps).*1 = ids) as Hkeys by (apply fst_zip; lia).
  assert (length (zip ids ps) = length ids) as Hzip.
  { rewrite length_zip_with. lia. }
  assert (size (collection w') = (size (collection w) + length ids)%nat)
    as Htotal.
  { rewrite Hcoll, written_size, Hzip; by rewrite ?Hkeys. }
  unfold getMemoryCount, VectorStore.getCount, VectorStore.client_count.
  destruct (addUserId options) as [|c u] eqn:Eu.
  - do 2 eexists. repeat (split; [reflexivity|]). by rewrite Htotal.
  - do 2 eexists. repeat (split; [reflexivity|]).
    rewrite Htotal. split; [|done]. do 2 f_equal.
    rewrite Hcoll, written_count, Hzip; rewrite ?Hkeys; try done.
    apply Forall_forall. intros [k p] Hkp.
    apply elem_of_zip_r in Hkp. rewrite Forall_forall in Hown.
    by apply Hown.
Qed.

Lemma addMemory_raises_count_witness :
  addMemory (testEnv 2) testConfig addThree storeWorld
  = ((addMemory (testEnv 2) testConfig addThree storeWorld).1,
     Ok [lit "0"; lit "1"])
  /\ length [lit "0"; lit "1"]
     = length (chunkText (normalizeText (addContent addThree))
                 (Some (cfgMaxChunkTokens testConfig))
                 (Some (cfgOverlapTokens testConfig)))
  /\ exists n total,
       getMemoryCount (Some (addUserId addThree)) storeWorld
       = (storeWorld, Ok n)
       /\ getMemoryCount None storeWorld = (storeWorld, Ok total)
       /\ getMemoryCount (Some (addUserId addThree))
            (addMemory (testEnv 2) testConfig addThree storeWorld).1
          = ((addMemory (testEnv 2) testConfig addThree storeWorld).1,
             Ok (n + length [lit "0"; lit "1"])%nat)
       /\ getMemoryCount None
            (addMemory (testEnv 2) testConfig addThree storeWorld).1
          = ((addMemory (testEnv 2) testConfig addThree storeWorld).1,
             Ok (total + length [lit "0"; lit "1"])%nat).
Proof.
  assert (addMemory (testEnv 2) testConfig addThree storeWorld
          = ((addMemory (testEnv 2) testConfig addThree storeWorld).1,
             Ok [lit "0"; lit "1"])) as H by (vm_compute; reflexivity).
  assert (NoDup [lit "0"; lit "1"]) as Hnd.
  { apply NoDup_cons. split; [|apply NoDup_singleton].
    intros Hin. apply list_elem_of_singleton in Hin. discriminate Hin. }
  assert (Forall (fun i => collection storeWorld !! i = None)
            [lit "0"; lit "1"]) as Hfresh
    by (repeat constructor; vm_compute; reflexivity).
  exact (conj H (addMemory_raises_count _ _ _ _ _ _ H Hnd Hfresh)).
Defined.

(** X18: [addMemory] returns no identifier and leaves everything as it was,
    without a single call to the embedding model, exactly when the content
    is made of blanks and terminal punctuation only (the empty content
    included); on any other content it draws at least one identifier and
    calls the embedding model at least once, and it does not return an
    empty list of identifiers. *)
Theorem addMemory_stores_nothing_iff :
  forall env config options w,
    (addMemory env config options w = (w, Ok [])
     <-> Forall (fun c => is_ws c = true \/ is_terminal c = true)
           (addContent options))
    /\ (~ Forall (fun c => is_ws c = true \/ is_terminal c = true)
           (addContent options) ->
        exists w' r,
          addMemory env config options w = (w', r)
          /\ (uuidCalls w < uuidCalls w')%nat
          /\ (embedCalls w < embedCalls w')%nat
          /\ r <> Ok []).
Proof.
  intros env config options w.
  rewrite <- splitIntoSentences_nil.
  assert (splitIntoSentences (addContent options) = []
          <-> chunkText (normalizeText (addContent options))
                (Some (cfgMaxChunkTokens config))
                (Some (cfgOverlapTokens config)) = []) as ->.
  { rewrite chunkText_nil, splitIntoSentences_normalizeText.
    split; [by intros ->|]. by destruct (splitIntoSentences _). }
  pose proof (addChunks_draws env config (addUserId options)
                (default ∅ (addMetadata options))
                (length (chunkText (normalizeText (addContent options))
                           (Some (cfgMaxChunkTokens config))
                           (Some (cfgOverlapTokens config))))
                (chunkText (normalizeText (addContent options))
                   (Some (cfgMaxChunkTokens config))
                   (Some (cfgOverlapTokens config))) [] w) as Hd.
  pose proof (addChunks_embeds env config (addUserId options)
                (default ∅ (addMetadata options))
                (length (chunkText (normalizeText (addContent options))
                           (Some (cfgMaxChunkTokens config))
                           (Some (cfgOverlapTokens config))))
                (chunkText (normalizeText (addContent options))
                   (Some (cfgMaxChunkTokens config))
                   (Some (cfgOverlapTokens config))) [] w) as He.
  fold (addMemory env config options) in Hd, He.
  split; [split|].
  - intros Hrun. rewrite Hrun in Hd. cbn [fst] in Hd.
    destruct (chunkText _ _ _); [done|lia].
  - unfold addMemory. by intros ->.
  - intros Hne.
    destruct (addMemory env config options w) as [w' r] eqn:Hrun.
    exists w', r. split; [done|]. cbn [fst] in Hd, He.
    destruct (chunkText _ _ _) as [|c cs] eqn:Ec; [done|].
    split; [lia|]. split; [lia|]. intros ->.
    apply addMemory_ok in Hrun as (_ & _ & _ & Hlen & _).
    rewrite Ec in Hlen. discriminate Hlen.
Qed.

(** ** What searching and chatting leave untouched *)

(** X19: [searchMemories] never writes: whatever it returns, the collection
    is as before, exactly one call went to the embedding model and none to
    the chat model; when the embedding model fails it throws the error that
    names the configured model. *)
Theorem searchMemories_only_reads :
  forall env config options w,
    exists w' r,
      searchMemories env config options w = (w', r)
      /\ collection w' = collection w
      /\ embedCalls w' = S (embedCalls w)
      /\ chatCalls w' = chatCalls w
      /\ uuidCalls w' = uuidCalls w
      /\ clockReads w' = clockReads w
      /\ (ollama_embeddings env (embedCalls w) (cfgEmbeddingModel config)
            (searchQuery options) = None ->
          r = Throw (embeddingFailure config)).
Proof.
  intros env config options w.
  unfold searchMemories, bind, generateEmbedding.
  destruct (ollama_embeddings env _ _ _) as [q|].
  - unfold VectorStore.search, bind, VectorStore.client_search.
    destruct (length q =? VectorStore.VECTOR_SIZE)%nat;
      do 2 eexists; (split; [reflexivity|]); by repeat split.
  - do 2 eexists. split; [reflexivity|]. by repeat split.
Qed.

(** X20: [chat] never writes to the collection.  It calls the embedding
    model once when the memory context is on and not at all when it is
    off; when the embedding model fails it throws the error of
    [generateEmbedding] and the chat model is not called; and a result
    means the chat model was called exactly once. *)
Theorem chat_calls :
  forall env config options w,
    exists w' r,
      chat env config options w = (w', r)
      /\ collection w' = collection w
      /\ uuidCalls w' = uuidCalls w
      /\ clockReads w' = clockReads w
      /\ embedCalls w'
         = (if default true (includeMemoryContext options)
            then S (embedCalls w) else embedCalls w)
      /\ (includeMemoryContext options <> Some false ->
          ollama_embeddings env (embedCalls w) (cfgEmbeddingModel config)
            (chatMessage options) = None ->
          r = Throw (embeddingFailure config) /\ chatCalls w' = chatCalls w)
      /\ (forall result, r = Ok result -> chatCalls w' = S (chatCalls w)).
Proof.
  intros env config options w. unfold chat.
  destruct (default true (includeMemoryContext options)) eqn:Einc.
  - destruct (searchMemories_only_reads env config (contextSearch options) w)
      as (w1 & r1 & Hrun & Hc & He & Hch & Hu & Hr & Hfail).
    unfold bind. rewrite Hrun.
    destruct r1 as [memories|e].
    + unfold ret, ollamaChat.
      destruct (ollama_chat env _ _ _) as [reply|];
        do 2 eexists; (split; [reflexivity|]); cbn;
        repeat (split; [done|]); (split; [|intros ? [=]; congruence]);
        intros _ Hnone; by specialize (Hfail Hnone).
    + do 2 eexists. split; [reflexivity|]. repeat (split; [done|]).
      split; [|done]. intros _ Hnone. split; [|done].
      by injection (Hfail Hnone) as ->.
  - assert (includeMemoryContext options = Some false) as Hoff.
    { destruct (includeMemoryContext options) as [[|]|]; done. }
    unfold bind, ret, ollamaChat.
    destruct (ollama_chat env _ _ _) as [reply|];
      do 2 eexists; (split; [reflexivity|]); cbn;
      repeat (split; [done|]); by intros ? _.
Qed.

(** ** The configuration the constructor builds *)

(** X21: the constructor of [MemorySystem] never yields an empty model name
    or url nor a size of 0: an empty string, a 0 or a [NaN] passed in the
    configuration gets the default like a missing entry, so that an overlap
    of 0 tokens cannot be configured; any other integer, a negative one
    included, is kept. *)
Theorem construct_replaces_falsy :
  forall given,
    cfgEmbeddingModel (construct given) <> []
    /\ cfgChatModel (construct given) <> []
    /\ cfgQdrantUrl (construct given) <> []
    /\ cfgMaxChunkTokens (construct given) <> 0
    /\ cfgOverlapTokens (construct given) <> 0
    /\ (overlapTokens given = Some (Integer 0)
        \/ overlapTokens given = Some NaN ->
        cfgOverlapTokens (construct given) = 50)
    /\ (maxChunkTokens given = Some (Integer 0)
        \/ maxChunkTokens given = Some NaN ->
        cfgMaxChunkTokens (construct given) = 500)
    /\ (forall n, n <> 0 -> overlapTokens given = Some (Integer n) ->
        cfgOverlapTokens (construct given) = n)
    /\ (forall n, n <> 0 -> maxChunkTokens given = Some (Integer n) ->
        cfgMaxChunkTokens (construct given) = n).
Proof.
  intros [em cm mx ov url]. cbn.
  assert (forall v d, d <> [] -> orString v d <> []) as Hs.
  { intros [[|c s]|] d Hd; done. }
  assert (forall v d, d <> 0 -> orNumber v d <> 0) as Hn.
  { intros [[n|]|] d Hd; cbn; [|done..]. destruct (n =? 0) eqn:E; [done|].
    by apply Z.eqb_neq. }
  repeat (split; [by (apply Hs || apply Hn)|]).
  split; [by intros [-> | ->]|]. split; [by intros [-> | ->]|].
  split; intros n Hne ->; cbn; apply Z.eqb_neq in Hne; by rewrite Hne.
Qed.

(** ** The chat endpoint of [copilot-server.ts] *)

Section HandlerLemmas.

Variable env : Env.

Implicit Types (w : World) (data : ChatWithMemory).

Lemma written_lookup_Some (kps : list (jsstring * Point)) :
  forall (m : gmap jsstring Point) k p,
    written m kps !! k = Some p ->
    (m !! k = Some p /\ k ∉ kps.*1) \/ (k, p) ∈ kps.
Proof.
  induction kps as [|[k' p'] kps IH]; intros m k p Hk.
  { left. split; [done|]. apply not_elem_of_nil. }
  unfold written in Hk. cbn [foldl] in Hk.
  fold (written (<[k' := p']> m) kps) in Hk.
  apply IH in Hk as [[Hm Hout] | Hin].
  - cbn [fst snd] in Hm. destruct (decide (k = k')) as [-> | Hne].
    + rewrite lookup_insert_eq in Hm. injection Hm as ->.
      right. apply elem_of_cons. by left.
    + rewrite lookup_insert_ne in Hm by done. left. split; [done|].
      cbn. by apply not_elem_of_cons.
  - right. apply elem_of_cons. by right.
Qed.

Lemma chat_plain config options w :
  includeMemoryContext options = Some false ->
  chat env config options w
  = (afterChat w,
     match
       ollama_chat env (chatCalls w) (cfgChatModel config)
         (chatMessages (default defaultSystemPrompt (systemPrompt options))
            (chatMessage options))
     with
     | Some reply => Ok {| response := reply; memoriesUsed := 0 |}
     | None => Throw OllamaFailure
     end).
Proof.
  intros Hoff. unfold chat. rewrite Hoff.
  change (default true (Some false)) with false. cbv iota.
  unfold bind, ret, ollamaChat. by destruct (ollama_chat env _ _ _).
Qed.

(** Step 1 reads the collection and reports what the search found. *)
Lemma refine_run data w :
  exists w1 r,
    refine env data w = (w1, r)
    /\ collection w1 = collection w
    /\ chatCalls w1 = chatCalls w
    /\ uuidCalls w1 = uuidCalls w
    /\ clockReads w1 = clockReads w
    /\ (r <> Throw OllamaFailure)
    /\ forall finalMessage n memories,
         r = Ok (finalMessage, n, memories) ->
         n = length memories
         /\ (n <= 5)%nat
         /\ (autoRefine data && reqIncludeMemoryContext data = false ->
             n = 0%nat)
         /\ (n = 0%nat -> finalMessage = reqMessage data)
         /\ (n <> 0%nat ->
             exists searchResults,
               memories = map resultText searchResults
               /\ finalMessage
                  = refinedMessage searchResults (reqMessage data))
         /\ Forall (fun t =>
              exists k p,
                collection w !! k = Some p
                /\ payloadUserId (payload p) = reqUserId data
                /\ payloadText (payload p) = t) memories.
Proof.
  unfold refine.
  destruct (autoRefine data && reqIncludeMemoryContext data) eqn:Eon.
  2:{ do 2 eexists. split; [reflexivity|]. repeat (split; [done|]).
      intros fm n ms [= <- <- <-]. repeat split; try done; lia. }
  destruct (searchMemories_only_reads env serverConfig (refineSearch data) w)
    as (w1 & r1 & Hrun & Hc & _ & Hch & Hu & Hr & _).
  unfold bind. rewrite Hrun. destruct r1 as [searchResults|e].
  2:{ do 2 eexists. split; [reflexivity|]. repeat (split; [done|]).
      split; [|done]. intros [= ->].
      revert Hrun. unfold searchMemories, bind, generateEmbedding.
      destruct (ollama_embeddings env _ _ _) as [q|]; [|done].
      unfold VectorStore.search, bind, VectorStore.client_search.
      by destruct (length q =? VectorStore.VECTOR_SIZE)%nat. }
  apply searchMemories_hits in Hrun as (_ & Hlen & Hall). cbn in Hlen.
  destruct searchResults as [|r rs].
  { do 2 eexists. split; [reflexivity|]. repeat (split; [done|]).
    intros fm n ms [= <- <- <-]. repeat split; try done; lia. }
  do 2 eexists. split; [reflexivity|]. repeat (split; [done|]).
  intros fm n ms [= <- <- <-].
  split; [cbn; by rewrite length_map|].
  split; [done|]. split; [done|]. split; [done|].
  split; [intros _; by exists (r :: rs)|].
  change (resultText r :: map resultText rs) with (map resultText (r :: rs)).
  apply Forall_forall. intros t Ht.
  apply list_elem_of_In, in_map_iff in Ht as (x & <- & Hx).
  apply list_elem_of_In in Hx. rewrite Forall_forall in Hall.
  destruct (Hall x Hx) as (_ & p & Hp & Hown & Htext).
  by exists (id x), p.
Qed.

(** What step 1 reports is what the search returned. *)
Lemma refine_found data w w1 finalMessage n memories :
  refine env data w = (w1, Ok (finalMessage, n, memories)) ->
  if autoRefine data && reqIncludeMemoryContext data then
    exists searchResults,
      searchMemories env serverConfig (refineSearch data) w
      = (w1, Ok searchResults)
      /\ memories = map resultText searchResults
      /\ n = length searchResults
  else memories = [] /\ n = 0%nat.
Proof.
  unfold refine.
  destruct (autoRefine data && reqIncludeMemoryContext data);
    [|by intros [= _ _ <- <-]].
  unfold bind.
  destruct (searchMemories env serverConfig (refineSearch data) w)
    as [w2 [searchResults|e]]; [|done].
  destruct searchResults as [|r rs]; intros [= <- _ <- <-].
  - by exists [].
  - by exists (r :: rs).
Qed.

Lemma conversationContent_has_sentence message reply :
  ~ Forall (fun c => is_ws c = true \/ is_terminal c = true)
      (conversationContent message reply).
Proof.
  unfold conversationContent. intros H.
  apply Forall_app in H as [H _]. apply Forall_cons in H as [[H | H] _];
    vm_compute in H; discriminate H.
Qed.

(** Step 3 writes the chunks of the conversation, of which there is at
    least one, under the user of the request. *)
Lemma store_run data reply n w w' :
  autoStore data = true ->
  store env data reply n w = (w', Ok tt) ->
  exists ids ps,
    ids <> []
    /\ length ps = length ids
    /\ collection w' = written (collection w) (zip ids ps)
    /\ Forall (fun p =>
         payloadUserId (payload p) = reqUserId data
         /\ payloadMetadata (payload p) !! "type"
            = Some (JStr (lit "copilot-conversation"))
         /\ payloadMetadata (payload p) !! "memoriesUsed"
            = Some (JNum (Z.of_nat n))) ps.
Proof.
  intros Hon. unfold store. rewrite Hon. unfold bind at 1. unfold now.
  unfold bind.
  match goal with |- context [addMemory env serverConfig ?o ?w0] =>
    destruct (addMemory env serverConfig o w0) as [w1 [ids|e]] eqn:Eadd
  end; [|done].
  unfold ret. intros [= <-].
  pose proof Eadd as Hok.
  apply addMemory_ok in Hok as (ps & Hlen & Hown & Hchunks & Hcoll & Hmd).
  exists ids, ps. split.
  { intros ->. symmetry in Hchunks.
    apply length_zero_iff_nil, chunkText_nil in Hchunks.
    rewrite splitIntoSentences_normalizeText in Hchunks.
    apply fmap_nil_inv, splitIntoSentences_nil in Hchunks.
    by apply conversationContent_has_sentence in Hchunks. }
  split; [done|]. split; [exact Hcoll|].
  rewrite Forall_forall in Hown, Hmd. apply Forall_forall. intros p Hp.
  split; [by apply (Hown p)|].
  split.
  - rewrite (Hmd p Hp).
    + cbn [addMetadata default from_option Datatypes.id].
      unfold conversationMetadata.
      rewrite !lookup_insert_ne by done. apply lookup_insert_eq.
    + cbn. intros H. repeat destruct H as [H|H]; try discriminate H. exact H.
  - rewrite (Hmd p Hp).
    + cbn [addMetadata default from_option Datatypes.id].
      unfold conversationMetadata.
      apply lookup_insert_eq.
    + cbn. intros H. repeat destruct H as [H|H]; try discriminate H. exact H.
Qed.

Lemma store_off data reply n w :
  autoStore data = false -> store env data reply n w = (w, Ok tt).
Proof. intros Hoff. unfold store. by rewrite Hoff. Qed.

Lemma store_failure data reply n w w' e :
  store env data reply n w = (w', Throw e) -> e <> OllamaFailure.
Proof.
  unfold store. destruct (autoStore data); [|done].
  unfold bind at 1. unfold now. unfold bind, addMemory.
  match goal with
  |- context [addChunks env serverConfig ?u ?md ?t ?cs [] ?w0] =>
    destruct (addChunks env serverConfig u md t cs [] w0)
      as [w1 [ids|e1]] eqn:Eadd
  end; [done|].
  intros [= _ <-]. by apply addChunks_throws in Eadd as [-> | ->].
Qed.

Lemma store_keeps_chat data reply n w :
  chatCalls (store env data reply n w).1 = chatCalls w.
Proof.
  unfold store. destruct (autoStore data); [|done].
  unfold bind at 1. unfold now. unfold bind, addMemory.
  match goal with
  |- context [addChunks env serverConfig ?u ?md ?t ?cs [] ?w0] =>
    pose proof (addChunks_keeps_chat env serverConfig u md t cs [] w0) as Hk;
    destruct (addChunks env serverConfig u md t cs [] w0) as [w1 [ids|e1]]
  end; exact Hk.
Qed.

(** The steps behind a reply that is not an error. *)
Lemma chatHandler_json data w w' body :
  chatHandler env data w = (w', Ok (Json body)) ->
  exists w1 finalMessage n memories reply,
    refine env data w = (w1, Ok (finalMessage, n, memories))
    /\ ollama_chat env (chatCalls w1) (cfgChatModel serverConfig)
         (chatMessages
            (default defaultSystemPrompt (reqSystemPrompt data))
            finalMessage) = Some reply
    /\ store env data reply n (afterChat w1) = (w', Ok tt)
    /\ body = {| replyResponse := reply; replyMemoriesUsed := n;
                 replyMemories := memories;
                 replyStored := autoStore data;
                 replyRefined := autoRefine data && (0 <? n)%nat |}.
Proof.
  unfold chatHandler, tryCatch. unfold bind at 1.
  destruct (refine env data w) as [w1 [[[fm n] ms]|e]] eqn:Er; [|done].
  cbn [fst snd]. unfold bind at 1. rewrite chat_plain by done.
  cbn [chatMessage systemPrompt].
  destruct (ollama_chat env _ _ _) as [reply|] eqn:Ec; [|done].
  unfold bind. cbn [response].
  destruct (store env data reply n (afterChat w1)) as [w2 [[]|e]] eqn:Es;
    [|done].
  unfold ret. intros [= <- <-]. by exists w1, fm, n, ms, reply.
Qed.

End HandlerLemmas.

(** X22: in a reply of the chat endpoint that is not an error, when
    [autoRefine] and [includeMemoryContext] are both on, the handler
    searched the memories of the user of the request for the message, with
    limit 5 and threshold 0.3, and [memories] are the texts of the results
    of that search, in order, and [memoriesUsed] their number; when either
    is off, [memories] is empty and [memoriesUsed] is 0.  So [memoriesUsed]
    is the length of [memories], at most 5; [memories] are texts of stored
    memories of that user; [refined] tells whether any was found, [stored]
    repeats [autoStore], and the chat model was called exactly once. *)
Theorem chatHandler_reports_memories_found :
  forall env data w w' body,
    chatHandler env data w = (w', Ok (Json body)) ->
    (if autoRefine data && reqIncludeMemoryContext data then
       exists w1 searchResults,
         searchMemories env serverConfig
           {| searchUserId := reqUserId data; searchQuery := reqMessage data;
              searchLimit := Some 5%nat;
              searchScoreThreshold := Some (3 # 10)%Q |} w
         = (w1, Ok searchResults)
         /\ replyMemories body = map resultText searchResults
         /\ replyMemoriesUsed body = length searchResults
     else replyMemories body = [] /\ replyMemoriesUsed body = 0%nat)
    /\ replyMemoriesUsed body = length (replyMemories body)
    /\ (replyMemoriesUsed body <= 5)%nat
    /\ (autoRefine data && reqIncludeMemoryContext data = false ->
        replyMemoriesUsed body = 0%nat)
    /\ replyRefined body = (0 <? replyMemoriesUsed body)%nat
    /\ replyStored body = autoStore data
    /\ Forall (fun t =>
         exists k p,
           collection w !! k = Some p
           /\ payloadUserId (payload p) = reqUserId data
           /\ payloadText (payload p) = t) (replyMemories body)
    /\ chatCalls w' = S (chatCalls w).
Proof.
  intros env data w w' body Hrun.
  apply chatHandler_json in Hrun
    as (w1 & fm & n & ms & reply & Hrefine & _ & Hstore & ->).
  destruct (refine_run env data w)
    as (w1' & r & Hrun & _ & Hch & _ & _ & _ & Hfound).
  rewrite Hrefine in Hrun. injection Hrun as <- <-.
  destruct (Hfound fm n ms eq_refl) as (Hn & Hle & Hoff & _ & _ & Hall).
  split.
  { apply refine_found in Hrefine. cbn [replyMemories replyMemoriesUsed].
    destruct (autoRefine data && reqIncludeMemoryContext data); [|done].
    destruct Hrefine as (rs & Hsearch & -> & ->). by exists w1, rs. }
  cbn. repeat (split; [done|]). split.
  - destruct n as [|n]; [apply andb_false_r|].
    destruct (autoRefine data); [done|]. by specialize (Hoff eq_refl).
  - split; [done|]. split; [done|].
    pose proof (store_keeps_chat env data reply n (afterChat w1)) as Hk.
    rewrite Hstore in Hk. cbn in Hk. by rewrite Hk, Hch.
Qed.

Lemma chatHandler_reports_memories_found_witness :
  exists w' body,
    chatHandler (testEnv 2) (teaRequest true) storeWorld
    = (w', Ok (Json body))
    /\ (exists w1 searchResults,
          searchMemories (testEnv 2) serverConfig
            {| searchUserId := lit "alice"; searchQuery := lit "tea";
               searchLimit := Some 5%nat;
               searchScoreThreshold := Some (3 # 10)%Q |} storeWorld
          = (w1, Ok searchResults)
          /\ replyMemories body = map resultText searchResults
          /\ replyMemoriesUsed body = length searchResults)
    /\ replyMemoriesUsed body = length (replyMemories body)
    /\ (replyMemoriesUsed body <= 5)%nat
    /\ (autoRefine (teaRequest true)
        && reqIncludeMemoryContext (teaRequest true) = false ->
        replyMemoriesUsed body = 0%nat)
    /\ replyRefined body = (0 <? replyMemoriesUsed body)%nat
    /\ replyStored body = autoStore (teaRequest true)
    /\ Forall (fun t =>
         exists k p,
           collection storeWorld !! k = Some p
           /\ payloadUserId (payload p) = reqUserId (teaRequest true)
           /\ payloadText (payload p) = t) (replyMemories body)
    /\ chatCalls w' = S (chatCalls storeWorld).
Proof.
  assert (chatHandler (testEnv 2) (teaRequest true) storeWorld
          = ((chatHandler (testEnv 2) (teaRequest true) storeWorld).1,
             Ok (Json {| replyResponse := lit "ok"; replyMemoriesUsed := 1;
                         replyMemories := [lit "likes tea"];
                         replyStored := true; replyRefined := true |})))
    as H by (vm_compute; reflexivity).
  do 2 eexists.
  exact (conj H (chatHandler_reports_memories_found _ _ _ _ _ H)).
Defined.

(** X23: the handler of the chat endpoint never throws: a failure of the
    search, of the chat model or of the storage becomes an error reply.
    With [autoStore] off it never writes to the collection; when the chat
    model fails nothing is stored; and the chat model is called at most
    once. *)
Theorem chatHandler_catches_failures :
  forall env data w,
    exists w' reply,
      chatHandler env data w = (w', Ok reply)
      /\ (autoStore data = false ->
          collection w' = collection w
          /\ uuidCalls w' = uuidCalls w
          /\ clockReads w' = clockReads w)
      /\ (reply = ServerError OllamaFailure -> collection w' = collection w)
      /\ (chatCalls w' <= S (chatCalls w))%nat.
Proof.
  intros env data w. unfold chatHandler, tryCatch. unfold bind at 1.
  destruct (refine_run env data w)
    as (w1 & r & Hrefine & Hc & Hch & Hu & Hr & Hne & _).
  rewrite Hrefine. destruct r as [[[fm n] ms]|e].
  2:{ do 2 eexists. split; [reflexivity|]. split; [done|].
      split; [|lia]. intros [= ->]. done. }
  cbn [fst snd]. unfold bind at 1. rewrite chat_plain by done.
  cbn [chatMessage systemPrompt].
  destruct (ollama_chat env _ _ _) as [reply|] eqn:Ec.
  2:{ do 2 eexists. split; [reflexivity|]. cbn.
      repeat split; try done; lia. }
  unfold bind. cbn [response].
  pose proof (store_keeps_chat env data reply n (afterChat w1)) as Hk.
  destruct (store env data reply n (afterChat w1)) as [w2 [[]|e]] eqn:Es.
  - do 2 eexists. split; [reflexivity|]. cbn in Hk |- *.
    split; [|split; [done|lia]].
    intros Hoff. rewrite (store_off env data reply n _ Hoff) in Es.
    injection Es as <-. by cbn.
  - do 2 eexists. split; [reflexivity|]. cbn in Hk |- *.
    split; [|split; [|lia]].
    + intros Hoff. rewrite (store_off env data reply n _ Hoff) in Es.
      discriminate Es.
    + intros [= ->]. by apply store_failure in Es.
Qed.

(** X24: when the chat endpoint answers without an error and [autoStore]
    is on, the conversation is in the collection: at least one memory of
    the user of the request whose metadata has the [type]
    ['copilot-conversation'], whatever [type] the request's metadata gave,
    and the [memoriesUsed] of the reply; and every point of the collection
    is such a memory or was there before. *)
Theorem chatHandler_stores_conversation :
  forall env data w w' body,
    chatHandler env data w = (w', Ok (Json body)) ->
    autoStore data = true ->
    let conversation (p : Point) :=
      payloadUserId (payload p) = reqUserId data
      /\ payloadMetadata (payload p) !! "type"
         = Some (JStr (lit "copilot-conversation"))
      /\ payloadMetadata (payload p) !! "memoriesUsed"
         = Some (JNum (Z.of_nat (replyMemoriesUsed body))) in
    (exists k p, collection w' !! k = Some p /\ conversation p)
    /\ forall k p,
         collection w' !! k = Some p ->
         collection w !! k = Some p \/ conversation p.
Proof.
  intros env data w w' body Hrun Hon conversation.
  apply chatHandler_json in Hrun
    as (w1 & fm & n & ms & reply & Hrefine & _ & Hstore & ->).
  destruct (refine_run env data w)
    as (w1' & r & Hrun & Hc & _).
  rewrite Hrefine in Hrun. injection Hrun as <- <-.
  apply store_run in Hstore as (ids & ps & Hne & Hlen & Hcoll & Hall);
    [|done].
  cbn [collection afterChat] in Hcoll. rewrite Hc in Hcoll.
  assert ((zip ids ps).*1 = ids) as Hkeys by (apply fst_zip; lia).
  assert (forall k p, (k, p) ∈ zip ids ps -> conversation p) as Hnew.
  { intros k p Hkp. apply elem_of_zip_r in Hkp.
    rewrite Forall_forall in Hall. by apply Hall. }
  assert (forall k p,
            collection w' !! k = Some p ->
            (collection w !! k = Some p /\ k ∉ ids) \/ (k, p) ∈ zip ids ps)
    as Hsplit.
  { intros k p Hk. rewrite Hcoll in Hk.
    apply written_lookup_Some in Hk. by rewrite Hkeys in Hk. }
  split.
  - destruct ids as [|k ids]; [done|].
    destruct (written_lookup_key (zip (k :: ids) ps) (collection w) k)
      as [p Hp].
    { rewrite Hkeys. apply elem_of_cons. by left. }
    rewrite <- Hcoll in Hp. exists k, p. split; [done|].
    destruct (Hsplit k p Hp) as [[_ Hout] | Hin]; [|by eapply Hnew].
    destruct Hout. apply elem_of_cons. by left.
  - intros k p Hk. destruct (Hsplit k p Hk) as [[Hold _] | Hin].
    + by left.
    + right. by eapply Hnew.
Qed.

Lemma chatHandler_stores_conversation_witness :
  callerMetadata !! "type" = Some (JStr (lit "test"))
  /\ exists w' body,
       chatHandler (testEnv 2) (teaRequest true) storeWorld
       = (w', Ok (Json body))
       /\ (exists k p,
             collection w' !! k = Some p
             /\ payloadUserId (payload p) = reqUserId (teaRequest true)
             /\ payloadMetadata (payload p) !! "type"
                = Some (JStr (lit "copilot-conversation"))
             /\ payloadMetadata (payload p) !! "memoriesUsed"
                = Some (JNum (Z.of_nat (replyMemoriesUsed body))))
       /\ forall k p,
            collection w' !! k = Some p ->
            collection storeWorld !! k = Some p
            \/ (payloadUserId (payload p) = reqUserId (teaRequest true)
                /\ payloadMetadata (payload p) !! "type"
                   = Some (JStr (lit "copilot-conversation"))
                /\ payloadMetadata (payload p) !! "memoriesUsed"
                   = Some (JNum (Z.of_nat (replyMemoriesUsed body)))).
Proof.
  assert (chatHandler (testEnv 2) (teaRequest true) storeWorld
          = ((chatHandler (testEnv 2) (teaRequest true) storeWorld).1,
             Ok (Json {| replyResponse := lit "ok"; replyMemoriesUsed := 1;
                         replyMemories := [lit "likes tea"];
                         replyStored := true; replyRefined := true |})))
    as H by (vm_compute; reflexivity).
  split; [reflexivity|]. do 2 eexists.
  exact (conj H (chatHandler_stores_conversation _ _ _ _ _ H eq_refl)).
Defined.

(** X25: the chat endpoint asks the chat model once, with the system prompt
    of the request (the default one when there is none) and, as user
    message, the message of the request when no memory was found, and
    otherwise the numbered texts of the memories followed by
    [User request:] and the message; the context block of
    [MemorySystem.chat] is never added. *)
Theorem chatHandler_prompt :
  forall env data w w' body,
    chatHandler env data w = (w', Ok (Json body)) ->
    exists finalMessage,
      ollama_chat env (chatCalls w) (cfgChatModel serverConfig)
        [ {| role := lit "system";
             content := default defaultSystemPrompt (reqSystemPrompt data) |};
          {| role := lit "user"; content := finalMessage |} ]
      = Some (replyResponse body)
      /\ (replyMemoriesUsed body = 0%nat -> finalMessage = reqMessage data)
      /\ (replyMemoriesUsed body <> 0%nat ->
          exists searchResults,
            replyMemories body = map resultText searchResults
            /\ finalMessage
               = [LF; LF] ++ lit "Relevant context from your memories:"
                 ++ [LF] ++ join [LF] (imap contextLine searchResults)
                 ++ [LF] ++ [LF] ++ lit "User request: "
                 ++ reqMessage data).
Proof.
  intros env data w w' body Hrun.
  apply chatHandler_json in Hrun
    as (w1 & fm & n & ms & reply & Hrefine & Hchat & _ & ->).
  destruct (refine_run env data w)
    as (w1' & r & Hrun & _ & Hch & _ & _ & _ & Hfound).
  rewrite Hrefine in Hrun. injection Hrun as <- <-.
  destruct (Hfound fm n ms eq_refl) as (_ & _ & _ & Hzero & Hsome & _).
  exists fm. cbn. rewrite <- Hch. split; [exact Hchat|]. split; [done|].
  intros Hn. destruct (Hsome Hn) as (rs & -> & ->). exists rs.
  split; [done|]. unfold refinedMessage, memoriesContext.
  by rewrite <- !app_assoc.
Qed.

Lemma chatHandler_prompt_witness :
  exists w' body finalMessage,
    chatHandler (testEnv 2) (teaRequest false) storeWorld
    = (w', Ok (Json body))
    /\ ollama_chat (testEnv 2) (chatCalls storeWorld)
         (cfgChatModel serverConfig)
         [ {| role := lit "system";
              content :=
                default defaultSystemPrompt
                  (reqSystemPrompt (teaRequest false)) |};
           {| role := lit "user"; content := finalMessage |} ]
       = Some (replyResponse body)
    /\ (replyMemoriesUsed body = 0%nat ->
        finalMessage = reqMessage (teaRequest false))
    /\ (replyMemoriesUsed body <> 0%nat ->
        exists searchResults,
          replyMemories body = map resultText searchResults
          /\ finalMessage
             = [LF; LF] ++ lit "Relevant context from your memories:"
               ++ [LF] ++ join [LF] (imap contextLine searchResults)
               ++ [LF] ++ [LF] ++ lit "User request: "
               ++ reqMessage (teaRequest false)).
Proof.
  assert (chatHandler (testEnv 2) (teaRequest false) storeWorld
          = ((chatHandler (testEnv 2) (teaRequest false) storeWorld).1,
             Ok (Json {| replyResponse := lit "ok"; replyMemoriesUsed := 1;
                         replyMemories := [lit "likes tea"];
                         replyStored := false; replyRefined := true |})))
    as H by (vm_compute; reflexivity).
  destruct (chatHandler_prompt _ _ _ _ _ H) as (finalMessage & Hp).
  do 3 eexists. exact (conj H Hp).
Defined.
